(** * Verification of the code-challenge repository

    A shallow embedding of the repository's TypeScript sources and proofs
    about them:

    - [SumToN]: [src/problem4/sum_to_n.ts], the three summation functions;
    - [Anomaly]: [detectAnomalies], the anomaly scorer of the scoreboard
      write path ([problem6], section 1.4 of the implementation notes);
    - [Scoreboard]: [completeAction], the action completion handler
      (section 1.2 of the same notes) over the schema of ARCHITECTURE.md,
      one invocation at a time;
    - [Concurrent]: the transactions of several invocations of
      [completeAction] interleaved, under the row lock that they take;
    - [Resources]: [updateResource] of the [problem5] CRUD controller;
    - [Auth], [RateLimit], [Replay]: the middlewares [validateJWT] and
      [rateLimitMiddleware] and the replay check [checkReplay] of the
      same notes (sections 1.1, 1.3 and 2.3);
    - [Ledger]: sequences of requests to [completeAction];
    - [Crud]: the other handlers of the [problem5] controller and the
      routes that reach them.

    Conventions.  In [SumToN] a JavaScript [number] is a double: the
    integers that binary64 represents, the infinities and [NaN], with
    every operation rounded to the nearest double, ties to even; loops
    and recursion run on a bounded number of tests and of nested calls.
    Elsewhere a [number] that holds an integer is a [Z], and a value
    stored in an [INT] column is checked against the range of that type
    when it is written.  A [number] that need not be an integer is a
    rational [Q].  Timestamps are milliseconds since the epoch.
    Identifiers (UUIDs, IP addresses, JSON keys) are [string]s, tables keyed
    by a primary key are [gmap]s, and tables that are only appended to and
    scanned are lists.  What a handler gets from outside (clock readings,
    generated ids, which awaited operation fails) is an argument of its
    embedding. *)

From Stdlib Require Import ZArith QArith Lia List.
From stdpp Require Import gmap strings list fin_maps.

#[local] Open Scope Z_scope.

(* ===================================================================== *)
(** * Part I: the programs *)
(* ===================================================================== *)

(** ** problem4/sum_to_n.ts *)

Module SumToN.

(** *** JavaScript numbers

    A [number] is an IEEE 754 double.  After [Math.trunc] the three
    functions hold integers only, so a finite number is given by the
    integer that it is.  An operation computes the exact result and
    rounds it to the nearest double, a tie going to the even
    significand; a result that rounds to [2^1024] or beyond is an
    infinity.  The sign of a zero is not kept: no comparison and no
    result of the three functions depends on it. *)
Inductive number :=
| Int (z : Z)
| Infinity (negative : bool)
| NaN.

(** Rounding of an exact integer result to 53 significant bits.  With
    [2^k <= |z| < 2^(k+1)] the doubles around [z] are the multiples of
    [2^(k-52)]. *)
Definition round (z : Z) : number :=
  let a := Z.abs z in
  let e := Z.log2 a - 52 in
  if e <=? 0 then Int z
  else
    let q := a / 2 ^ e in
    let r := a mod 2 ^ e in
    let q' := if 2 * r <? 2 ^ e then q
              else if 2 ^ e <? 2 * r then q + 1
              else if Z.even q then q else q + 1 in
    let m := q' * 2 ^ e in
    if 2 ^ 1024 <=? m then Infinity (z <? 0)
    else Int (Z.sgn z * m).

(** [x + y] *)
Definition add (x y : number) : number :=
  match x, y with
  | NaN, _ | _, NaN => NaN
  | Int a, Int b => round (a + b)
  | Infinity s, Int _ | Int _, Infinity s => Infinity s
  | Infinity s, Infinity t => if Bool.eqb s t then Infinity s else NaN
  end.

(** [-x] *)
Definition neg (x : number) : number :=
  match x with
  | Int a => Int (- a)
  | Infinity s => Infinity (negb s)
  | NaN => NaN
  end.

(** [x - y] *)
Definition sub (x y : number) : number := add x (neg y).

(** [x * y] *)
Definition mul (x y : number) : number :=
  match x, y with
  | NaN, _ | _, NaN => NaN
  | Int a, Int b => round (a * b)
  | Infinity s, Int b | Int b, Infinity s =>
      if b =? 0 then NaN else Infinity (xorb s (b <? 0))
  | Infinity s, Infinity t => Infinity (xorb s t)
  end.

(** [x / 2] for the dividends of [sum_to_n_c].  Halving a double is
    exact; these dividends are even integers (see [dividend_even] in
    Part II), so the half is the integer [a / 2]. *)
Definition half (x : number) : number :=
  match x with
  | Int a => Int (a / 2)
  | Infinity s => Infinity s
  | NaN => NaN
  end.

(** [x < y]; every comparison with [NaN] is false. *)
Definition lt (x y : number) : bool :=
  match x, y with
  | NaN, _ | _, NaN => false
  | Int a, Int b => a <? b
  | Infinity s, Infinity t => s && negb t
  | Infinity s, Int _ => s
  | Int _, Infinity t => negb t
  end.

(** [x === y] *)
Definition strict_eq (x y : number) : bool :=
  match x, y with
  | Int a, Int b => a =? b
  | Infinity s, Infinity t => Bool.eqb s t
  | _, _ => false
  end.

(** [x <= y], [x > y] and [x >= y] *)
Definition le (x y : number) : bool := lt x y || strict_eq x y.
Definition gt (x y : number) : bool := lt y x.
Definition ge (x y : number) : bool := le y x.

(** [Number.MAX_SAFE_INTEGER] *)
Definition MAX_SAFE_INTEGER : Z := 2 ^ 53 - 1.

(** *** The three functions

    The argument is a finite number, given by its value, a rational. *)

(** [Math.trunc]: rounding towards zero.  On a rational [p/q] this is the
    truncating quotient, an integer that is a double when [p/q] is. *)
Definition Math_trunc (x : Q) : Z := Z.quot (Qnum x) (Zpos (Qden x)).

(** The loop [for (let i = i0; i <= hi; i++) sum += i], as a function of
    the loop variables.  Above [2^53] the increment [i++] can leave [i]
    as it is, and the loop then runs for ever: the result is the value of
    [sum] at loop exit, or [None] when the loop is still running after
    [fuel] tests of its condition. *)
Fixpoint for_loop (fuel : nat) (i hi sum : number) : option number :=
  match fuel with
  | O => None
  | S fuel' =>
      if le i hi then for_loop fuel' (add i (Int 1)) hi (add sum i)
      else Some sum
  end.

(** Iterative approach. *)
Definition sum_to_n_a (fuel : nat) (x : Q) : option number :=
  let n := Int (Math_trunc x) in
  if ge n (Int 1) then for_loop fuel (Int 1) n (Int 0)
  else for_loop fuel n (Int 1) (Int 0).

(** Recursive approach, from its second line on: [n] is truncated
    already.  [depth] is the number of nested activations of the function
    that the call stack of the engine has room for: [None] is the
    [RangeError] that the engine throws when the recursion goes deeper,
    which also ends every caller.  In a recursive call the first line,
    [n = Math.trunc(n)], finds an integer, an infinity or [NaN] and
    returns it unchanged. *)
Fixpoint sum_to_n_b_from (depth : nat) (n : number) : option number :=
  match depth with
  | O => None
  | S depth' =>
      if strict_eq n (Int 1) then Some (Int 1)
      else if gt n (Int 1) then
        match sum_to_n_b_from depth' (sub n (Int 1)) with
        | Some r => Some (add n r)
        | None => None
        end
      else
        match sum_to_n_b_from depth' (add n (Int 1)) with
        | Some r => Some (add n r)
        | None => None
        end
  end.

(** Recursive approach. *)
Definition sum_to_n_b (depth : nat) (x : Q) : option number :=
  sum_to_n_b_from depth (Int (Math_trunc x)).

(** Formula approach. *)
Definition sum_to_n_c (x : Q) : number :=
  let n := Int (Math_trunc x) in
  if ge n (Int 1) then half (mul n (add n (Int 1)))
  else
    let count := sub (Int 2) n in
    half (mul (add n (Int 1)) count).

(** The documented behaviour, in the words of the header comment of
    sum_to_n.ts: the sum of all the integers from [lo] to [hi] inclusive
    (the empty sum when [hi < lo]). *)
Definition sum_from_to (lo hi : Z) : Z :=
  fold_right Z.add 0
    (map (fun k => lo + Z.of_nat k) (seq 0 (Z.to_nat (hi - lo + 1)))).

(** The number of times that the loop of [sum_to_n_a] tests its
    condition on [n], and the number of activations of [sum_to_n_b] that
    are open when the recursion on [n] is at its deepest. *)
Definition loop_tests (n : Z) : Z := Z.abs (n - 1) + 2.
Definition call_depth (n : Z) : Z := Z.abs (n - 1) + 1.

End SumToN.

(** ** detectAnomalies (anomaly detection, implementation notes 1.4) *)

Module Anomaly.

(** The row of [users] that the scorer looks at. *)
Record User := { createdAt : Z }.

(** The six reads that [detectAnomalies] awaits, in the order of the
    source: the two geolocations are those of [lastIP] and of [req.ip]. *)
Inductive Read :=
| GetUserScoreHistory
| UserFindById
| GetActionCount
| GetLastClientIP
| GeolocateLast
| GeolocateRequest.

#[global] Instance Read_eq_dec : EqDecision Read.
Proof. solve_decision. Defined.

(** Everything [detectAnomalies] reads that is not one of its three
    parameters: the helpers it awaits (none of them is defined in the
    repository, so each is a field here, a function of the arguments it is
    called with), the clock, and the free variable [req] whose [ip] the
    fourth check uses.  [failing] is the read whose promise rejects in
    this run, if one does. *)
Record World := {
  getUserScoreHistory : string -> Z -> list Z;
  User_findById : string -> option User;
  getActionCount : string -> Z -> Z;
  getLastClientIP : string -> option string;
  geolocate : string -> string;
  Date_now : Z;
  req_ip : string;
  failing : option Read
}.

(** An awaited read rejects when it is the one that fails. *)
Definition rejects (w : World) (r : Read) : bool :=
  bool_decide (failing w = Some r).

(** The entries of [reasons].  The source pushes template strings; a
    constructor stands for each template and carries the values that are
    interpolated into it. *)
Inductive Reason :=
| ExceptionalReward (actionReward : Z) (avgReward : option Q)
| NewAccount
| HighActionFrequency (actionsLast5Min : Z)
| GeographicChange (country1 country2 : string).

Record Verdict := {
  isSuspicious : bool;
  anomalyScore : Z;
  reasons : list Reason
}.

(** [userHistory.reduce((a, b) => a + b, 0) / userHistory.length]; [None]
    is the [NaN] that [0 / 0] gives on an empty history.  The quotient is
    the exact rational, where the source has its double approximation. *)
Definition avgReward (userHistory : list Z) : option Q :=
  match userHistory with
  | [] => None
  | _ :: _ =>
      Some (Qdiv (inject_Z (fold_left Z.add userHistory 0))
                 (inject_Z (Z.of_nat (length userHistory))))
  end.

(** [actionReward > avgReward * 5]; every comparison with [NaN] is false. *)
Definition exceeds_5x (actionReward : Z) (avg : option Q) : bool :=
  match avg with
  | None => false
  | Some a => negb (Qle_bool (inject_Z actionReward) (Qmult a (inject_Z 5)))
  end.

(** The four conditions, in the order in which the source tests them. *)
Definition check1 (w : World) (userId : string) (actionReward : Z) : bool :=
  exceeds_5x actionReward (avgReward (getUserScoreHistory w userId 10)).

Definition check2 (w : World) (user : User) : bool :=
  Date_now w - createdAt user <? 24 * 60 * 60 * 1000.

Definition check3 (w : World) (userId : string) : bool :=
  getActionCount w userId 300 >? 20.

(** [lastIP && lastIP !== req.ip], then the comparison of the two
    countries.  An empty string is falsy. *)
Definition check4 (w : World) (userId : string) : bool :=
  match getLastClientIP w userId with
  | None => false
  | Some lastIP =>
      if bool_decide (lastIP = EmptyString) then false
      else if bool_decide (lastIP = req_ip w) then false
      else negb (bool_decide (geolocate w lastIP = geolocate w (req_ip w)))
  end.

(** [detectAnomalies(userId, newScore, actionReward)].  The result is
    [None] when the promise rejects: none of the awaits is inside a [try]
    block, so a read that rejects rejects the function, and
    [user.createdAt] throws on the [null] that [User.findById] returns
    for an unknown user. *)
Definition detectAnomalies (w : World) (userId : string) (newScore : Z)
    (actionReward : Z) : option Verdict :=
  let anomalyScore := 0 in
  let reasons := [] in
  (* Check 1: score jump too large? *)
  if rejects w GetUserScoreHistory then None else
  let userHistory := getUserScoreHistory w userId 10 in
  let avg := avgReward userHistory in
  let '(anomalyScore, reasons) :=
    if exceeds_5x actionReward avg
    then (anomalyScore + 30, reasons ++ [ExceptionalReward actionReward avg])
    else (anomalyScore, reasons) in
  (* Check 2: user too new? *)
  if rejects w UserFindById then None else
  match User_findById w userId with
  | None => None
  | Some user =>
      let '(anomalyScore, reasons) :=
        if Date_now w - createdAt user <? 24 * 60 * 60 * 1000
        then (anomalyScore + 20, reasons ++ [NewAccount])
        else (anomalyScore, reasons) in
      (* Check 3: rate of actions *)
      if rejects w GetActionCount then None else
      let actionsLast5Min := getActionCount w userId 300 in
      let '(anomalyScore, reasons) :=
        if actionsLast5Min >? 20
        then (anomalyScore + 40, reasons ++ [HighActionFrequency actionsLast5Min])
        else (anomalyScore, reasons) in
      (* Check 4: geographic anomaly *)
      if rejects w GetLastClientIP then None else
      let check4 :=
        match getLastClientIP w userId with
        | None => Some (anomalyScore, reasons)
        | Some lastIP =>
            if bool_decide (lastIP = EmptyString)
            then Some (anomalyScore, reasons)
            else if bool_decide (lastIP = req_ip w)
            then Some (anomalyScore, reasons)
            else
              if rejects w GeolocateLast then None else
              let country1 := geolocate w lastIP in
              if rejects w GeolocateRequest then None else
              let country2 := geolocate w (req_ip w) in
              if bool_decide (country1 = country2)
              then Some (anomalyScore, reasons)
              else Some (anomalyScore + 25,
                         reasons ++ [GeographicChange country1 country2])
        end in
      match check4 with
      | None => None
      | Some (anomalyScore, reasons) =>
          Some {| isSuspicious := anomalyScore >? 70;
                  anomalyScore := anomalyScore;
                  reasons := reasons |}
      end
  end.

(** Whether a run awaits the read, when the user exists and no earlier
    read fails: the two geolocations are awaited only for a last address
    that is not empty and differs from the address of the request. *)
Definition performed (w : World) (userId : string) (r : Read) : bool :=
  match r with
  | GeolocateLast | GeolocateRequest =>
      match getLastClientIP w userId with
      | Some lastIP =>
          negb (bool_decide (lastIP = EmptyString))
          && negb (bool_decide (lastIP = req_ip w))
      | None => false
      end
  | _ => true
  end.

(** The weight that a check adds when it fires. *)
Definition weight (fired : bool) (points : Z) : Z :=
  if fired then points else 0.

(** A world in which all four checks fire for a reward of 1000: a history
    of three rewards of ten points, an account one hour old, 21 actions in
    the last five minutes, and a previous request from another country. *)
Definition world_all_fired : World := {|
  getUserScoreHistory := fun _ _ => [10; 10; 10];
  User_findById := fun _ => Some {| createdAt := 0 |};
  getActionCount := fun _ _ => 21;
  getLastClientIP := fun _ => Some "10.0.0.1"%string;
  geolocate := fun ip => if bool_decide (ip = "10.0.0.1"%string)
                         then "US"%string else "SG"%string;
  Date_now := 3600000;
  req_ip := "10.0.0.2"%string;
  failing := None
|}.

(** The same database two days later. *)
Definition world_two_days_later : World := {|
  getUserScoreHistory := getUserScoreHistory world_all_fired;
  User_findById := User_findById world_all_fired;
  getActionCount := getActionCount world_all_fired;
  getLastClientIP := getLastClientIP world_all_fired;
  geolocate := geolocate world_all_fired;
  Date_now := 3600000 + 2 * 24 * 60 * 60 * 1000;
  req_ip := req_ip world_all_fired;
  failing := None
|}.

(** The same database, at the same time, when the count of the recent
    actions cannot be read. *)
Definition world_count_fails : World := {|
  getUserScoreHistory := getUserScoreHistory world_all_fired;
  User_findById := User_findById world_all_fired;
  getActionCount := getActionCount world_all_fired;
  getLastClientIP := getLastClientIP world_all_fired;
  geolocate := geolocate world_all_fired;
  Date_now := Date_now world_all_fired;
  req_ip := req_ip world_all_fired;
  failing := Some GetActionCount
|}.

(** A world that differs from [world_all_fired] in what is not read for
    [u1]: other users' histories and the country of an unrelated address. *)
Definition world_other_rows : World := {|
  getUserScoreHistory := fun u _ =>
    if bool_decide (u = "u1"%string) then [10; 10; 10] else [500];
  User_findById := User_findById world_all_fired;
  getActionCount := getActionCount world_all_fired;
  getLastClientIP := getLastClientIP world_all_fired;
  geolocate := fun ip =>
    if bool_decide (ip = "10.0.0.1"%string) then "US"%string
    else if bool_decide (ip = "8.8.8.8"%string) then "FR"%string else "SG"%string;
  Date_now := Date_now world_all_fired;
  req_ip := req_ip world_all_fired;
  failing := None
|}.

(** What the database holds about a user: the four reads that
    [detectAnomalies] makes of it. *)
Definition recentHistory (w : World) (userId : string)
  : list Z * option User * Z * option string :=
  (getUserScoreHistory w userId 10, User_findById w userId,
   getActionCount w userId 300, getLastClientIP w userId).

(** Two worlds agree on everything that [detectAnomalies] reads for a
    user: the database reads, the clock, the request's address and the
    geolocation of the two addresses involved, and on the read that
    fails, if any. *)
Definition same_reads (w1 w2 : World) (userId : string) : Prop :=
  failing w1 = failing w2 /\
  recentHistory w1 userId = recentHistory w2 userId /\
  Date_now w1 = Date_now w2 /\
  req_ip w1 = req_ip w2 /\
  geolocate w1 (req_ip w1) = geolocate w2 (req_ip w2) /\
  (forall lastIP, getLastClientIP w1 userId = Some lastIP ->
     geolocate w1 lastIP = geolocate w2 lastIP).

End Anomaly.

(** ** completeAction (action completion handler, implementation notes 1.2) *)

Module Scoreboard.

#[local] Open Scope string_scope.
#[local] Open Scope Z_scope.

(** *** The tables of ARCHITECTURE.md, section 6.1

    Only the columns that the handler reads or writes are kept, together
    with [cooldown_seconds] and [is_active] of [actions], which the schema
    declares and the handler never looks at. *)

Record Action := {
  scoreReward : Z;
  cooldown_seconds : Z;
  is_active : bool
}.

Record UserRow := {
  total_score : Z;
  created_at : Z;
  updated_at : Z
}.

Record Completion := {
  uac_id : string;
  uac_user_id : string;
  uac_action_id : string;
  score_earned : Z;
  completed_at : Z;
  client_ip : string
}.

Record AuditLog := {
  log_id : string;
  log_user_id : string;
  log_action_id : string;
  score_delta : Z;
  score_before : Z;
  score_after : Z;
  change_type : string;
  details_suspicious : bool;
  log_timestamp : Z
}.

Record Db := {
  actions : gmap string Action;
  users : gmap string UserRow;
  user_action_completions : list Completion;
  score_audit_logs : list AuditLog
}.

(** The values of an [INT] column, the type of [total_score],
    [score_reward], [score_earned], [score_delta], [score_before] and
    [score_after]: PostgreSQL refuses to store any other integer. *)
Definition INT (z : Z) : bool :=
  (-2147483648 <=? z) && (z <=? 2147483647).

(** A Redis value: the sorted set of the leaderboard, or a number stored
    with [SET key value EX ttl]. *)
Inductive RedisValue :=
| RSortedSet (members : list (string * Z))
| RNumber (value : Z) (ttl_seconds : Z).

(** The payload of a ["leaderboard:update"] broadcast. *)
Record Event := {
  ev_userId : string;
  ev_newScore : Z;
  ev_scoreAdded : Z;
  ev_timestamp : Z
}.

(** The state that the handler works on: the committed database, the
    working copy of the open transaction of its query runner (if any), the
    cache, and the broadcasts sent so far. *)
Record Sys := {
  committed : Db;
  tx : option Db;
  redis : gmap string RedisValue;
  emitted : list Event
}.

(** [req]: the user id that the JWT middleware attached, the JSON body
    (an object with string fields; the handler destructures [actionId]
    from it and ignores whatever else the client sent), and the address. *)
Record Request := {
  req_userId : string;
  req_body : gmap string string;
  req_ip : string
}.

(** What the handler answers with [res.status(..).json(..)]. *)
Inductive Response :=
| R200 (newScore scoreAdded : Z) (flaggedForReview : bool)
| R400_invalid_action
| R409_on_cooldown (nextAvailableAt : Z)
| R500_failed_to_update.

(** The awaited operations of the handler, each of which can fail.  The
    first four run before the [try] block. *)
Inductive Step :=
| FindAction
| FindLastCompletion
| Connect
| StartTransaction
| SelectUser
| UpdateUser
| InsertCompletion
| InsertAudit
| CommitTransaction
| RedisDel
| RedisSet
| IoEmit.

#[global] Instance Step_eq_dec : EqDecision Step.
Proof. solve_decision. Defined.

(** What one invocation gets from outside: the three clock readings
    ([Date.now()] of the cooldown check, the transaction's [NOW()], and the
    [new Date()] of the broadcast), the two generated UUIDs, and the
    operation that fails during this invocation, if one does. *)
Record Env := {
  Date_now : Z;
  NOW : Z;
  new_Date : Z;
  uuid_completion : string;
  uuid_audit : string;
  fault : option Step
}.

(** *** Computations that read and write [Sys] and can throw *)

Inductive Outcome (A : Type) :=
| Returned (a : A)
| Thrown.
Arguments Returned {A} a.
Arguments Thrown {A}.

Definition M (A : Type) : Type := Sys -> Outcome A * Sys.

Definition ret {A} (a : A) : M A := fun s => (Returned a, s).

Definition throw {A} : M A := fun s => (Thrown, s).

Definition bind {A B} (c : M A) (k : A -> M B) : M B :=
  fun s =>
    match c s with
    | (Returned a, s') => k a s'
    | (Thrown, s') => (Thrown, s')
    end.

Declare Scope handler_scope.
Delimit Scope handler_scope with handler.
Notation "'await' x <- c ; k" := (bind c (fun x => k))
  (at level 10, x name, c at level 100, k at level 200) : handler_scope.
Notation "'exec' c ; k" := (bind c (fun _ => k))
  (at level 10, c at level 100, k at level 200) : handler_scope.

(** [try { body } catch { handler } finally { fin }]. *)
Definition try_catch_finally {A} (body handler : M A) (fin : M unit) : M A :=
  fun s =>
    let '(o, s1) :=
      match body s with
      | (Returned a, s1) => (Returned a, s1)
      | (Thrown, s1) => handler s1
      end in
    match fin s1 with
    | (Returned _, s2) => (o, s2)
    | (Thrown, s2) => (Thrown, s2)
    end.

Definition get : M Sys := fun s => (Returned s, s).

Definition put (s : Sys) : M unit := fun _ => (Returned tt, s).

(** An awaited operation throws when it is the one that fails. *)
Definition attempt (e : Env) (st : Step) : M unit :=
  if bool_decide (fault e = Some st) then throw else ret tt.

(** *** The operations that the handler awaits *)

#[local] Open Scope handler_scope.

(** The database as a query of the query runner sees it: the working copy
    of the open transaction, or the committed rows when none is open. *)
Definition view (s : Sys) : Db :=
  match tx s with
  | Some d => d
  | None => committed s
  end.

Definition write (d : Db) (s : Sys) : Sys :=
  match tx s with
  | Some _ =>
      {| committed := committed s; tx := Some d;
         redis := redis s; emitted := emitted s |}
  | None =>
      {| committed := d; tx := None;
         redis := redis s; emitted := emitted s |}
  end.

(** [Action.findById(actionId)]; [null] for an unknown or missing id. *)
Definition Action_findById (e : Env) (actionId : option string)
  : M (option Action) :=
  exec attempt e FindAction;
  await s <- get;
  ret (match actionId with
       | Some a => actions (committed s) !! a
       | None => None
       end).

(** [where: { userId, actionId }]. *)
Definition matches (userId actionId : string) (c : Completion) : bool :=
  bool_decide (uac_user_id c = userId) && bool_decide (uac_action_id c = actionId).

(** One step of the scan for the most recent matching row. *)
Definition newer (userId actionId : string) (best : option Completion)
    (c : Completion) : option Completion :=
  if matches userId actionId c
  then match best with
       | Some b => if completed_at b <? completed_at c then Some c else Some b
       | None => Some c
       end
  else best.

(** The row that [ORDER BY completed_at DESC] puts first among the
    completions of [actionId] by [userId]. *)
Definition latest (cs : list Completion) (userId actionId : string)
  : option Completion :=
  fold_left (newer userId actionId) cs None.

(** [UserActionCompletion.findOne({ where: { userId, actionId },
    order: { completedAt: "DESC" } })]. *)
Definition UserActionCompletion_findOne (e : Env) (userId actionId : string)
  : M (option Completion) :=
  exec attempt e FindLastCompletion;
  await s <- get;
  ret (latest (user_action_completions (committed s)) userId actionId).

Definition queryRunner_connect (e : Env) : M unit :=
  attempt e Connect.

Definition queryRunner_startTransaction (e : Env) : M unit :=
  exec attempt e StartTransaction;
  await s <- get;
  put {| committed := committed s; tx := Some (committed s);
         redis := redis s; emitted := emitted s |}.

(** [SELECT * FROM users WHERE id = $1 FOR UPDATE]: the matching rows. *)
Definition select_user_for_update (e : Env) (userId : string)
  : M (list UserRow) :=
  exec attempt e SelectUser;
  await s <- get;
  ret (match users (view s) !! userId with
       | Some u => [u]
       | None => []
       end).

(** [UPDATE users SET total_score = $1, updated_at = NOW() WHERE id = $2]:
    refused when the score is out of the range of the column. *)
Definition update_user (e : Env) (newScore : Z) (userId : string) : M unit :=
  exec attempt e UpdateUser;
  await s <- get;
  let d := view s in
  if negb (INT newScore) then throw else
  put (write
         {| actions := actions d;
            users := alter (fun u => {| total_score := newScore;
                                        created_at := created_at u;
                                        updated_at := NOW e |})
                           userId (users d);
            user_action_completions := user_action_completions d;
            score_audit_logs := score_audit_logs d |}
         s).

(** [UNIQUE(user_id, action_id, completed_at)] of
    [user_action_completions]. *)
Definition duplicates (c : Completion) (cs : list Completion) : bool :=
  existsb (fun c' => bool_decide (uac_user_id c' = uac_user_id c)
                     && bool_decide (uac_action_id c' = uac_action_id c)
                     && (completed_at c' =? completed_at c)) cs.

(** [INSERT INTO user_action_completions ...]: refused when
    [score_earned] is out of range, when a foreign key has no target or
    when the row repeats an existing [(user_id, action_id, completed_at)]. *)
Definition insert_completion (e : Env) (c : Completion) : M unit :=
  exec attempt e InsertCompletion;
  await s <- get;
  let d := view s in
  if negb (INT (score_earned c)) then throw else
  match users d !! uac_user_id c, actions d !! uac_action_id c with
  | Some _, Some _ =>
      if duplicates c (user_action_completions d) then throw
      else
        put (write
               {| actions := actions d;
                  users := users d;
                  user_action_completions := user_action_completions d ++ [c];
                  score_audit_logs := score_audit_logs d |}
               s)
  | _, _ => throw
  end.

(** [INSERT INTO score_audit_logs ...]: refused when one of the three
    scores is out of range or when a foreign key has no target. *)
Definition insert_audit (e : Env) (l : AuditLog) : M unit :=
  exec attempt e InsertAudit;
  await s <- get;
  let d := view s in
  if negb (INT (score_delta l) && INT (score_before l) && INT (score_after l))
  then throw else
  match users d !! log_user_id l, actions d !! log_action_id l with
  | Some _, Some _ =>
      put (write
             {| actions := actions d;
                users := users d;
                user_action_completions := user_action_completions d;
                score_audit_logs := score_audit_logs d ++ [l] |}
             s)
  | _, _ => throw
  end.

(** The working copy becomes the committed database. *)
Definition queryRunner_commitTransaction (e : Env) : M unit :=
  exec attempt e CommitTransaction;
  await s <- get;
  match tx s with
  | Some d =>
      put {| committed := d; tx := None;
             redis := redis s; emitted := emitted s |}
  | None => throw
  end.

(** The working copy is dropped.  Without an open transaction, as after
    the commit, the query runner of TypeORM throws
    [TransactionNotStartedError], and the committed rows stay. *)
Definition queryRunner_rollbackTransaction : M unit :=
  await s <- get;
  match tx s with
  | Some _ =>
      put {| committed := committed s; tx := None;
             redis := redis s; emitted := emitted s |}
  | None => throw
  end.

Definition queryRunner_release : M unit := ret tt.

Definition redis_del (e : Env) (key : string) : M unit :=
  exec attempt e RedisDel;
  await s <- get;
  put {| committed := committed s; tx := tx s;
         redis := delete key (redis s); emitted := emitted s |}.

Definition redis_set (e : Env) (key : string) (value ttl : Z) : M unit :=
  exec attempt e RedisSet;
  await s <- get;
  put {| committed := committed s; tx := tx s;
         redis := <[key := RNumber value ttl]> (redis s);
         emitted := emitted s |}.

Definition io_emit (e : Env) (payload : Event) : M unit :=
  exec attempt e IoEmit;
  await s <- get;
  put {| committed := committed s; tx := tx s;
         redis := redis s; emitted := emitted s ++ [payload] |}.

(** *** The handler *)

Section Handler.

(** [isSuspiciousJump(userId, newScore, oldScore, action)] is called but
    not defined anywhere in the repository: any total function. *)
Variable isSuspiciousJump : string -> Z -> Z -> Action -> bool.

(** From [createQueryRunner()] to the end of the handler. *)
Definition apply_completion (e : Env) (req : Request) (actionId : string)
    (action : Action) : M Response :=
  let userId := req_userId req in
  exec queryRunner_connect e;
  exec queryRunner_startTransaction e;
  try_catch_finally
    (await user <- select_user_for_update e userId;
     match user with
     | [] => throw (* user[0] is undefined *)
     | user0 :: _ =>
         let oldScore := total_score user0 in
         let newScore := oldScore + scoreReward action in
         let isProbable := isSuspiciousJump userId newScore oldScore action in
         exec update_user e newScore userId;
         exec insert_completion e
           {| uac_id := uuid_completion e;
              uac_user_id := userId;
              uac_action_id := actionId;
              score_earned := scoreReward action;
              completed_at := NOW e;
              client_ip := req_ip req |};
         exec insert_audit e
           {| log_id := uuid_audit e;
              log_user_id := userId;
              log_action_id := actionId;
              score_delta := scoreReward action;
              score_before := oldScore;
              score_after := newScore;
              change_type := "action";
              details_suspicious := isProbable;
              log_timestamp := NOW e |};
         exec queryRunner_commitTransaction e;
         (* Update cache (non-critical, ok if it fails) *)
         exec redis_del e "leaderboard:top10";
         exec redis_set e ("user:" ++ userId ++ ":score") newScore 60;
         exec io_emit e
           {| ev_userId := userId;
              ev_newScore := newScore;
              ev_scoreAdded := scoreReward action;
              ev_timestamp := new_Date e |};
         ret (R200 newScore (scoreReward action) isProbable)
     end)
    (exec queryRunner_rollbackTransaction;
     ret R500_failed_to_update)
    queryRunner_release.

(** [completeAction(req, res)].  The outcome is the response that was
    sent; [Thrown] is a rejection of the handler's promise, with no
    response sent: an operation before the [try] block failed, or one
    after the commit did, and [rollbackTransaction()] threw in the [catch]
    block before [res.status(500)] was reached. *)
Definition completeAction (e : Env) (req : Request) : M Response :=
  let actionId := req_body req !! "actionId" in
  let userId := req_userId req in
  await action <- Action_findById e actionId;
  match actionId, action with
  | Some actionId, Some action =>
      await lastCompletion <- UserActionCompletion_findOne e userId actionId;
      match lastCompletion with
      | Some lc =>
          if Date_now e - completed_at lc <? 5000
          then ret (R409_on_cooldown (completed_at lc + 5000))
          else apply_completion e req actionId action
      | None => apply_completion e req actionId action
      end
  | _, _ => ret R400_invalid_action
  end.

(** *** What a run leaves behind

    The rows, cache entry and broadcast that the handler builds for a
    request, named so that statements can refer to them. *)

Definition new_completion (e : Env) (req : Request) (actionId : string)
    (action : Action) : Completion :=
  {| uac_id := uuid_completion e;
     uac_user_id := req_userId req;
     uac_action_id := actionId;
     score_earned := scoreReward action;
     completed_at := NOW e;
     client_ip := req_ip req |}.

Definition new_audit (e : Env) (req : Request) (actionId : string)
    (action : Action) (u : UserRow) : AuditLog :=
  {| log_id := uuid_audit e;
     log_user_id := req_userId req;
     log_action_id := actionId;
     score_delta := scoreReward action;
     score_before := total_score u;
     score_after := total_score u + scoreReward action;
     change_type := "action";
     details_suspicious :=
       isSuspiciousJump (req_userId req) (total_score u + scoreReward action)
         (total_score u) action;
     log_timestamp := NOW e |}.

(** The database once the transaction of a request is committed, [u]
    being the user's row as the transaction read it. *)
Definition db_after (e : Env) (req : Request) (actionId : string)
    (action : Action) (u : UserRow) (d : Db) : Db :=
  {| actions := actions d;
     users := alter (fun u0 => {| total_score := total_score u + scoreReward action;
                                  created_at := created_at u0;
                                  updated_at := NOW e |})
                    (req_userId req) (users d);
     user_action_completions :=
       user_action_completions d ++ [new_completion e req actionId action];
     score_audit_logs :=
       score_audit_logs d ++ [new_audit e req actionId action u] |}.

Definition redis_after (req : Request) (action : Action) (u : UserRow)
    (r : gmap string RedisValue) : gmap string RedisValue :=
  <["user:" ++ req_userId req ++ ":score" :=
      RNumber (total_score u + scoreReward action) 60]>
    (delete "leaderboard:top10" r).

Definition new_event (e : Env) (req : Request) (action : Action)
    (u : UserRow) : Event :=
  {| ev_userId := req_userId req;
     ev_newScore := total_score u + scoreReward action;
     ev_scoreAdded := scoreReward action;
     ev_timestamp := new_Date e |}.

Definition response_ok (req : Request) (action : Action) (u : UserRow)
  : Response :=
  R200 (total_score u + scoreReward action) (scoreReward action)
       (isSuspiciousJump (req_userId req) (total_score u + scoreReward action)
          (total_score u) action).

End Handler.

(** The cooldown gate as the handler evaluates it: the time at which the
    action becomes available again when the latest completion is less
    than 5000 ms old, [None] when the request may proceed. *)
Definition cooling (e : Env) (d : Db) (userId actionId : string) : option Z :=
  match latest (user_action_completions d) userId actionId with
  | Some lc =>
      if Date_now e - completed_at lc <? 5000
      then Some (completed_at lc + 5000)
      else None
  | None => None
  end.

(** The scores that the transaction of a request writes are in the range
    of their columns: the new score, the reward, and the score before. *)
Definition fits (u : UserRow) (action : Action) : bool :=
  INT (total_score u + scoreReward action)
  && INT (scoreReward action) && INT (total_score u).

(** The operations before the [try] block, those inside the transaction,
    and those after the commit. *)
Definition before_try (st : option Step) : bool :=
  match st with
  | Some FindAction | Some FindLastCompletion | Some Connect
  | Some StartTransaction => true
  | _ => false
  end.

Definition in_transaction (st : option Step) : bool :=
  match st with
  | Some SelectUser | Some UpdateUser | Some InsertCompletion
  | Some InsertAudit | Some CommitTransaction => true
  | _ => false
  end.

Definition after_commit (st : option Step) : bool :=
  match st with
  | Some RedisDel | Some RedisSet | Some IoEmit => true
  | _ => false
  end.

(** *** A small installation, for the scenarios

    One user [u1] with score 0 and three actions worth 50 points each
    whose configured cooldowns are 5, 60 and 0 seconds. *)

Definition db0 : Db := {|
  actions :=
    <["a1" := {| scoreReward := 50; cooldown_seconds := 5; is_active := true |}]>
    (<["a60" := {| scoreReward := 50; cooldown_seconds := 60; is_active := true |}]>
    (<["a0" := {| scoreReward := 50; cooldown_seconds := 0; is_active := true |}]>
     ∅));
  users := <["u1" := {| total_score := 0; created_at := 0; updated_at := 10 |}]> ∅;
  user_action_completions := [];
  score_audit_logs := []
|}.

Definition sys0 : Sys :=
  {| committed := db0; tx := None; redis := ∅; emitted := [] |}.

(** The same installation when the score of [u1] is 20 points below the
    largest value of its column. *)
Definition db_near_max : Db := {|
  actions := actions db0;
  users := <["u1" := {| total_score := 2147483627; created_at := 0;
                        updated_at := 10 |}]> ∅;
  user_action_completions := [];
  score_audit_logs := []
|}.

Definition sys_near_max : Sys :=
  {| committed := db_near_max; tx := None; redis := ∅; emitted := [] |}.

(** A request of [u1] for action [actionId], sent with an idempotency key
    as ARCHITECTURE.md 5.3 asks clients to. *)
Definition request (actionId requestId : string) : Request :=
  {| req_userId := "u1";
     req_body := <["actionId" := actionId]> (<["requestId" := requestId]> ∅);
     req_ip := "10.0.0.1" |}.

(** An invocation at time [t] (all three clock readings) in which
    [failing] fails. *)
Definition env_at (t : Z) (n : string) (failing : option Step) : Env :=
  {| Date_now := t; NOW := t; new_Date := t;
     uuid_completion := "completion-" ++ n; uuid_audit := "audit-" ++ n;
     fault := failing |}.


Definition never_suspicious (_ : string) (_ _ : Z) (_ : Action) : bool := false.

End Scoreboard.

(** ** completeAction under concurrent requests

    Several invocations of the handler run at once against one database.
    Each is taken from the point where its transaction has started, after
    it has passed the gate.  A scheduler picks which invocation runs its
    next awaited operation, and each invocation brings the operation that
    fails in it, if one does.

    The database is PostgreSQL at its default isolation level, of which
    the handler uses this much: [SELECT ... FOR UPDATE] waits until no
    other transaction holds the lock of the row, then takes the lock and
    returns the committed row; the writes of a transaction are seen by the
    others when it commits; commit and rollback release the lock. *)

Module Concurrent.
Import Scoreboard.

#[local] Open Scope string_scope.
#[local] Open Scope Z_scope.

(** One invocation: what it got from outside, the request, and the action
    that [Action.findById] returned for the request's [actionId]. *)
Record Submission := {
  sub_env : Env;
  sub_req : Request;
  sub_actionId : string;
  sub_action : Action
}.

Definition sub_user (sub : Submission) : string := req_userId (sub_req sub).

(** Where an invocation stands: the operation that it runs next, with the
    row [user[0]] that its locking read returned once it has one; the
    response that it has sent; or [Rejected], when an operation after the
    commit has failed and the rollback of the [catch] block has thrown, so
    that the promise of the handler is rejected and nothing is answered. *)
Inductive Pc :=
| AtSelect
| AtUpdate (user0 : UserRow)
| AtInsertCompletion (user0 : UserRow)
| AtInsertAudit (user0 : UserRow)
| AtCommit (user0 : UserRow)
| AtRedisDel (user0 : UserRow)
| AtRedisSet (user0 : UserRow)
| AtEmit (user0 : UserRow)
| Finished (response : Response)
| Rejected.

Record Thread := {
  th_sub : Submission;
  th_pc : Pc
}.

(** The committed database, the holder of each locked row of [users] (an
    index into [threads]), the cache, the broadcasts, and the
    invocations. *)
Record Shared := {
  c_db : Db;
  row_locks : gmap string nat;
  c_redis : gmap string RedisValue;
  c_emitted : list Event;
  threads : list Thread
}.

Definition goto (i : nat) (th : Thread) (pc : Pc) (ths : list Thread)
  : list Thread :=
  <[i := {| th_sub := th_sub th; th_pc := pc |}]> ths.

(** The invocation goes on to its next operation. *)
Definition proceed (i : nat) (th : Thread) (pc : Pc) (c : Shared) : Shared :=
  {| c_db := c_db c;
     row_locks := row_locks c;
     c_redis := c_redis c;
     c_emitted := c_emitted c;
     threads := goto i th pc (threads c) |}.

(** The [catch] block of an invocation that holds the lock of its user's
    row: the rollback drops the writes of the transaction and releases
    the lock, and the answer is 500. *)
Definition abort (i : nat) (th : Thread) (c : Shared) : Shared :=
  {| c_db := c_db c;
     row_locks := delete (sub_user (th_sub th)) (row_locks c);
     c_redis := c_redis c;
     c_emitted := c_emitted c;
     threads := goto i th (Finished R500_failed_to_update) (threads c) |}.

Section Steps.

Variable isSuspiciousJump : string -> Z -> Z -> Action -> bool.

(** Invocation [i] runs its next operation; [None] when it has to wait for
    a row lock or has come to its end. *)
Definition step (i : nat) (c : Shared) : option Shared :=
  match threads c !! i with
  | None => None
  | Some th =>
      let sub := th_sub th in
      let e := sub_env sub in
      let req := sub_req sub in
      let userId := sub_user sub in
      let actionId := sub_actionId sub in
      let action := sub_action sub in
      match th_pc th with
      | AtSelect =>
          (* SELECT * FROM users WHERE id = $1 FOR UPDATE *)
          if bool_decide (fault e = Some SelectUser)
          then
            (* the read fails, no lock is taken: catch, rollback, 500 *)
            Some (proceed i th (Finished R500_failed_to_update) c)
          else
            match row_locks c !! userId with
            | Some _ => None
            | None =>
                match users (c_db c) !! userId with
                | Some user0 =>
                    Some {| c_db := c_db c;
                            row_locks := <[userId := i]> (row_locks c);
                            c_redis := c_redis c;
                            c_emitted := c_emitted c;
                            threads :=
                              goto i th (AtUpdate user0) (threads c) |}
                | None =>
                    (* user[0] is undefined: catch, rollback, 500 *)
                    Some (proceed i th (Finished R500_failed_to_update) c)
                end
            end
      | AtUpdate user0 =>
          (* UPDATE users SET total_score = $1, updated_at = NOW() ...:
             written to the locked row, seen by the others at commit *)
          if bool_decide (fault e = Some UpdateUser)
             || negb (INT (total_score user0 + scoreReward action))
          then Some (abort i th c)
          else Some (proceed i th (AtInsertCompletion user0) c)
      | AtInsertCompletion user0 =>
          (* INSERT INTO user_action_completions ... *)
          if bool_decide (fault e = Some InsertCompletion)
             || negb (INT (scoreReward action))
          then Some (abort i th c)
          else
            match users (c_db c) !! userId, actions (c_db c) !! actionId with
            | Some _, Some _ =>
                if duplicates (new_completion e req actionId action)
                     (user_action_completions (c_db c))
                then Some (abort i th c)
                else Some (proceed i th (AtInsertAudit user0) c)
            | _, _ => Some (abort i th c)
            end
      | AtInsertAudit user0 =>
          (* INSERT INTO score_audit_logs ... *)
          if bool_decide (fault e = Some InsertAudit)
             || negb (INT (scoreReward action) && INT (total_score user0)
                      && INT (total_score user0 + scoreReward action))
          then Some (abort i th c)
          else
            match users (c_db c) !! userId, actions (c_db c) !! actionId with
            | Some _, Some _ => Some (proceed i th (AtCommit user0) c)
            | _, _ => Some (abort i th c)
            end
      | AtCommit user0 =>
          if bool_decide (fault e = Some CommitTransaction)
          then Some (abort i th c)
          else
            (* commitTransaction: the three writes reach the committed
               database and the row lock is released *)
            Some {| c_db := db_after isSuspiciousJump e req actionId action
                              user0 (c_db c);
                    row_locks := delete userId (row_locks c);
                    c_redis := c_redis c;
                    c_emitted := c_emitted c;
                    threads := goto i th (AtRedisDel user0) (threads c) |}
      | AtRedisDel user0 =>
          if bool_decide (fault e = Some RedisDel)
          then Some (proceed i th Rejected c)
          else
            Some {| c_db := c_db c;
                    row_locks := row_locks c;
                    c_redis := delete "leaderboard:top10" (c_redis c);
                    c_emitted := c_emitted c;
                    threads := goto i th (AtRedisSet user0) (threads c) |}
      | AtRedisSet user0 =>
          if bool_decide (fault e = Some RedisSet)
          then Some (proceed i th Rejected c)
          else
            Some {| c_db := c_db c;
                    row_locks := row_locks c;
                    c_redis :=
                      <["user:" ++ userId ++ ":score" :=
                          RNumber (total_score user0 + scoreReward action) 60]>
                        (c_redis c);
                    c_emitted := c_emitted c;
                    threads := goto i th (AtEmit user0) (threads c) |}
      | AtEmit user0 =>
          if bool_decide (fault e = Some IoEmit)
          then Some (proceed i th Rejected c)
          else
            Some {| c_db := c_db c;
                    row_locks := row_locks c;
                    c_redis := c_redis c;
                    c_emitted := c_emitted c ++ [new_event e req action user0];
                    threads :=
                      goto i th
                        (Finished (response_ok isSuspiciousJump req action user0))
                        (threads c) |}
      | Finished _ | Rejected => None
      end
  end.

(** An interleaving is the list of the scheduler's picks; a pick of an
    invocation that cannot move leaves the state as it is. *)
Definition run (schedule : list nat) (c : Shared) : Shared :=
  fold_left (fun c i => default c (step i c)) schedule c.

End Steps.

(** All submissions at the start of their transactions, over a database
    on which nothing is locked. *)
Definition start (subs : list Submission) (d : Db)
    (r : gmap string RedisValue) (em : list Event) : Shared :=
  {| c_db := d; row_locks := ∅; c_redis := r; c_emitted := em;
     threads := map (fun sub => {| th_sub := sub; th_pc := AtSelect |}) subs |}.

Definition finished (pc : Pc) : bool :=
  match pc with
  | Finished _ | Rejected => true
  | _ => false
  end.

Definition all_finished (c : Shared) : bool :=
  forallb (fun th => finished (th_pc th)) (threads c).

(** A submission is valid for a database when its action is registered,
    its user exists, it passes the cooldown gate with a clock that does
    not run backwards, and it gets as far as its transaction: none of the
    operations before the [try] block is the one that fails. *)
Definition valid (d : Db) (sub : Submission) : Prop :=
  req_body (sub_req sub) !! "actionId" = Some (sub_actionId sub) /\
  actions d !! sub_actionId sub = Some (sub_action sub) /\
  is_Some (users d !! sub_user sub) /\
  cooling (sub_env sub) d (sub_user sub) (sub_actionId sub) = None /\
  Date_now (sub_env sub) <= NOW (sub_env sub) /\
  before_try (fault (sub_env sub)) = false.

(** Submissions are distinct when no two of the same user are for the
    same action. *)
Definition distinct (subs : list Submission) : Prop :=
  forall (i j : nat) (si sj : Submission),
    subs !! i = Some si -> subs !! j = Some sj -> i <> j ->
    sub_user si = sub_user sj -> sub_actionId si <> sub_actionId sj.

(** The sum of the rewards of the submissions of a user. *)
Definition rewards_of (userId : string) (subs : list Submission) : Z :=
  fold_right Z.add 0
    (map (fun sub => if bool_decide (sub_user sub = userId)
                     then scoreReward (sub_action sub) else 0) subs).

(** Two submissions of [u1], for the actions [a1] and [a60], whose
    transactions start at times 1000 and 1001. *)
Definition submission (actionId n : string) (t : Z) : Submission :=
  {| sub_env := env_at t n None;
     sub_req := request actionId n;
     sub_actionId := actionId;
     sub_action := {| scoreReward := 50; cooldown_seconds :=
                        if bool_decide (actionId = "a1") then 5 else 60;
                      is_active := true |} |}.

Definition two_submissions : list Submission :=
  [submission "a1" "1" 1000; submission "a60" "2" 1001].

(** The second invocation asks for the row lock while the first holds it
    and has to wait; the first commits; then both run to their end. *)
Definition interleaved : list nat :=
  [0; 1; 0; 1; 0; 1; 0; 1; 0; 1; 0; 1; 0; 1; 0; 1; 1; 1; 1; 1; 1; 1]%nat.

(** Two submissions of [u1] worth [2^30] points each, and a third, for
    [a0], whose insertion of the audit row fails. *)
Definition big_submission (actionId n : string) (t : Z)
    (failing : option Step) : Submission :=
  {| sub_env := env_at t n failing;
     sub_req := request actionId n;
     sub_actionId := actionId;
     sub_action := {| scoreReward := 1073741824; cooldown_seconds := 0;
                      is_active := true |} |}.

Definition db_big : Db := {|
  actions :=
    <["a1" := sub_action (big_submission "a1" "1" 0 None)]>
    (<["a60" := sub_action (big_submission "a60" "2" 0 None)]>
    (<["a0" := sub_action (big_submission "a0" "3" 0 None)]> ∅));
  users := users db0;
  user_action_completions := [];
  score_audit_logs := []
|}.

Definition big_submissions : list Submission :=
  [big_submission "a1" "1" 1000 None; big_submission "a60" "2" 1001 None].

Definition three_submissions : list Submission :=
  [submission "a1" "1" 1000; submission "a60" "2" 1001;
   {| sub_env := env_at 1002 "3" (Some InsertAudit);
      sub_req := request "a0" "3";
      sub_actionId := "a0";
      sub_action := {| scoreReward := 50; cooldown_seconds := 0;
                       is_active := true |} |}].

(** One invocation after the other. *)
Definition one_by_one : list nat :=
  [0; 0; 0; 0; 0; 0; 0; 0; 1; 1; 1; 1; 1; 1; 1; 1;
   2; 2; 2; 2; 2; 2; 2; 2]%nat.

(** *** The invariant of the interleavings

    An invocation is waiting for the row lock, holds it (with the row it
    read), has committed (its reward is in the score), or has failed
    before its commit. *)
Inductive Phase :=
| Waiting
| Holding (user0 : UserRow)
| Credited
| Failed.

Definition phase (pc : Pc) : Phase :=
  match pc with
  | AtSelect => Waiting
  | AtUpdate user0 | AtInsertCompletion user0 | AtInsertAudit user0
  | AtCommit user0 => Holding user0
  | AtRedisDel _ | AtRedisSet _ | AtEmit _ => Credited
  | Finished (R200 _ _ _) => Credited
  | Rejected => Credited
  | Finished _ => Failed
  end.

(** The invocations as the invariant sees them. *)
Definition abstract (ths : list Thread) : list (Submission * Phase) :=
  (fun th => (th_sub th, phase (th_pc th))) <$> ths.

Definition sumZ (l : list Z) : Z := fold_right Z.add 0 l.

(** What an invocation has added to the committed score of [userId]. *)
Definition credit (userId : string) (p : Submission * Phase) : Z :=
  if bool_decide (sub_user p.1 = userId)
  then match p.2 with
       | Credited => scoreReward (sub_action p.1)
       | _ => 0
       end
  else 0.

Definition credited (userId : string) (v : list (Submission * Phase)) : Z :=
  sumZ (credit userId <$> v).

Definition score_of (d : Db) (userId : string) : Z :=
  from_option total_score 0 (users d !! userId).

Definition completion_of (sub : Submission) : Completion :=
  new_completion (sub_env sub) (sub_req sub) (sub_actionId sub)
    (sub_action sub).

(** The submissions whose transaction is committed. *)
Definition has_committed (th : Thread) : bool :=
  match phase (th_pc th) with
  | Credited => true
  | _ => false
  end.

Definition committed_subs (c : Shared) : list Submission :=
  th_sub <$> List.filter has_committed (threads c).

(** The completion row of a user that was appended last. *)
Definition last_of (userId : string) (cs : list Completion)
  : option Completion :=
  last (List.filter (fun x => bool_decide (uac_user_id x = userId)) cs).

(** The invariant, for submissions [subs] started over database [d0]:
    a locked row is locked by an invocation of that user that holds it; an
    invocation that holds a lock is the holder of its user's row, and that
    row is still as it read it; the score of every user is the initial
    score plus the rewards of the committed invocations; the completion
    rows are the initial ones followed by those of committed invocations,
    in the order of the commits; and the [updated_at] of a user is the
    time of the row's last completion, if it has one. *)
Record InvOn (subs : list Submission) (d0 d : Db) (locks : gmap string nat)
    (v : list (Submission * Phase)) : Prop := {
  inv_static : v.*1 = subs;
  inv_lock_holder :
    forall u i, locks !! u = Some i ->
      exists sub user0, v !! i = Some (sub, Holding user0) /\ sub_user sub = u;
  inv_holder_lock :
    forall i sub user0, v !! i = Some (sub, Holding user0) ->
      locks !! sub_user sub = Some i /\ users d !! sub_user sub = Some user0;
  inv_score :
    forall u, score_of d u = score_of d0 u + credited u v;
  inv_actions : actions d = actions d0;
  inv_users :
    forall u, is_Some (users d !! u) <-> is_Some (users d0 !! u);
  inv_completions :
    forall x, x ∈ user_action_completions d ->
      x ∈ user_action_completions d0 \/
      exists j sub, v !! j = Some (sub, Credited) /\ x = completion_of sub;
  inv_log :
    exists news,
      user_action_completions d
      = (user_action_completions d0 ++ news)%list /\
      forall u,
        match last_of u news with
        | Some x =>
            (exists j sub, v !! j = Some (sub, Credited) /\
                           sub_user sub = u /\ x = completion_of sub) /\
            updated_at <$> users d !! u = Some (completed_at x)
        | None => users d !! u = users d0 !! u
        end
}.

Definition Inv (subs : list Submission) (d0 : Db) (c : Shared) : Prop :=
  InvOn subs d0 (c_db c) (row_locks c) (abstract (threads c)).

(** The number of operations that an invocation still has to run. *)
Definition steps_left (pc : Pc) : Z :=
  match pc with
  | AtSelect => 8
  | AtUpdate _ => 7
  | AtInsertCompletion _ => 6
  | AtInsertAudit _ => 5
  | AtCommit _ => 4
  | AtRedisDel _ => 3
  | AtRedisSet _ => 2
  | AtEmit _ => 1
  | Finished _ | Rejected => 0
  end.

Definition remaining (c : Shared) : Z :=
  sumZ ((fun th => steps_left (th_pc th)) <$> threads c).

(** How far the rewards of the submissions of a user can move the score,
    in either direction and whichever of them are committed; and the
    condition that this leaves every score within the range of its
    column. *)
Definition spread (userId : string) (subs : list Submission) : Z :=
  fold_right Z.add 0
    (map (fun sub => if bool_decide (sub_user sub = userId)
                     then Z.abs (scoreReward (sub_action sub)) else 0) subs).

Definition roomy (d0 : Db) (subs : list Submission) : Prop :=
  forall u row0, users d0 !! u = Some row0 ->
    INT (total_score row0 - spread u subs) = true /\
    INT (total_score row0 + spread u subs) = true.

(** An invocation that has neither failed nor been rejected. *)
Definition unharmed (th : Thread) : Prop :=
  th_pc th <> Rejected /\ phase (th_pc th) <> Failed.

End Concurrent.

(** ** updateResource (problem5, resource controller) *)

Module Resources.

(** The entity of models/resource.ts: a generated primary key, a name,
    and a nullable description. *)
Record Resource := {
  id : Z;
  name : string;
  description : option string
}.

(** A field of the JSON body as the handler destructures it: absent
    ([undefined]), [null], or a string, the type that the entity declares
    for both columns.  The body itself is an object, as the JSON body
    parser of app.ts leaves it. *)
Inductive Field :=
| Undefined
| Null
| Str (s : string).

Inductive Response :=
| R200 (resource : Resource)
| R404_not_found
| R500_update_failed.

(** The two awaited calls, each of which can throw. *)
Inductive Step :=
| FindOneBy
| Save.

#[global] Instance ResourceStep_eq_dec : EqDecision Step.
Proof. solve_decision. Defined.

(** [Number(req.params.id)]: an integer, a finite number that is not an
    integer, or one of [NaN], [Infinity] and [-Infinity]. *)
Inductive Key :=
| Integer (k : Z)
| Fraction
| NotFinite.

(** What the awaited [findOneBy] gives: the entity of a row, [null], or
    a rejection. *)
Inductive Lookup :=
| Row (resource : Resource)
| NoRow
| QueryFailed.

(** [Resource.findOneBy({ id: Number(id) })] over the rows of the table.
    No row matches a number that is not an integer; with [NaN] or an
    infinity the query fails, and the awaited call rejects. *)
Definition findOneBy (key : Key) (table : list Resource) : Lookup :=
  match key with
  | Integer k =>
      match find (fun r => id r =? k) table with
      | Some resource => Row resource
      | None => NoRow
      end
  | Fraction => NoRow
  | NotFinite => QueryFailed
  end.

(** [resource.save()] of an entity that has an id: the row with that
    primary key is overwritten. *)
Definition save (resource : Resource) (table : list Resource)
  : list Resource :=
  map (fun r => if id r =? id resource then resource else r) table.

(** [name ?? resource.name] *)
Definition coalesce_name (name : Field) (current : string) : string :=
  match name with
  | Str s => s
  | Undefined | Null => current
  end.

(** [description ?? resource.description] *)
Definition coalesce_description (description : Field)
    (current : option string) : option string :=
  match description with
  | Str s => Some s
  | Undefined | Null => current
  end.

(** [updateResource(req, res)]: the table afterwards and the response.
    [failing] is the awaited call that throws in this run, if any; both
    are inside the [try] block, whose [catch] answers 500. *)
Definition updateResource (failing : option Step) (key : Key)
    (name description : Field) (table : list Resource)
  : list Resource * Response :=
  if bool_decide (failing = Some FindOneBy) then (table, R500_update_failed)
  else
    match findOneBy key table with
    | QueryFailed => (table, R500_update_failed)
    | NoRow => (table, R404_not_found)
    | Row resource =>
        let resource :=
          {| id := id resource;
             name := coalesce_name name (Resources.name resource);
             description :=
               coalesce_description description
                 (Resources.description resource) |} in
        if bool_decide (failing = Some Save) then (table, R500_update_failed)
        else (save resource table, R200 resource)
    end.

(** Whether a body field is [undefined] or [null]. *)
Definition nullish (f : Field) : bool :=
  match f with
  | Undefined | Null => true
  | Str _ => false
  end.

(** Two rows, for the scenarios. *)
Definition two_resources : list Resource :=
  [ {| id := 1; name := "alpha"; description := Some "first" |};
    {| id := 2; name := "beta"; description := None |} ]%string.

End Resources.

(** ** detectAnomalies: a first submission *)

Module AnomalyWorlds.
Import Anomaly.

(** A new user: no history, no recorded address, an account created a
    minute ago, and 50 actions counted in the last five minutes. *)
Definition world_first_submission : World := {|
  getUserScoreHistory := fun _ _ => [];
  User_findById := fun _ => Some {| createdAt := 0 |};
  getActionCount := fun _ _ => 50;
  getLastClientIP := fun _ => None;
  geolocate := fun _ => "US"%string;
  Date_now := 60000;
  req_ip := "10.0.0.2"%string;
  failing := None
|}.

End AnomalyWorlds.

(** ** validateJWT (JWT middleware, implementation notes 1.1) *)

Module Auth.

#[local] Open Scope string_scope.

(** [s.split(sep)] for a separator of one character: the pieces of [s]
    between the occurrences of [sep], empty pieces included. *)
Fixpoint split (sep : Ascii.ascii) (s : string) : list string :=
  match s with
  | EmptyString => [EmptyString]
  | String c s' =>
      if Ascii.eqb c sep then EmptyString :: split sep s'
      else
        match split sep s' with
        | piece :: pieces => String c piece :: pieces
        | [] => [String c EmptyString]
        end
  end.

(** Whether [c] occurs in [s]. *)
Fixpoint occurs (c : Ascii.ascii) (s : string) : bool :=
  match s with
  | EmptyString => false
  | String c' s' => Ascii.eqb c' c || occurs c s'
  end.

(** The decoded payload, of which the middleware reads [userId]. *)
Record Decoded := { userId : option string }.

(** What the middleware does with the request: it calls [next()] after
    setting [req.userId], or it answers 401. *)
Inductive Outcome :=
| Next (req_userId : option string)
| R401_missing_token
| R401_invalid_token.

Section Middleware.

(** [jwt.verify(token, process.env.JWT_SECRET, { algorithms: ["HS256"] })]
    of the jsonwebtoken library: the decoded payload, or [None] when it
    throws. *)
Variable jwt_verify : string -> option Decoded.

(** [validateJWT(req, res, next)], on [req.headers.authorization]. *)
Definition validateJWT (authorization : option string) : Outcome :=
  let token :=
    match authorization with
    | Some header => split Ascii.Space header !! 1%nat
    | None => None
    end in
  match token with
  | None => R401_missing_token
  | Some EmptyString => R401_missing_token
  | Some token =>
      match jwt_verify token with
      | Some decoded => Next (userId decoded)
      | None => R401_invalid_token
      end
  end.

End Middleware.

(** A verifier that knows one token. *)
Definition verify_one (token : string) : option Decoded :=
  if bool_decide (token = "t0k3n") then Some {| userId := Some "user-123" |}
  else None.

End Auth.

(** ** rateLimitMiddleware (rate limiting, implementation notes 1.3) *)

Module RateLimit.

#[local] Open Scope string_scope.
#[local] Open Scope Z_scope.

(** A Redis counter: its value and the time at which it expires, if it
    has a TTL. *)
Record Counter := {
  count : Z;
  expires_at : option Z
}.

(** Redis forgets a key once its expiry time is reached. *)
Definition alive (t : Z) (c : Counter) : bool :=
  match expires_at c with
  | Some x => t <? x
  | None => true
  end.

Definition lookup_alive (t : Z) (r : gmap string Counter) (key : string)
  : option Counter :=
  match r !! key with
  | Some c => if alive t c then Some c else None
  | None => None
  end.

(** [INCR key]: a missing key counts from zero and gets no TTL; the TTL
    of an existing key is kept. *)
Definition redis_incr (t : Z) (key : string) (r : gmap string Counter)
  : Z * gmap string Counter :=
  match lookup_alive t r key with
  | Some c =>
      (count c + 1,
       <[key := {| count := count c + 1; expires_at := expires_at c |}]> r)
  | None => (1, <[key := {| count := 1; expires_at := None |}]> r)
  end.

(** [EXPIRE key seconds] *)
Definition redis_expire (t : Z) (key : string) (seconds : Z)
    (r : gmap string Counter) : gmap string Counter :=
  match lookup_alive t r key with
  | Some c =>
      <[key := {| count := count c;
                  expires_at := Some (t + seconds * 1000) |}]> r
  | None => r
  end.

(** The two Redis calls, each of which can throw. *)
Inductive Step :=
| Incr
| Expire.

#[global] Instance RateStep_eq_dec : EqDecision Step.
Proof. solve_decision. Defined.

(** The time of the invocation and the call that fails in it, if any. *)
Record Env := {
  now : Z;
  fault : option Step
}.

(** [next()] with the [X-RateLimit-Remaining] header if it was set, or
    the 429 answer with its [retryAfter]. *)
Inductive Outcome :=
| Next (remaining : option Z)
| R429 (retryAfter : Z).

(** [rateLimitMiddleware(req, res, next)] for [req.userId]: the store
    afterwards and what the middleware did.  The [catch] block calls
    [next()]. *)
Definition rateLimitMiddleware (e : Env) (userId : string)
    (r : gmap string Counter) : gmap string Counter * Outcome :=
  let key := "ratelimit:" ++ userId in
  if bool_decide (fault e = Some Incr) then (r, Next None)
  else
    let '(count, r) := redis_incr (now e) key r in
    let limit := 10 in
    if count =? 1 then
      (* Set TTL only on first request in window *)
      if bool_decide (fault e = Some Expire) then (r, Next None)
      else
        let r := redis_expire (now e) key 60 r in
        if count >? limit then (r, R429 60)
        else (r, Next (Some (limit - count)))
    else
      if count >? limit then (r, R429 60)
      else (r, Next (Some (limit - count))).

(** The requests of one user at the times [ts], one after the other, with
    no failure: what the middleware did with each. *)
Fixpoint serve (ts : list Z) (userId : string) (r : gmap string Counter)
  : list Outcome :=
  match ts with
  | [] => []
  | t :: ts' =>
      let '(r', o) :=
        rateLimitMiddleware {| now := t; fault := None |} userId r in
      o :: serve ts' userId r'
  end.

(** What the [k]-th request (counting from zero) of a window gets. *)
Definition kth_in_window (k : nat) : Outcome :=
  if (k <? 10)%nat then Next (Some (9 - Z.of_nat k)) else R429 60.

End RateLimit.

(** ** checkReplay (replay detection, implementation notes 2.3) *)

Module Replay.

#[local] Open Scope Z_scope.

(** An entry of [getUserLatestActions(userId, 100)]. *)
Record LatestAction := {
  la_id : string;
  la_completedAt : Z
}.

(** The properties that the object literal [{}] inherits from
    [Object.prototype]: read through [counts[key]], they are functions,
    or the prototype itself for [__proto__]. *)
Definition inherited (key : string) : bool :=
  bool_decide
    (key ∈ [ "constructor"; "__defineGetter__"; "__defineSetter__";
             "hasOwnProperty"; "__lookupGetter__"; "__lookupSetter__";
             "isPrototypeOf"; "propertyIsEnumerable"; "toString";
             "valueOf"; "__proto__"; "toLocaleString" ]%string).

(** A value of [counts]: a number, or the string that [+ 1] makes of a
    function, of an object or of a string. *)
Inductive Count :=
| Num (n : Z)
| Text.

(** [counts[action.id] = (counts[action.id] || 0) + 1].  An own property
    is a number, truthy from 1 on, or a string; without an own property
    the read finds [undefined], or what [{}] inherits, which is truthy.
    An assignment of a string to [__proto__] is ignored. *)
Definition tally (counts : gmap string Count) (action : LatestAction)
  : gmap string Count :=
  let key := la_id action in
  match counts !! key with
  | Some (Num n) => <[key := Num (n + 1)]> counts
  | Some Text => <[key := Text]> counts
  | None =>
      if inherited key then
        if bool_decide (key = "__proto__"%string) then counts
        else <[key := Text]> counts
      else <[key := Num (0 + 1)]> counts
  end.

(** [recent.forEach(...)] over [counts = {}]. *)
Definition count_ids (recent : list LatestAction) : gmap string Count :=
  fold_left tally recent ∅.

(** [count > 10]: a string that is not a numeral converts to [NaN],
    which no comparison holds of. *)
Definition more_than_10 (count : Count) : bool :=
  match count with
  | Num n => n >? 10
  | Text => false
  end.

Section CheckReplay.

(** [getUserLatestActions] is not defined in the repository.  What is
    awaited resolves to the list of the latest actions, or rejects
    ([None]). *)
Variable getUserLatestActions : string -> Z -> option (list LatestAction).

(** [checkReplay(userId, actionId)], with [async] added to its
    declaration.  As the README writes it, [function checkReplay] awaits
    without being declared [async], which is a syntax error: the block
    as written does not run at all.  What is embedded is the body as the
    [await] of its first line and the [await checkReplay(...)] of the
    caller mean it: the result is what the promise resolves to, and
    [None] when the awaited read rejects, which rejects the promise.
    [Object.values(counts)] are the own properties of [counts]. *)
Definition checkReplay (userId actionId : string) : option bool :=
  match getUserLatestActions userId 100 with
  | Some recent =>
      let counts := count_ids recent in
      Some (existsb more_than_10 (snd <$> map_to_list counts))
  | None => None
  end.

End CheckReplay.

(** How often an action id occurs in a list of actions. *)
Definition occurrences (id : string) (recent : list LatestAction) : Z :=
  Z.of_nat (length (filter (fun a => la_id a = id) recent)).

(** What [counts] holds for a key that occurs [n] times, once the loop
    is over. *)
Definition counted (id : string) (n : Z) : option Count :=
  if n =? 0 then None
  else if inherited id then
         if bool_decide (id = "__proto__"%string) then None else Some Text
       else Some (Num n).

(** Eleven completions of one action, a day apart from each other. *)
Definition eleven_spread_out : list LatestAction :=
  map (fun k => {| la_id := "a1"%string;
                   la_completedAt := Z.of_nat k * 86400000 |}) (seq 0 11).

(** Eleven completions, within a second, of an action whose id is the
    name of an inherited property. *)
Definition eleven_inherited : list LatestAction :=
  map (fun k => {| la_id := "constructor"%string;
                   la_completedAt := Z.of_nat k |}) (seq 0 11).

End Replay.

(** ** completeAction: request sequences, and what the flag touches *)

Module Ledger.
Import Scoreboard.

#[local] Open Scope Z_scope.

(** The requests of a list, each with what it gets from outside, handled
    one after the other. *)
Definition submit_all (isSuspiciousJump : string -> Z -> Z -> Action -> bool)
    (requests : list (Env * Request)) (s : Sys) : Sys :=
  fold_left (fun s er => snd (completeAction isSuspiciousJump er.1 er.2 s))
    requests s.

(** The points that the completion rows record for a user. *)
Definition earned (userId : string) (cs : list Completion) : Z :=
  fold_right Z.add 0
    (map (fun c => if bool_decide (uac_user_id c = userId)
                   then score_earned c else 0) cs).

(** The stored score of a user, 0 for a user without a row. *)
Definition stored_score (d : Db) (userId : string) : Z :=
  from_option total_score 0 (users d !! userId).

(** A run with the verdicts of the scorer blanked out: the flag of a 200
    answer and the [details] of the audit rows. *)
Definition unflag_audit (l : AuditLog) : AuditLog :=
  {| log_id := log_id l;
     log_user_id := log_user_id l;
     log_action_id := log_action_id l;
     score_delta := score_delta l;
     score_before := score_before l;
     score_after := score_after l;
     change_type := change_type l;
     details_suspicious := false;
     log_timestamp := log_timestamp l |}.

Definition unflag_db (d : Db) : Db :=
  {| actions := actions d;
     users := users d;
     user_action_completions := user_action_completions d;
     score_audit_logs := map unflag_audit (score_audit_logs d) |}.

Definition unflag (run : Outcome Response * Sys) : Outcome Response * Sys :=
  (match run.1 with
   | Returned (R200 newScore scoreAdded _) =>
       Returned (R200 newScore scoreAdded false)
   | o => o
   end,
   {| committed := unflag_db (committed run.2);
      tx := unflag_db <$> tx run.2;
      redis := redis run.2;
      emitted := emitted run.2 |}).

Definition always_suspicious (_ : string) (_ _ : Z) (_ : Action) : bool := true.

End Ledger.

(** ** The resource controller and its routes (problem5) *)

Module Crud.
Import Resources.

(** What the handlers of the controller answer, [updateResource] apart. *)
Inductive Reply :=
| Created (resource : Resource)
| Listed (resources : list Resource)
| Found (resource : Resource)
| Deleted
| NotFound
| Failed.

(** [description] as the entity holds it after [Resource.create]. *)
Definition description_of (description : Field) : option string :=
  match description with
  | Str s => Some s
  | Undefined | Null => None
  end.

(** [createResource]: [Resource.create({ name, description })] and
    [save()].  [generated] is the id that the database generates for the
    row; the insert is refused when [name], a column that is not
    nullable, is missing, and when the primary key is taken. *)
Definition createResource (failing : bool) (generated : Z)
    (name description : Field) (table : list Resource)
  : list Resource * Reply :=
  if failing then (table, Failed)
  else
    match name with
    | Str n =>
        if existsb (fun r => id r =? generated) table then (table, Failed)
        else
          let resource :=
            {| id := generated; name := n;
               description := description_of description |} in
          (table ++ [resource], Created resource)
    | Undefined | Null => (table, Failed)
    end.

(** [listResources]: [where: name ? { name: String(name) } : {}].  An
    empty [name] is falsy. *)
Definition listResources (failing : bool) (name : option string)
    (table : list Resource) : Reply :=
  if failing then Failed
  else
    match name with
    | Some n =>
        if bool_decide (n = EmptyString) then Listed table
        else Listed (List.filter (fun r => bool_decide (Resources.name r = n))
                       table)
    | None => Listed table
    end.

(** [getResource] *)
Definition getResource (failing : bool) (key : Key)
    (table : list Resource) : Reply :=
  if failing then Failed
  else
    match findOneBy key table with
    | Row resource => Found resource
    | NoRow => NotFound
    | QueryFailed => Failed
    end.

(** [resource.remove()]: the row with the entity's primary key goes. *)
Definition remove (resource : Resource) (table : list Resource)
  : list Resource :=
  List.filter (fun r => negb (id r =? id resource)) table.

(** The two awaited calls of [deleteResource]. *)
Inductive DeleteStep :=
| DeleteFind
| DeleteRemove.

#[global] Instance DeleteStep_eq_dec : EqDecision DeleteStep.
Proof. solve_decision. Defined.

(** [deleteResource] *)
Definition deleteResource (failing : option DeleteStep) (key : Key)
    (table : list Resource) : list Resource * Reply :=
  if bool_decide (failing = Some DeleteFind) then (table, Failed)
  else
    match findOneBy key table with
    | QueryFailed => (table, Failed)
    | NoRow => (table, NotFound)
    | Row resource =>
        if bool_decide (failing = Some DeleteRemove) then (table, Failed)
        else (remove resource table, Deleted)
    end.

(** *** routes/resourceRoutes.ts, mounted on [/resources] by app.ts *)

Inductive Method := GET | POST | PUT | DELETE | PATCH.

(** A request below [/resources]: its method; its path, [None] for [/]
    and [Some key] for [/:id] with [key] the value of [Number(id)]; the
    [name] of the query string; and the two fields of the body. *)
Record HttpRequest := {
  method : Method;
  path_id : option Key;
  query_name : option string;
  body_name : Field;
  body_description : Field
}.

(** What a request gets from outside: the id that the database would
    generate, and whether a database call fails. *)
Record Outside := {
  generated_id : Z;
  find_fails : bool;
  write_fails : bool
}.

Inductive HttpResponse :=
| FromController (reply : Reply)
| FromUpdate (response : Response)
| NoRoute.

(** The five routes. *)
Definition dispatch (o : Outside) (rq : HttpRequest) (table : list Resource)
  : list Resource * HttpResponse :=
  match method rq, path_id rq with
  | POST, None =>
      let '(t, r) :=
        createResource (write_fails o) (generated_id o) (body_name rq)
          (body_description rq) table in
      (t, FromController r)
  | GET, None =>
      (table, FromController (listResources (find_fails o) (query_name rq) table))
  | GET, Some key =>
      (table, FromController (getResource (find_fails o) key table))
  | PUT, Some key =>
      let '(t, r) :=
        updateResource
          (if find_fails o then Some FindOneBy
           else if write_fails o then Some Save else None)
          key (body_name rq) (body_description rq) table in
      (t, FromUpdate r)
  | DELETE, Some key =>
      let '(t, r) :=
        deleteResource
          (if find_fails o then Some DeleteFind
           else if write_fails o then Some DeleteRemove else None)
          key table in
      (t, FromController r)
  | _, _ => (table, NoRoute)
  end.

(** The requests of a run, one after the other, each with what it gets
    from outside: the table at the end and the responses in order. *)
Fixpoint handle (requests : list (Outside * HttpRequest))
    (table : list Resource) : list Resource * list HttpResponse :=
  match requests with
  | [] => (table, [])
  | (o, rq) :: rest =>
      let '(t, response) := dispatch o rq table in
      let '(t', responses) := handle rest t in
      (t', response :: responses)
  end.

(** The responses of a write that went through: 201 of a create, 200 of
    an update, 200 of a delete. *)
Definition written (response : HttpResponse) : bool :=
  match response with
  | FromController (Created _) | FromController Deleted
  | FromUpdate (R200 _) => true
  | _ => false
  end.

(** The ids of a table are a primary key. *)
Definition primary_key (table : list Resource) : Prop :=
  NoDup (map id table).


(** Requests that are answered but write nothing: a create without a
    name, a delete of a missing row, an update whose save fails, a list,
    a PATCH, which has no route. *)
Definition five_unwritten : list (Outside * HttpRequest) :=
  let o w := {| generated_id := 3; find_fails := false;
                write_fails := w |} in
  [ (o false, {| method := POST; path_id := None; query_name := None;
                 body_name := Null; body_description := Str "no name" |});
    (o false, {| method := DELETE; path_id := Some (Integer 7);
                 query_name := None;
                 body_name := Undefined; body_description := Undefined |});
    (o true, {| method := PUT; path_id := Some (Integer 1); query_name := None;
                body_name := Str "gamma"; body_description := Undefined |});
    (o false, {| method := GET; path_id := None; query_name := Some "beta";
                 body_name := Undefined; body_description := Undefined |});
    (o false, {| method := PATCH; path_id := Some (Integer 1);
                 query_name := None;
                 body_name := Str "gamma"; body_description := Undefined |})
  ]%string.

End Crud.

(* ===================================================================== *)
(** * Part II: the properties *)
(* ===================================================================== *)

Module SumToNFacts.
Import SumToN.

Lemma Math_trunc_inject_Z (n : Z) : Math_trunc (inject_Z n) = n.
Proof. unfold Math_trunc; simpl. apply Z.quot_1_r. Qed.

(** Truncation really rounds towards zero on non-integers. *)
Example Math_trunc_pos : Math_trunc (7 # 2) = 3.
Proof. reflexivity. Qed.

Example Math_trunc_neg : Math_trunc (-7 # 2) = -3.
Proof. reflexivity. Qed.

(** The examples of the README and the cases of run_tests.ts. *)
Example run_tests_cases :
  map (fun n => (sum_to_n_a 20 (inject_Z n), sum_to_n_b 20 (inject_Z n),
                 sum_to_n_c (inject_Z n))) [5; 1; 0; -2; 10]
  = [(Some (Int 15), Some (Int 15), Int 15);
     (Some (Int 1), Some (Int 1), Int 1);
     (Some (Int 1), Some (Int 1), Int 1);
     (Some (Int (-2)), Some (Int (-2)), Int (-2));
     (Some (Int 55), Some (Int 55), Int 55)].
Proof. vm_compute. reflexivity. Qed.

(** Rounding at work: [2^53 + 1] is not a double and goes to the even
    neighbour, [2^53 + 3] goes up, and the largest double plus half a unit
    in its last place is an infinity. *)
Example round_cases :
  round (2 ^ 53 + 1) = Int (2 ^ 53) /\
  round (2 ^ 53 + 3) = Int (2 ^ 53 + 4) /\
  round (- (2 ^ 53 + 3)) = Int (- (2 ^ 53 + 4)) /\
  round (2 ^ 54 + 3) = Int (2 ^ 54 + 4) /\
  round ((2 ^ 53 - 1) * 2 ^ 971) = Int ((2 ^ 53 - 1) * 2 ^ 971) /\
  round ((2 ^ 53 - 1) * 2 ^ 971 + 2 ^ 970 - 1) = Int ((2 ^ 53 - 1) * 2 ^ 971) /\
  round ((2 ^ 53 - 1) * 2 ^ 971 + 2 ^ 970) = Infinity false.
Proof. vm_compute. repeat split. Qed.

(** *** Where the arithmetic of doubles is exact *)

Lemma round_safe (z : Z) : Z.abs z <= 2 ^ 53 -> round z = Int z.
Proof.
  intros H. destruct (Z.eq_dec (Z.abs z) (2 ^ 53)) as [He|Hne].
  - assert (z = 2 ^ 53 \/ z = - 2 ^ 53) as [->| ->] by lia;
      vm_compute; reflexivity.
  - unfold round.
    assert (Z.log2 (Z.abs z) < 53) as Hl.
    { destruct (Z.eq_dec (Z.abs z) 0) as [->|Hz]; [cbn; lia|].
      apply Z.log2_lt_pow2; lia. }
    destruct (Z.leb_spec (Z.log2 (Z.abs z) - 52) 0); [reflexivity|lia].
Qed.

Lemma round_even_safe (z : Z) :
  Z.abs z < 2 ^ 54 -> Z.even z = true -> round z = Int z.
Proof.
  intros H Hev. destruct (Z_le_gt_dec (Z.abs z) (2 ^ 53)) as [Hs|Hb].
  - apply round_safe, Hs.
  - unfold round.
    assert (Z.log2 (Z.abs z) = 53) as ->.
    { apply Z.log2_unique; [lia|].
      change (2 ^ Z.succ 53) with (2 ^ 54). lia. }
    change (53 - 52) with 1. change (1 <=? 0) with false. cbv iota zeta.
    change (2 ^ 1) with 2.
    apply Zeven_bool_iff, Zeven_ex_iff in Hev as [h Hh].
    assert (Z.abs z = 2 * Z.abs h) as Ha by lia.
    rewrite Ha.
    replace (2 * Z.abs h / 2) with (Z.abs h)
      by (rewrite Z.mul_comm, Z.div_mul; lia).
    replace ((2 * Z.abs h) mod 2) with 0
      by (rewrite Z.mul_comm, Z.mod_mul; lia).
    change (2 * 0 <? 2) with true. cbv iota.
    destruct (Z.leb_spec (2 ^ 1024) (Z.abs h * 2)) as [Hov|_].
    + exfalso. assert (2 ^ 54 < 2 ^ 1024) by (apply Z.pow_lt_mono_r; lia). lia.
    + f_equal. replace (Z.abs h * 2) with (Z.abs z) by lia.
      rewrite Z.mul_comm. apply Z.abs_sgn.
Qed.

Lemma add_safe (a b : Z) :
  Z.abs (a + b) <= 2 ^ 53 -> add (Int a) (Int b) = Int (a + b).
Proof. intros H. cbn. apply round_safe, H. Qed.

Lemma sub_safe (a b : Z) :
  Z.abs (a - b) <= 2 ^ 53 -> sub (Int a) (Int b) = Int (a - b).
Proof. intros H. unfold sub. cbn [neg]. apply add_safe. exact H. Qed.

Lemma le_Int (a b : Z) : le (Int a) (Int b) = (a <=? b).
Proof.
  unfold le. cbn.
  destruct (Z.ltb_spec a b), (Z.eqb_spec a b), (Z.leb_spec a b);
    try reflexivity; lia.
Qed.

Lemma ge_Int (a b : Z) : ge (Int a) (Int b) = (b <=? a).
Proof. apply le_Int. Qed.

(** *** The reference sum *)

Lemma sum_from_to_empty lo hi : hi < lo -> sum_from_to lo hi = 0.
Proof.
  intros H. unfold sum_from_to.
  replace (Z.to_nat (hi - lo + 1)) with 0%nat by lia. reflexivity.
Qed.

Lemma sum_from_to_first lo hi :
  lo <= hi -> sum_from_to lo hi = lo + sum_from_to (lo + 1) hi.
Proof.
  intros H. unfold sum_from_to.
  replace (Z.to_nat (hi - lo + 1)) with (S (Z.to_nat (hi - (lo + 1) + 1))) by lia.
  cbn [seq map fold_right]. rewrite Z.add_0_r. f_equal.
  rewrite <- seq_shift, map_map. f_equal.
  apply map_ext. intros k. lia.
Qed.

Lemma sum_from_to_last lo hi :
  lo <= hi -> sum_from_to lo hi = sum_from_to lo (hi - 1) + hi.
Proof.
  intros H. unfold sum_from_to.
  replace (Z.to_nat (hi - lo + 1)) with (Z.to_nat (hi - 1 - lo + 1) + 1)%nat by lia.
  rewrite seq_app, map_app, fold_right_app. cbn [seq map fold_right].
  generalize (seq 0 (Z.to_nat (hi - 1 - lo + 1))) as l.
  replace (lo + Z.of_nat (0 + Z.to_nat (hi - 1 - lo + 1)) + 0) with hi by lia.
  induction l as [|k l IH]; cbn [map fold_right]; lia.
Qed.

(** Gauss: twice the sum is (first + last) * (number of terms). *)
Lemma sum_from_to_closed lo hi :
  lo <= hi + 1 -> 2 * sum_from_to lo hi = (lo + hi) * (hi - lo + 1).
Proof.
  intros H.
  remember (Z.to_nat (hi + 1 - lo)) as k eqn:Hk.
  revert lo H Hk. induction k as [|k IH]; intros lo H Hk.
  - rewrite sum_from_to_empty by lia. nia.
  - rewrite sum_from_to_first by lia.
    specialize (IH (lo + 1) ltac:(lia) ltac:(lia)). nia.
Qed.

(** The sum that the functions are to return at [n]. *)
Lemma sum_at (n : Z) :
  sum_from_to (Z.min n 1) (Z.max n 1)
  = if 1 <=? n then n * (n + 1) / 2 else 1 - (- n) * (- n + 1) / 2.
Proof.
  destruct (Z.leb_spec 1 n).
  - rewrite Z.min_r, Z.max_l by lia.
    pose proof (sum_from_to_closed 1 n ltac:(lia)) as E.
    apply Z.div_unique_exact; [lia|nia].
  - rewrite Z.min_l, Z.max_r by lia.
    pose proof (sum_from_to_closed n 1 ltac:(lia)) as E.
    assert (- n * (- n + 1) / 2 = 1 - sum_from_to n 1) as ->; [|lia].
    symmetry. apply Z.div_unique_exact; [lia|nia].
Qed.

(** Within the safe range the partial sums of both loops are safe. *)
Lemma partial_sums_safe (n k : Z) :
  Z.abs (sum_from_to (Z.min n 1) (Z.max n 1)) <= MAX_SAFE_INTEGER ->
  Z.min n 1 - 1 <= k <= Z.max n 1 ->
  Z.abs (sum_from_to (Z.min n 1) k) <= 2 ^ 53 /\ Z.abs n < 2 ^ 53.
Proof.
  unfold MAX_SAFE_INTEGER. intros Hs Hk.
  destruct (Z_le_gt_dec 1 n) as [Hn|Hn].
  - rewrite Z.min_r, Z.max_l in * by lia.
    pose proof (sum_from_to_closed 1 n ltac:(lia)) as En.
    pose proof (sum_from_to_closed 1 k ltac:(lia)) as Ek.
    split; nia.
  - rewrite Z.min_l, Z.max_r in * by lia.
    pose proof (sum_from_to_closed n 1 ltac:(lia)) as En.
    pose proof (sum_from_to_closed n k ltac:(lia)) as Ek.
    split; nia.
Qed.

(** *** The loop of [sum_to_n_a] *)

Lemma for_loop_spec (fuel : nat) (i hi sum : Z) :
  i <= hi + 1 ->
  Z.abs i <= 2 ^ 53 -> Z.abs (hi + 1) <= 2 ^ 53 ->
  (forall k, i - 1 <= k <= hi -> Z.abs (sum + sum_from_to i k) <= 2 ^ 53) ->
  hi - i + 2 <= Z.of_nat fuel ->
  for_loop fuel (Int i) (Int hi) (Int sum) = Some (Int (sum + sum_from_to i hi)).
Proof.
  revert i sum. induction fuel as [|fuel IH]; intros i sum Hi Hbi Hbh Hsafe Hf;
    [lia|].
  cbn [for_loop]. rewrite le_Int.
  destruct (Z.leb_spec i hi) as [Hle|Hgt].
  - rewrite (add_safe i 1) by lia.
    rewrite (add_safe sum i).
    2:{ specialize (Hsafe i ltac:(lia)).
        rewrite sum_from_to_first, sum_from_to_empty in Hsafe by lia.
        replace (sum + i) with (sum + (i + 0)) by lia. exact Hsafe. }
    rewrite IH; try lia.
    + rewrite (sum_from_to_first i hi) by lia. f_equal. f_equal. lia.
    + intros k Hk. destruct (Z.eq_dec k i) as [->|Hne].
      * rewrite sum_from_to_empty by lia.
        specialize (Hsafe i ltac:(lia)).
        rewrite sum_from_to_first, sum_from_to_empty in Hsafe by lia.
        replace (sum + i + 0) with (sum + (i + 0)) by lia. exact Hsafe.
      * specialize (Hsafe k ltac:(lia)).
        rewrite sum_from_to_first in Hsafe by lia.
        replace (sum + i + sum_from_to (i + 1) k)
          with (sum + (i + sum_from_to (i + 1) k)) by lia. exact Hsafe.
  - rewrite sum_from_to_empty by lia. f_equal. f_equal. lia.
Qed.

Lemma sum_to_n_a_spec (n : Z) (fuel : nat) :
  Z.abs (sum_from_to (Z.min n 1) (Z.max n 1)) <= MAX_SAFE_INTEGER ->
  loop_tests n <= Z.of_nat fuel ->
  sum_to_n_a fuel (inject_Z n)
  = Some (Int (sum_from_to (Z.min n 1) (Z.max n 1))).
Proof.
  intros Hs Hf. unfold loop_tests in Hf.
  unfold sum_to_n_a. rewrite Math_trunc_inject_Z. cbv zeta. rewrite ge_Int.
  pose proof (fun k => partial_sums_safe n k Hs) as Hp.
  destruct (Z.leb_spec 1 n).
  - rewrite Z.min_r, Z.max_l in * by lia.
    destruct (Hp 1 ltac:(lia)) as [_ Hn].
    rewrite for_loop_spec; [reflexivity|..];
      first [ intros k Hk; destruct (Hp k ltac:(lia)) as [H1 _]; exact H1
            | change (2 ^ 53) with 9007199254740992 in *; lia ].
  - rewrite Z.min_l, Z.max_r in * by lia.
    destruct (Hp 1 ltac:(lia)) as [_ Hn].
    rewrite for_loop_spec; [reflexivity|..];
      first [ intros k Hk; destruct (Hp k ltac:(lia)) as [H1 _]; exact H1
            | change (2 ^ 53) with 9007199254740992 in *; lia ].
Qed.

(** *** The recursion of [sum_to_n_b] *)

Lemma strict_eq_Int (a b : Z) : strict_eq (Int a) (Int b) = (a =? b).
Proof. reflexivity. Qed.

Lemma gt_Int (a b : Z) : gt (Int a) (Int b) = (b <? a).
Proof. reflexivity. Qed.

(** Up to [2^53] in absolute value each call is one step closer to 1:
    the recursion returns exactly when the stack has room for
    [call_depth n] activations. *)
Lemma sum_to_n_b_from_returns (n : Z) (depth : nat) :
  Z.abs n <= 2 ^ 53 ->
  if call_depth n <=? Z.of_nat depth
  then is_Some (sum_to_n_b_from depth (Int n))
  else sum_to_n_b_from depth (Int n) = None.
Proof.
  unfold call_depth.
  revert n. induction depth as [|depth IH]; intros n Hn.
  - destruct (Z.leb_spec (Z.abs (n - 1) + 1) (Z.of_nat 0)); [lia|reflexivity].
  - cbn [sum_to_n_b_from]. rewrite strict_eq_Int, gt_Int.
    destruct (Z.eqb_spec n 1) as [->|Hne].
    + destruct (Z.leb_spec (Z.abs (1 - 1) + 1) (Z.of_nat (S depth)));
        [eexists; reflexivity|lia].
    + destruct (Z.ltb_spec 1 n) as [Hgt|Hle].
      * rewrite (sub_safe n 1) by lia.
        specialize (IH (n - 1) ltac:(lia)).
        destruct (Z.leb_spec (Z.abs (n - 1 - 1) + 1) (Z.of_nat depth));
          destruct (Z.leb_spec (Z.abs (n - 1) + 1) (Z.of_nat (S depth)));
          try lia.
        -- destruct IH as [r ->]. eexists; reflexivity.
        -- rewrite IH. reflexivity.
      * rewrite (add_safe n 1) by lia.
        specialize (IH (n + 1) ltac:(lia)).
        destruct (Z.leb_spec (Z.abs (n + 1 - 1) + 1) (Z.of_nat depth));
          destruct (Z.leb_spec (Z.abs (n - 1) + 1) (Z.of_nat (S depth)));
          try lia.
        -- destruct IH as [r ->]. eexists; reflexivity.
        -- rewrite IH. reflexivity.
Qed.

Lemma sum_to_n_b_spec (n : Z) (depth : nat) :
  Z.abs (sum_from_to (Z.min n 1) (Z.max n 1)) <= MAX_SAFE_INTEGER ->
  call_depth n <= Z.of_nat depth ->
  sum_to_n_b depth (inject_Z n)
  = Some (Int (sum_from_to (Z.min n 1) (Z.max n 1))).
Proof.
  unfold sum_to_n_b, call_depth. rewrite Math_trunc_inject_Z.
  revert n. induction depth as [|depth IH]; intros n Hs Hd; [lia|].
  pose proof (fun k => partial_sums_safe n k Hs) as Hp.
  cbn [sum_to_n_b_from]. rewrite strict_eq_Int, gt_Int.
  destruct (Z.eqb_spec n 1) as [->|Hne]; [reflexivity|].
  destruct (Z.ltb_spec 1 n) as [Hgt|Hle].
  - rewrite Z.min_r, Z.max_l in * by lia.
    destruct (Hp (n - 1) ltac:(lia)) as [Hprev Hn].
    rewrite (sub_safe n 1) by lia.
    rewrite (IH (n - 1)).
    + rewrite Z.min_r, Z.max_l by lia.
      rewrite add_safe.
      * rewrite (sum_from_to_last 1 n) by lia. f_equal. f_equal. lia.
      * rewrite (sum_from_to_last 1 n) in Hs by lia.
        unfold MAX_SAFE_INTEGER in Hs. lia.
    + rewrite Z.min_r, Z.max_l by lia. unfold MAX_SAFE_INTEGER in *.
      pose proof (sum_from_to_closed 1 n ltac:(lia)).
      pose proof (sum_from_to_closed 1 (n - 1) ltac:(lia)). nia.
    + lia.
  - rewrite Z.min_l, Z.max_r in * by lia.
    destruct (Hp 1 ltac:(lia)) as [_ Hn].
    rewrite (add_safe n 1) by lia.
    rewrite (IH (n + 1)).
    + rewrite Z.min_l, Z.max_r by lia.
      rewrite add_safe.
      * rewrite (sum_from_to_first n 1) by lia. reflexivity.
      * rewrite (sum_from_to_first n 1) in Hs by lia.
        unfold MAX_SAFE_INTEGER in Hs. lia.
    + rewrite Z.min_l, Z.max_r by lia. unfold MAX_SAFE_INTEGER in *.
      pose proof (sum_from_to_closed n 1 ltac:(lia)).
      pose proof (sum_from_to_closed (n + 1) 1 ltac:(lia)). nia.
    + lia.
Qed.

(** *** The formula of [sum_to_n_c] *)

(** The dividends of [sum_to_n_c] are even: the division loses nothing. *)
Lemma even_dividend_exact (a h : Z) : a = 2 * h -> 2 * (a / 2) = a.
Proof.
  intros ->. rewrite (Z.mul_comm 2 h), Z.div_mul by lia. lia.
Qed.

Lemma sum_to_n_c_exact (n : Z) :
  2 * ((n * (n + 1)) / 2) = n * (n + 1) /\
  2 * (((n + 1) * (2 - n)) / 2) = (n + 1) * (2 - n).
Proof.
  pose proof (Z.div_mod n 2 ltac:(lia)) as D.
  pose proof (Z.mod_pos_bound n 2 ltac:(lia)) as B.
  set (q := n / 2) in *.
  assert (n = 2 * q \/ n = 2 * q + 1) as [E|E] by lia; split.
  - apply (even_dividend_exact _ (q * (n + 1))). nia.
  - apply (even_dividend_exact _ ((n + 1) * (1 - q))). nia.
  - apply (even_dividend_exact _ (n * (q + 1))). nia.
  - apply (even_dividend_exact _ ((q + 1) * (2 - n))). nia.
Qed.

Lemma even_of_double (a : Z) : 2 * (a / 2) = a -> Z.even a = true.
Proof.
  intros H. apply Zeven_bool_iff, Zeven_ex_iff. exists (a / 2). lia.
Qed.

Lemma sum_to_n_c_spec (n : Z) :
  Z.abs (sum_from_to (Z.min n 1) (Z.max n 1)) <= MAX_SAFE_INTEGER ->
  sum_to_n_c (inject_Z n) = Int (sum_from_to (Z.min n 1) (Z.max n 1)).
Proof.
  intros Hs. unfold sum_to_n_c. rewrite Math_trunc_inject_Z. cbv zeta.
  rewrite ge_Int.
  destruct (partial_sums_safe n 1 Hs ltac:(lia)) as [_ Hn].
  destruct (sum_to_n_c_exact n) as [E1 E2].
  unfold MAX_SAFE_INTEGER in Hs.
  destruct (Z.leb_spec 1 n).
  - rewrite Z.min_r, Z.max_l in * by lia.
    pose proof (sum_from_to_closed 1 n ltac:(lia)) as E.
    rewrite (add_safe n 1) by lia. cbn [mul].
    rewrite round_even_safe; [|nia|apply even_of_double, E1].
    cbn [half]. f_equal. nia.
  - rewrite Z.min_l, Z.max_r in * by lia.
    pose proof (sum_from_to_closed n 1 ltac:(lia)) as E.
    rewrite (add_safe n 1) by lia. rewrite (sub_safe 2 n) by lia. cbn [mul].
    rewrite round_even_safe; [|nia|apply even_of_double, E2].
    cbn [half]. f_equal. nia.
Qed.


(** *** The dividends of [sum_to_n_c] on every input *)

(** From [2^53] on, what rounding returns is even, and no smaller than
    [2^53]. *)
Lemma round_large (z : Z) :
  2 ^ 53 <= Z.abs z ->
  (exists m, round z = Int m /\ Z.even m = true /\ 2 ^ 53 <= Z.abs m) \/
  (exists s, round z = Infinity s).
Proof.
  intros Hz. unfold round.
  set (a := Z.abs z) in *. set (e := Z.log2 a - 52).
  assert (0 < a) as Ha.
  { assert (0 < 2 ^ 53) by (apply Z.pow_pos_nonneg; lia). lia. }
  assert (1 <= e) as He.
  { unfold e. assert (53 <= Z.log2 a); [|lia].
    apply Z.log2_le_pow2; [lia|exact Hz]. }
  destruct (Z.leb_spec e 0); [lia|].
  cbv zeta.
  set (q := a / 2 ^ e). set (r := a mod 2 ^ e).
  set (q' := if 2 * r <? 2 ^ e then q
             else if 2 ^ e <? 2 * r then q + 1
             else if Z.even q then q else q + 1).
  assert (0 < 2 ^ e) as Hpe by (apply Z.pow_pos_nonneg; lia).
  assert (2 ^ 52 <= q) as Hq.
  { unfold q. apply Z.div_le_lower_bound; [exact Hpe|].
    rewrite Z.mul_comm, <- Z.pow_add_r by lia.
    replace (52 + e) with (Z.log2 a) by (unfold e; lia).
    apply Z.log2_spec. exact Ha. }
  assert (q <= q') as Hq'.
  { unfold q'. repeat match goal with |- context [if ?b then _ else _] =>
                        destruct b end; lia. }
  destruct (Z.leb_spec (2 ^ 1024) (q' * 2 ^ e)); [right; eauto|].
  left. eexists. split; [reflexivity|].
  assert (2 ^ e = 2 * 2 ^ (e - 1)) as He2.
  { rewrite <- Z.pow_succ_r by lia. f_equal. lia. }
  assert (0 < 2 ^ (e - 1)) by (apply Z.pow_pos_nonneg; lia).
  split.
  - apply Zeven_bool_iff, Zeven_ex_iff.
    exists (Z.sgn z * (q' * 2 ^ (e - 1))). rewrite He2. ring.
  - rewrite Z.abs_mul.
    assert (Z.abs (Z.sgn z) = 1) as ->.
    { assert (z <> 0) by (unfold a in Ha; lia).
      destruct z; cbn; lia. }
    rewrite Z.abs_eq by nia.
    change (2 ^ 53) with (2 ^ 52 * 2). nia.
Qed.

Lemma round_cases_of (z : Z) :
  (Z.abs z < 2 ^ 53 /\ round z = Int z) \/
  (2 ^ 53 <= Z.abs z /\
   ((exists m, round z = Int m /\ Z.even m = true /\ 2 ^ 53 <= Z.abs m) \/
    (exists s, round z = Infinity s))).
Proof.
  destruct (Z_lt_le_dec (Z.abs z) (2 ^ 53)) as [H|H].
  - left. split; [exact H|]. apply round_safe. lia.
  - right. split; [exact H|]. apply round_large, H.
Qed.

(** A product of two integers of which one is even, or one is no
    smaller than [2^53] and the other is not zero, rounds to an even
    integer or to an infinity. *)
Lemma mul_even (a b : Z) :
  Z.even (a * b) = true \/ (2 ^ 53 <= Z.abs (a * b)) ->
  match mul (Int a) (Int b) with
  | Int p => Z.even p = true
  | Infinity _ => True
  | NaN => False
  end.
Proof.
  intros H. cbn [mul].
  destruct (round_cases_of (a * b))
    as [[Hs ->]|[Hl [(m & -> & Hm & _)|(s & ->)]]]; auto.
  destruct H as [H|H]; [exact H|lia].
Qed.

(** Whatever the argument, [sum_to_n_c] halves an even integer or an
    infinity: [half] is the exact quotient. *)
Lemma dividend_even (n : Z) :
  match (if 1 <=? n then mul (Int n) (add (Int n) (Int 1))
         else mul (add (Int n) (Int 1)) (sub (Int 2) (Int n))) with
  | Int p => Z.even p = true
  | Infinity _ => True
  | NaN => False
  end.
Proof.
  assert (H53 : 2 ^ 53 = 9007199254740992) by reflexivity.
  destruct (sum_to_n_c_exact n) as [E1 E2].
  destruct (Z.leb_spec 1 n) as [Hn|Hn].
  - cbn [add].
    destruct (round_cases_of (n + 1))
      as [[Hs ->]|[Hl [(m & -> & Hm & Hbig)|(s & ->)]]].
    + apply mul_even. left. apply even_of_double, E1.
    + apply mul_even. right. rewrite Z.abs_mul. nia.
    + cbn [mul]. destruct (Z.eqb_spec n 0); [lia|exact I].
  - unfold sub. cbn [neg add].
    destruct (round_cases_of (n + 1))
      as [[Hs ->]|[Hl [(m & -> & Hm & Hbig)|(s & ->)]]];
      destruct (round_cases_of (2 + - n))
        as [[Hs' ->]|[Hl' [(m' & -> & Hm' & Hbig')|(s' & ->)]]].
    + apply mul_even. left. apply even_of_double.
      replace (2 + - n) with (2 - n) by lia. exact E2.
    + apply mul_even. right. rewrite Z.abs_mul.
      assert (1 <= Z.abs (n + 1)) by lia. nia.
    + cbn [mul]. destruct (Z.eqb_spec (n + 1) 0); [lia|exact I].
    + lia.
    + apply mul_even. right. rewrite Z.abs_mul. nia.
    + cbn [mul]. destruct (Z.eqb_spec m 0); [lia|exact I].
    + lia.
    + cbn [mul]. destruct (Z.eqb_spec m' 0); [lia|exact I].
    + exact I.
Qed.

(** *** Beyond the safe range *)

(** From a stack with room for all the activations on, the value that
    [sum_to_n_b] returns is the same. *)
Lemma sum_to_n_b_from_value (n : Z) :
  Z.abs n <= 2 ^ 53 ->
  exists v, forall depth,
    sum_to_n_b_from depth (Int n)
    = if call_depth n <=? Z.of_nat depth then Some v else None.
Proof.
  unfold call_depth.
  remember (Z.abs_nat (n - 1)) as k eqn:Hk.
  revert n Hk. induction k as [|k IH]; intros n Hk Hn.
  - assert (n = 1) as -> by lia. exists (Int 1). intros [|depth].
    + reflexivity.
    + cbn [sum_to_n_b_from]. rewrite strict_eq_Int.
      change (1 =? 1) with true. change (Z.abs (1 - 1) + 1) with 1.
      destruct (Z.leb_spec 1 (Z.of_nat (S depth))); [reflexivity|lia].
  - destruct (Z_lt_le_dec 1 n) as [Hgt|Hle].
    + destruct (IH (n - 1) ltac:(lia) ltac:(lia)) as [v Hv].
      exists (add (Int n) v). intros [|depth].
      * destruct (Z.leb_spec (Z.abs (n - 1) + 1) (Z.of_nat 0));
          [lia|reflexivity].
      * cbn [sum_to_n_b_from]. rewrite strict_eq_Int, gt_Int.
        destruct (Z.eqb_spec n 1); [lia|].
        destruct (Z.ltb_spec 1 n); [|lia].
        rewrite (sub_safe n 1), Hv by lia.
        destruct (Z.leb_spec (Z.abs (n - 1 - 1) + 1) (Z.of_nat depth));
          destruct (Z.leb_spec (Z.abs (n - 1) + 1) (Z.of_nat (S depth)));
          try reflexivity; lia.
    + destruct (IH (n + 1) ltac:(lia) ltac:(lia)) as [v Hv].
      exists (add (Int n) v). intros [|depth].
      * destruct (Z.leb_spec (Z.abs (n - 1) + 1) (Z.of_nat 0));
          [lia|reflexivity].
      * cbn [sum_to_n_b_from]. rewrite strict_eq_Int, gt_Int.
        destruct (Z.eqb_spec n 1); [lia|].
        destruct (Z.ltb_spec 1 n); [lia|].
        rewrite (add_safe n 1), Hv by lia.
        destruct (Z.leb_spec (Z.abs (n + 1 - 1) + 1) (Z.of_nat depth));
          destruct (Z.leb_spec (Z.abs (n - 1) + 1) (Z.of_nat (S depth)));
          try reflexivity; lia.
Qed.

(** C8, amended.  For every integer [n] whose sum fits within
    [Number.MAX_SAFE_INTEGER], as the header of sum_to_n.ts assumes, the
    three implementations return the sum of all the integers from
    [min n 1] to [max n 1] inclusive ([n (n + 1) / 2] for [n >= 1], and
    [n + (n + 1) + ... + 1] for [n < 1]): [sum_to_n_a] once its loop has
    tested its condition [|n - 1| + 2] times, [sum_to_n_c] at once, and
    [sum_to_n_b] exactly when the call stack has room for [|n - 1| + 1]
    activations; with less room it throws [RangeError]. *)
Theorem sum_to_n_agree (n : Z) (fuel depth : nat) :
  let s := sum_from_to (Z.min n 1) (Z.max n 1) in
  Z.abs s <= MAX_SAFE_INTEGER ->
  loop_tests n <= Z.of_nat fuel ->
  sum_to_n_a fuel (inject_Z n) = Some (Int s) /\
  sum_to_n_b depth (inject_Z n)
    = (if call_depth n <=? Z.of_nat depth then Some (Int s) else None) /\
  sum_to_n_c (inject_Z n) = Int s /\
  s = (if 1 <=? n then n * (n + 1) / 2 else sum_from_to n 1).
Proof.
  intros s Hs Hf. subst s.
  split; [apply sum_to_n_a_spec; assumption|].
  split; [|split; [apply sum_to_n_c_spec; assumption|]].
  - destruct (Z.leb_spec (call_depth n) (Z.of_nat depth)) as [Hd|Hd].
    + apply sum_to_n_b_spec; assumption.
    + destruct (partial_sums_safe n 1 Hs ltac:(lia)) as [_ Hn].
      pose proof (sum_to_n_b_from_returns n depth ltac:(lia)) as Hr.
      destruct (Z.leb_spec (call_depth n) (Z.of_nat depth)); [lia|].
      unfold sum_to_n_b. rewrite Math_trunc_inject_Z. exact Hr.
  - destruct (Z.leb_spec 1 n).
    + rewrite sum_at. destruct (Z.leb_spec 1 n); [reflexivity|lia].
    + rewrite Z.min_l, Z.max_r by lia. reflexivity.
Qed.

Lemma sum_to_n_agree_witness :
  sum_to_n_a 102 (inject_Z 100) = Some (Int 5050) /\
  sum_to_n_b 100 (inject_Z 100) = Some (Int 5050) /\
  sum_to_n_b 99 (inject_Z 100) = None /\
  sum_to_n_c (inject_Z 100) = Int 5050.
Proof.
  assert (Hs : Z.abs (sum_from_to (Z.min 100 1) (Z.max 100 1))
               <= MAX_SAFE_INTEGER) by (vm_compute; discriminate).
  assert (Hf : loop_tests 100 <= Z.of_nat 102) by (vm_compute; discriminate).
  destruct (sum_to_n_agree 100 102 100 Hs Hf) as (Ha & Hb & Hc & _).
  destruct (sum_to_n_agree 100 102 99 Hs Hf) as (_ & Hb' & _).
  repeat split; assumption.
Defined.

(** C8, as stated, fails beyond the safe range and on a finite stack.
    The sum of the integers from 1 to 134217729 is odd and above [2^53],
    so it is not a double, and [sum_to_n_c] returns its even neighbour;
    and on a stack with room for 10000 activations [sum_to_n_b] throws at
    10001, where [sum_to_n_c] returns 50015001. *)
Lemma sum_to_n_c_inexact :
  sum_to_n_c (inject_Z 134217729) = Int 9007199456067584 /\
  sum_from_to (Z.min 134217729 1) (Z.max 134217729 1) = 9007199456067585 /\
  sum_to_n_c (inject_Z 134217729)
    <> Int (sum_from_to (Z.min 134217729 1) (Z.max 134217729 1)) /\
  sum_to_n_b (Z.to_nat 10000) (inject_Z 10001) = None /\
  sum_to_n_c (inject_Z 10001) = Int 50015001.
Proof.
  assert (Hsum : sum_from_to (Z.min 134217729 1) (Z.max 134217729 1)
                 = 9007199456067585).
  { rewrite sum_at. reflexivity. }
  assert (Hc : sum_to_n_c (inject_Z 134217729) = Int 9007199456067584)
    by (vm_compute; reflexivity).
  split; [exact Hc|]. split; [exact Hsum|]. split.
  - rewrite Hc, Hsum. discriminate.
  - split; vm_compute; reflexivity.
Qed.

(** C9, amended.  For every integer [n] of absolute value up to [2^53],
    [sum_to_n_b] terminates, provided that the call stack is deep enough:
    each call is on a number one closer to 1, so that the base case is
    reached at the [|n - 1| + 1]-st activation.  With room for that many
    activations the function returns, the same value whatever the room
    beyond; with less, the engine throws [RangeError]. *)
Theorem sum_to_n_b_terminates (n : Z) :
  Z.abs n <= 2 ^ 53 ->
  exists v, forall depth : nat,
    sum_to_n_b depth (inject_Z n)
    = if call_depth n <=? Z.of_nat depth then Some v else None.
Proof.
  intros Hn. destruct (sum_to_n_b_from_value n Hn) as [v Hv].
  exists v. intros depth. unfold sum_to_n_b.
  rewrite Math_trunc_inject_Z. apply Hv.
Qed.

Lemma sum_to_n_b_terminates_witness :
  exists v,
    sum_to_n_b 7 (inject_Z (-5)) = Some v /\
    sum_to_n_b 6 (inject_Z (-5)) = None.
Proof.
  destruct (sum_to_n_b_terminates (-5) ltac:(vm_compute; discriminate))
    as [v Hv].
  exists v. split; [exact (Hv 7%nat)|exact (Hv 6%nat)].
Defined.

(** C9, as stated, fails: [sum_to_n_b] is not total on the integers.
    At [2^53 + 4] the difference [n - 1] is not a double and rounds back
    to [n], so that every call is on the same number and no depth of the
    stack is enough. *)
Lemma sum_to_n_b_stuck :
  sub (Int (2 ^ 53 + 4)) (Int 1) = Int (2 ^ 53 + 4) /\
  forall depth : nat, sum_to_n_b depth (inject_Z (2 ^ 53 + 4)) = None.
Proof.
  assert (Hsub : sub (Int (2 ^ 53 + 4)) (Int 1) = Int (2 ^ 53 + 4))
    by (vm_compute; reflexivity).
  split; [exact Hsub|].
  intros depth. unfold sum_to_n_b. rewrite Math_trunc_inject_Z.
  induction depth as [|depth IH]; [reflexivity|].
  cbn [sum_to_n_b_from].
  replace (strict_eq (Int (2 ^ 53 + 4)) (Int 1)) with false
    by (vm_compute; reflexivity).
  replace (gt (Int (2 ^ 53 + 4)) (Int 1)) with true
    by (vm_compute; reflexivity).
  rewrite Hsub, IH. reflexivity.
Qed.

End SumToNFacts.

(** ** detectAnomalies *)

Module AnomalyFacts.
Import Anomaly.

#[local] Open Scope string_scope.
#[local] Open Scope Z_scope.

Lemma check4_unfold (w : World) (userId : string) :
  check4 w userId =
    match getLastClientIP w userId with
    | None => false
    | Some lastIP =>
        negb (bool_decide (lastIP = ""))
        && negb (bool_decide (lastIP = req_ip w))
        && negb (bool_decide (geolocate w lastIP = geolocate w (req_ip w)))
    end.
Proof.
  unfold check4. destruct (getLastClientIP w userId) as [ip|]; [|reflexivity].
  repeat case_bool_decide; reflexivity.
Qed.

(** What the code computes: the score is the plain sum of the weights of
    the checks that fired, the flag is [score > 70], and nothing bounds
    the sum below the total of the four weights, 115. *)
Lemma detectAnomalies_sum (w : World) (userId : string) (newScore r : Z)
    (user : User) :
  failing w = None ->
  User_findById w userId = Some user ->
  exists v,
    detectAnomalies w userId newScore r = Some v /\
    anomalyScore v =
      weight (check1 w userId r) 30 + weight (check2 w user) 20
      + weight (check3 w userId) 40 + weight (check4 w userId) 25 /\
    isSuspicious v = (anomalyScore v >? 70) /\
    0 <= anomalyScore v <= 115.
Proof.
  intros Hf Hu. unfold detectAnomalies, check1, check2, check3, check4, rejects.
  rewrite Hf, Hu. cbn [bool_decide decide_rel option_eq_dec].
  rewrite !bool_decide_eq_false_2 by discriminate.
  destruct (exceeds_5x r _);
    destruct (Date_now w - createdAt user <? _);
    destruct (getActionCount w userId 300 >? 20);
    destruct (getLastClientIP w userId) as [ip|];
    repeat case_bool_decide;
    (eexists; split; [reflexivity|]); cbn; repeat split; lia.
Qed.

(** C4.  With a reward above five times the average, an account under a
    day old, 21 actions in five minutes and a change of country, every
    check fires and [detectAnomalies] returns 30 + 20 + 40 + 25 = 115: the
    sum is not capped at 100. *)
Theorem detectAnomalies_exceeds_100 :
  detectAnomalies world_all_fired "u1" 1050 1000 =
    Some {| isSuspicious := true;
            anomalyScore := 115;
            reasons := [ExceptionalReward 1000 (avgReward [10; 10; 10]);
                        NewAccount;
                        HighActionFrequency 21;
                        GeographicChange "US" "SG"] |}.
Proof. vm_compute. reflexivity. Qed.

(** C6, as stated, fails: the same arguments over the same database
    contents give 115 one hour after the account was created and 95 two
    days later, because the function reads the clock. *)
Lemma detectAnomalies_not_pure :
  ~ (forall (w1 w2 : World) (userId : string) (newScore actionReward : Z),
       recentHistory w1 userId = recentHistory w2 userId ->
       detectAnomalies w1 userId newScore actionReward =
       detectAnomalies w2 userId newScore actionReward).
Proof.
  intros H.
  specialize (H world_all_fired world_two_days_later "u1" 1050 1000 eq_refl).
  vm_compute in H. discriminate H.
Qed.

(** When the promise of [detectAnomalies] resolves: the user exists, and
    the read that fails, if one does, is not among those awaited. *)
Lemma detectAnomalies_resolves (w : World) (userId : string)
    (newScore actionReward : Z) :
  is_Some (detectAnomalies w userId newScore actionReward) <->
  is_Some (User_findById w userId) /\
  forall r, failing w = Some r -> performed w userId r = false.
Proof.
  unfold detectAnomalies, performed, rejects.
  destruct (User_findById w userId) as [user|].
  2:{ split.
      - intros [v Hv]. repeat case_match; discriminate.
      - intros [[u Hu] _]. discriminate. }
  destruct (failing w) as [[]|];
    cbn [bool_decide decide_rel option_eq_dec];
    repeat (rewrite bool_decide_eq_true_2 by reflexivity);
    repeat (rewrite bool_decide_eq_false_2 by discriminate);
    destruct (exceeds_5x actionReward
                (avgReward (getUserScoreHistory w userId 10)));
    destruct (Date_now w - createdAt user <? 24 * 60 * 60 * 1000);
    destruct (getActionCount w userId 300 >? 20);
    destruct (getLastClientIP w userId) as [ip|];
    repeat case_bool_decide; try congruence;
    (split;
     [ intros [v Hv]; try discriminate Hv;
       (split; [eexists; reflexivity|]); intros r [= <-]; reflexivity
     | intros [_ Hr]; first [ eexists; reflexivity
                            | specialize (Hr _ eq_refl); discriminate Hr ] ]).
Qed.

(** C6, amended.  [detectAnomalies] is not a function of its parameters
    alone.  Its outcome, the annotation that its promise resolves to or
    the rejection of that promise, is determined by its arguments
    together with what it reads: the user's history, row, action count
    and last address, the clock, the request's address and the countries
    of the two addresses, and the read that fails, if one does.  The
    promise resolves exactly when the user exists and none of the reads
    that the run awaits fails; otherwise it rejects. *)
Theorem detectAnomalies_deterministic (w1 w2 : World) (userId : string)
    (newScore actionReward : Z) :
  same_reads w1 w2 userId ->
  detectAnomalies w1 userId newScore actionReward =
  detectAnomalies w2 userId newScore actionReward /\
  (is_Some (detectAnomalies w1 userId newScore actionReward) <->
   is_Some (User_findById w1 userId) /\
   forall r, failing w1 = Some r -> performed w1 userId r = false).
Proof.
  intros (Hfail & Hdb & Hnow & Hip & Hgeo & Hlast).
  unfold recentHistory in Hdb.
  injection Hdb as Hhist Huser Hcount Hlip.
  split; [|apply detectAnomalies_resolves].
  unfold detectAnomalies, rejects.
  rewrite <- Hfail, <- Hhist, <- Huser, <- Hcount, <- Hlip, <- Hnow.
  destruct (User_findById w1 userId) as [user|]; [|reflexivity].
  destruct (getLastClientIP w1 userId) as [ip|]; [|reflexivity].
  rewrite <- Hgeo, <- (Hlast ip eq_refl), <- Hip. reflexivity.
Qed.

Lemma detectAnomalies_deterministic_witness :
  same_reads world_all_fired world_other_rows "u1" /\
  detectAnomalies world_all_fired "u1" 1050 1000 =
  detectAnomalies world_other_rows "u1" 1050 1000 /\
  is_Some (detectAnomalies world_all_fired "u1" 1050 1000) /\
  ~ is_Some (detectAnomalies world_count_fails "u1" 1050 1000).
Proof.
  assert (H : same_reads world_all_fired world_other_rows "u1").
  { repeat split. intros lastIP [= <-]. reflexivity. }
  assert (H' : same_reads world_count_fails world_count_fails "u1").
  { repeat split. }
  destruct (detectAnomalies_deterministic world_all_fired world_other_rows
              "u1" 1050 1000 H) as [Heq Hres].
  destruct (detectAnomalies_deterministic world_count_fails world_count_fails
              "u1" 1050 1000 H') as [_ Hres'].
  split; [exact H|]. split; [exact Heq|]. split.
  - apply Hres. split; [eexists; reflexivity|]. intros r [=].
  - intros Hsome. apply Hres' in Hsome as [_ Hr].
    specialize (Hr GetActionCount eq_refl). discriminate Hr.
Defined.

End AnomalyFacts.

(** ** completeAction *)

Module ScoreboardFacts.
Import Scoreboard.

#[local] Open Scope string_scope.
#[local] Open Scope Z_scope.

(** *** The latest completion *)

Lemma fold_newer_None (cs : list Completion) (userId actionId : string)
    (best : option Completion) :
  fold_left (newer userId actionId) cs best = None ->
  best = None /\ forall c, In c cs -> matches userId actionId c = false.
Proof.
  revert best. induction cs as [|c cs IH]; intros best H; cbn in H.
  - split; [exact H|]. intros c [].
  - apply IH in H as [Hb Hcs]. unfold newer in Hb.
    destruct (matches userId actionId c) eqn:Hm.
    + destruct best as [b|]; [destruct (completed_at b <? completed_at c)|];
        discriminate.
    + split; [exact Hb|]. intros c' [<-|Hin]; auto.
Qed.

Lemma fold_newer_Some (cs : list Completion) (userId actionId : string)
    (best : option Completion) (lc : Completion) :
  fold_left (newer userId actionId) cs best = Some lc ->
  (best = Some lc \/ (In lc cs /\ matches userId actionId lc = true)) /\
  (forall b, best = Some b -> completed_at b <= completed_at lc) /\
  (forall c, In c cs -> matches userId actionId c = true ->
             completed_at c <= completed_at lc).
Proof.
  revert best. induction cs as [|c cs IH]; intros best H; cbn in H.
  - subst best. split; [auto|]. split.
    + intros b [= ->]. lia.
    + intros c [].
  - apply IH in H as (Hsrc & Hbest & Hall). unfold newer in Hsrc, Hbest.
    destruct (matches userId actionId c) eqn:Hm.
    + destruct best as [b|].
      * destruct (Z.ltb_spec (completed_at b) (completed_at c)) as [Hlt|Hge].
        -- specialize (Hbest c eq_refl). split; [|split].
           ++ destruct Hsrc as [[= <-]|[Hin Hm']]; right; cbn; auto.
           ++ intros b' [= <-]. lia.
           ++ intros c' [<-|Hin] Hm'; auto.
        -- specialize (Hbest b eq_refl). split; [|split].
           ++ destruct Hsrc as [Heq|[Hin Hm']]; [auto|right; cbn; auto].
           ++ intros b' [= <-]. lia.
           ++ intros c' [<-|Hin] Hm'; [lia|auto].
      * specialize (Hbest c eq_refl). split; [|split].
        -- destruct Hsrc as [[= <-]|[Hin Hm']]; right; cbn; auto.
        -- intros b [=].
        -- intros c' [<-|Hin] Hm'; auto.
    + split; [|split].
      * destruct Hsrc as [Heq|[Hin Hm']]; [auto|right; cbn; auto].
      * exact Hbest.
      * intros c' [<-|Hin] Hm'; [congruence|auto].
Qed.

(** [latest] returns a completion of this user and action that no other
    one is more recent than, and [None] only when there is none. *)
Lemma latest_Some (cs : list Completion) (userId actionId : string)
    (lc : Completion) :
  latest cs userId actionId = Some lc ->
  In lc cs /\ uac_user_id lc = userId /\ uac_action_id lc = actionId /\
  forall c, In c cs -> uac_user_id c = userId -> uac_action_id c = actionId ->
            completed_at c <= completed_at lc.
Proof.
  unfold latest. intros H.
  apply fold_newer_Some in H as ([[=]|[Hin Hm]] & _ & Hall).
  unfold matches in Hm. apply andb_true_iff in Hm as [Hu Ha].
  apply bool_decide_eq_true in Hu, Ha.
  repeat split; auto.
  intros c Hc Hcu Hca. apply Hall; [exact Hc|].
  unfold matches. rewrite !bool_decide_eq_true_2 by assumption. reflexivity.
Qed.

Lemma latest_None (cs : list Completion) (userId actionId : string) :
  latest cs userId actionId = None ->
  forall c, In c cs -> ~ (uac_user_id c = userId /\ uac_action_id c = actionId).
Proof.
  unfold latest. intros H c Hc [Hu Ha].
  apply fold_newer_None in H as [_ H]. specialize (H c Hc).
  unfold matches in H. rewrite !bool_decide_eq_true_2 in H by assumption.
  discriminate.
Qed.

(** With a clock that does not run backwards between the cooldown check
    and the transaction, a request that passed the gate cannot repeat the
    [(user_id, action_id, completed_at)] of an existing row. *)
Lemma gate_excludes_duplicates (e : Env) (req : Request) (a : string)
    (action : Action) (d : Db) :
  cooling e d (req_userId req) a = None ->
  Date_now e <= NOW e ->
  duplicates (new_completion e req a action) (user_action_completions d) = false.
Proof.
  intros Hcool Hclock. unfold duplicates.
  destruct (existsb _ _) eqn:Hex; [|reflexivity]. exfalso.
  apply existsb_exists in Hex as (c & Hc & Hm). cbn in Hm.
  apply andb_true_iff in Hm as [Hm Ht]. apply andb_true_iff in Hm as [Hu Ha].
  apply bool_decide_eq_true in Hu, Ha. apply Z.eqb_eq in Ht.
  unfold cooling in Hcool.
  destruct (latest _ _ _) as [lc|] eqn:Hl.
  - apply latest_Some in Hl as (_ & _ & _ & Hmax).
    specialize (Hmax c Hc Hu Ha).
    destruct (Z.ltb_spec (Date_now e - completed_at lc) 5000); [discriminate|lia].
  - exact (latest_None _ _ _ Hl c Hc (conj Hu Ha)).
Qed.

(** *** Running the handler *)

Ltac unfold_handler :=
  cbv [completeAction apply_completion Action_findById
       UserActionCompletion_findOne queryRunner_connect
       queryRunner_startTransaction select_user_for_update update_user
       insert_completion insert_audit queryRunner_commitTransaction
       queryRunner_rollbackTransaction queryRunner_release redis_del
       redis_set io_emit attempt bind ret throw get put try_catch_finally
       view write].

Ltac simpl_sys :=
  cbn [committed tx redis emitted total_score fmap option_fmap option_map
       uac_user_id uac_action_id log_user_id log_action_id actions users
       user_action_completions score_audit_logs].

Ltac run_tx Hu Ha :=
  repeat (progress (rewrite ?lookup_alter_eq, ?Hu, ?Ha; simpl_sys)).

(** One awaited operation: either it is the one that fails, or it is not. *)
Ltac step_fault e st H :=
  destruct (decide (fault e = Some st)) as [H|H];
  [ rewrite (bool_decide_eq_true_2 _ H)
  | rewrite (bool_decide_eq_false_2 _ H) ];
  cbn beta iota zeta; simpl_sys.

Ltac no_fault :=
  match goal with
  | |- ?f (fault ?e) = false =>
      destruct (fault e) as [[]|]; try congruence; reflexivity
  end.

Section Runs.

Variable isSuspiciousJump : string -> Z -> Z -> Action -> bool.

(** Every run of the part of the handler that starts at
    [createQueryRunner()] ends in one of three ways: the promise rejects
    before the [try] block; the transaction is rolled back and the answer
    is 500; or the transaction is committed, after which a failure of the
    cache or of the broadcast ends in the [catch] block, whose rollback
    throws, so that the promise rejects and nothing is answered. *)
Lemma apply_completion_inv (e : Env) (req : Request) (a : string)
    (action : Action) (s : Sys) (o : Outcome Response) (s' : Sys) :
  tx s = None ->
  apply_completion isSuspiciousJump e req a action s = (o, s') ->
  (o = Thrown /\ s' = s /\
   (fault e = Some Connect \/ fault e = Some StartTransaction)) \/
  (o = Returned R500_failed_to_update /\ s' = s /\
   (in_transaction (fault e) = true \/
    users (committed s) !! req_userId req = None \/
    actions (committed s) !! a = None \/
    duplicates (new_completion e req a action)
      (user_action_completions (committed s)) = true \/
    exists u, users (committed s) !! req_userId req = Some u /\
              fits u action = false)) \/
  (exists u,
     users (committed s) !! req_userId req = Some u /\
     is_Some (actions (committed s) !! a) /\
     duplicates (new_completion e req a action)
       (user_action_completions (committed s)) = false /\
     fits u action = true /\
     in_transaction (fault e) = false /\
     committed s' = db_after isSuspiciousJump e req a action u (committed s) /\
     tx s' = None /\
     ((fault e = Some RedisDel /\ o = Thrown /\
       redis s' = redis s /\ emitted s' = emitted s) \/
      (fault e = Some RedisSet /\ o = Thrown /\
       redis s' = delete "leaderboard:top10" (redis s) /\
       emitted s' = emitted s) \/
      (fault e = Some IoEmit /\ o = Thrown /\
       redis s' = redis_after req action u (redis s) /\
       emitted s' = emitted s) \/
      (after_commit (fault e) = false /\
       o = Returned (response_ok isSuspiciousJump req action u) /\
       redis s' = redis_after req action u (redis s) /\
       emitted s' = (emitted s ++ [new_event e req action u])%list))).
Proof.
  intros Htx. destruct s as [d t r em]. cbn in Htx. subst t.
  unfold_handler. simpl_sys.
  step_fault e Connect H1.
  { intros [= <- <-]. left. auto. }
  step_fault e StartTransaction H2.
  { intros [= <- <-]. left. auto. }
  step_fault e SelectUser H3.
  { intros [= <- <-]. right; left. rewrite H3. auto. }
  destruct (users d !! req_userId req) as [u|] eqn:Hu; simpl_sys.
  2:{ intros [= <- <-]. right; left. auto. }
  step_fault e UpdateUser H4.
  { intros [= <- <-]. right; left. rewrite H4. auto. }
  unfold fits.
  destruct (INT (total_score u + scoreReward action)) eqn:Hi1;
    cbn [negb andb]; simpl_sys.
  2:{ intros [= <- <-]. right; left. repeat split. do 4 right.
      exists u. rewrite ?Hi1, ?Hi2, ?Hi3. auto. }
  step_fault e InsertCompletion H5.
  { intros [= <- <-]. right; left. rewrite H5. auto. }
  cbn [score_earned].
  destruct (INT (scoreReward action)) eqn:Hi2; cbn [negb andb]; simpl_sys.
  2:{ intros [= <- <-]. right; left. repeat split. do 4 right.
      exists u. rewrite ?Hi1, ?Hi2, ?Hi3. auto. }
  run_tx Hu Hu.
  destruct (actions d !! a) as [ac|] eqn:Ha; simpl_sys.
  2:{ intros [= <- <-]. right; left. auto 6. }
  destruct (duplicates _ (user_action_completions d)) eqn:Hd; simpl_sys.
  { intros [= <- <-]. right; left. auto 7. }
  step_fault e InsertAudit H6.
  { intros [= <- <-]. right; left. rewrite H6. auto. }
  cbn [score_delta score_before score_after]. rewrite Hi1, Hi2.
  destruct (INT (total_score u)) eqn:Hi3; cbn [negb andb]; simpl_sys.
  2:{ intros [= <- <-]. right; left. repeat split. do 4 right.
      exists u. rewrite ?Hi1, ?Hi2, ?Hi3. auto. }
  run_tx Hu Ha.
  step_fault e CommitTransaction H7.
  { intros [= <- <-]. right; left. rewrite H7. auto. }
  assert (Hin : in_transaction (fault e) = false) by no_fault.
  assert (Hex : is_Some (Some ac)) by eauto.
  step_fault e RedisDel H8.
  { intros [= <- <-]. right; right. exists u. rewrite ?Hi1, ?Hi2, ?Hi3.
    simpl_sys. repeat (split; [first [reflexivity|assumption]|]). auto. }
  step_fault e RedisSet H9.
  { intros [= <- <-]. right; right. exists u. rewrite ?Hi1, ?Hi2, ?Hi3.
    simpl_sys. repeat (split; [first [reflexivity|assumption]|]). auto 6. }
  step_fault e IoEmit H10.
  { intros [= <- <-]. right; right. exists u. rewrite ?Hi1, ?Hi2, ?Hi3.
    simpl_sys. repeat (split; [first [reflexivity|assumption]|]). auto 8. }
  intros [= <- <-]. right; right. exists u. rewrite ?Hi1, ?Hi2, ?Hi3.
  simpl_sys. repeat (split; [first [reflexivity|assumption]|]).
  do 3 right. split; [no_fault|]. auto.
Qed.

(** The runs of the whole handler. *)
Lemma completeAction_inv (e : Env) (req : Request) (s : Sys)
    (o : Outcome Response) (s' : Sys) :
  completeAction isSuspiciousJump e req s = (o, s') ->
  (o = Thrown /\ s' = s /\
   (fault e = Some FindAction \/ fault e = Some FindLastCompletion)) \/
  (o = Returned R400_invalid_action /\ s' = s /\
   forall a, req_body req !! "actionId" = Some a ->
             actions (committed s) !! a = None) \/
  (exists a action,
     req_body req !! "actionId" = Some a /\
     actions (committed s) !! a = Some action /\
     fault e <> Some FindAction /\ fault e <> Some FindLastCompletion /\
     ((exists t, cooling e (committed s) (req_userId req) a = Some t /\
                 o = Returned (R409_on_cooldown t) /\ s' = s) \/
      (cooling e (committed s) (req_userId req) a = None /\
       apply_completion isSuspiciousJump e req a action s = (o, s')))).
Proof.
  unfold completeAction, Action_findById, UserActionCompletion_findOne,
    attempt, cooling.
  cbv [bind ret throw get].
  case_bool_decide as Hf1.
  { intros [= <- <-]. auto. }
  destruct (req_body req !! "actionId") as [a|] eqn:Hb.
  2:{ intros [= <- <-]. right; left. repeat split. intros a [=]. }
  destruct (actions (committed s) !! a) as [action|] eqn:Ha.
  2:{ intros [= <- <-]. right; left. repeat split. intros a' [= <-]. exact Ha. }
  case_bool_decide as Hf2.
  { intros [= <- <-]. auto. }
  intros H. right; right. exists a, action. repeat split; auto.
  destruct (latest _ _ _) as [lc|]; [|auto].
  destruct (Date_now e - completed_at lc <? 5000).
  - injection H as <- <-. left. eauto.
  - auto.
Qed.

(** A request that is on cooldown is answered 409 and changes nothing. *)
Lemma completeAction_on_cooldown (e : Env) (req : Request) (s : Sys)
    (a : string) (action : Action) (t : Z) :
  req_body req !! "actionId" = Some a ->
  actions (committed s) !! a = Some action ->
  fault e <> Some FindAction -> fault e <> Some FindLastCompletion ->
  cooling e (committed s) (req_userId req) a = Some t ->
  completeAction isSuspiciousJump e req s = (Returned (R409_on_cooldown t), s).
Proof.
  intros Hb Ha Hf1 Hf2 Hc.
  destruct (completeAction isSuspiciousJump e req s) as [o s'] eqn:Hrun.
  apply completeAction_inv in Hrun
    as [(_ & _ & [?|?])|[(_ & _ & Hno)|(a' & action' & Hb' & Ha' & _ & _ & Hrun)]];
    try contradiction.
  - rewrite (Hno a Hb) in Ha. discriminate.
  - assert (a' = a) as -> by congruence.
    destruct Hrun as [(t' & Hc' & -> & ->)|[Hc' _]]; congruence.
Qed.

(** A request that passes the gate, for an existing user, with scores
    in the range of their columns and with no failure, is applied in
    full. *)
Lemma completeAction_accepts (e : Env) (req : Request) (s : Sys)
    (a : string) (action : Action) (u : UserRow) :
  tx s = None ->
  req_body req !! "actionId" = Some a ->
  actions (committed s) !! a = Some action ->
  users (committed s) !! req_userId req = Some u ->
  cooling e (committed s) (req_userId req) a = None ->
  Date_now e <= NOW e ->
  fits u action = true ->
  fault e = None ->
  completeAction isSuspiciousJump e req s =
    (Returned (response_ok isSuspiciousJump req action u),
     {| committed := db_after isSuspiciousJump e req a action u (committed s);
        tx := None;
        redis := redis_after req action u (redis s);
        emitted := emitted s ++ [new_event e req action u] |}).
Proof.
  intros Htx Hb Ha Hu Hc Hclock Hfit Hf.
  pose proof (gate_excludes_duplicates e req a action (committed s) Hc Hclock)
    as Hd.
  destruct (completeAction isSuspiciousJump e req s) as [o s'] eqn:Hrun.
  apply completeAction_inv in Hrun
    as [(_ & _ & [?|?])|[(_ & _ & Hno)|(a' & action' & Hb' & Ha' & _ & _ & Hrun)]];
    try congruence.
  - rewrite (Hno a Hb) in Ha. discriminate.
  - assert (a' = a) as -> by congruence.
    assert (action' = action) as -> by congruence.
    destruct Hrun as [(t' & Hc' & _)|[_ Hrun]]; [congruence|].
    apply apply_completion_inv in Hrun
      as [(_ & _ & [?|?])|[(_ & _ & [Hin|[?|[?|[?|(u' & Hu' & Hnf)]]]])|
          (u' & Hu' & _ & _ & _ & _ & Hdb & Htx' & Hpost)]];
      try congruence; try exact Htx.
    + rewrite Hf in Hin. discriminate.
    + assert (u' = u) as -> by congruence.
      destruct Hpost as [(? & _)|[(? & _)|[(? & _)|(_ & -> & Hr & Hem)]]];
        try congruence.
      destruct s' as [d' t' r' em']. cbn in *. congruence.
Qed.

(** C2, amended.  The database part of the commit is atomic.  When a
    request has passed the gate and one of the operations of the
    transaction fails (the locking read of the user's row, the score
    update, the insertion of the completion or of the audit row, or the
    commit itself), or when one of its writes is refused because a score
    is out of the range of its column, the handler answers 500 and leaves
    everything exactly as it was: the committed tables, the cache, the
    broadcasts, and no open transaction.  No completion row is left
    behind, so the same request can be sent again. *)
Theorem completeAction_transaction_atomic (e : Env) (req : Request) (s : Sys)
    (a : string) (action : Action) :
  tx s = None ->
  req_body req !! "actionId" = Some a ->
  actions (committed s) !! a = Some action ->
  cooling e (committed s) (req_userId req) a = None ->
  in_transaction (fault e) = true \/
  (before_try (fault e) = false /\
   exists u, users (committed s) !! req_userId req = Some u /\
             fits u action = false) ->
  completeAction isSuspiciousJump e req s = (Returned R500_failed_to_update, s).
Proof.
  intros Htx Hb Ha Hc Hfail.
  assert (Hbefore : before_try (fault e) = false).
  { destruct Hfail as [Hin|[Hbt _]]; [|exact Hbt].
    destruct (fault e) as [[]|]; try discriminate Hin; reflexivity. }
  destruct (completeAction isSuspiciousJump e req s) as [o s'] eqn:Hrun.
  apply completeAction_inv in Hrun
    as [(_ & _ & [Hf|Hf])|[(_ & _ & Hno)|(a' & action' & Hb' & Ha' & _ & _ & Hrun)]].
  - rewrite Hf in Hbefore. discriminate.
  - rewrite Hf in Hbefore. discriminate.
  - rewrite (Hno a Hb) in Ha. discriminate.
  - assert (a' = a) as -> by congruence.
    assert (action' = action) as -> by congruence.
    destruct Hrun as [(t' & Hc' & _)|[_ Hrun]]; [congruence|].
    apply apply_completion_inv in Hrun
      as [(_ & _ & [Hf|Hf])|[(-> & -> & _)|
          (u' & Hu' & _ & _ & Hfits & Hout & _)]];
      try exact Htx.
    + rewrite Hf in Hbefore. discriminate.
    + rewrite Hf in Hbefore. discriminate.
    + reflexivity.
    + destruct Hfail as [Hin|(_ & u & Hu & Hnf)]; congruence.
Qed.


End Runs.

(** *** The scenarios *)

(** C1.  The same request, with the same idempotency key, is sent three
    times by [u1]: at 0 s it is applied (score 50); at 1 s it is answered
    409 "on cooldown" and not with the first result; at 6 s it is applied
    a second time, so that the score is 100 and two completion rows exist
    for the one request. *)
Theorem duplicate_request_applied_twice :
  let submit t n s :=
    completeAction never_suspicious (env_at t n None) (request "a1" "r1") s in
  let '(o1, s1) := submit 0 "1" sys0 in
  let '(o2, s2) := submit 1000 "2" s1 in
  let '(o3, s3) := submit 6000 "3" s2 in
  o1 = Returned (R200 50 50 false) /\
  o2 = Returned (R409_on_cooldown 5000) /\
  o3 = Returned (R200 100 50 false) /\
  total_score <$> users (committed s3) !! "u1" = Some 100 /\
  map score_earned (user_action_completions (committed s3)) = [50; 50].
Proof. vm_compute. repeat split. Qed.

(** C5.  The window is the constant 5000 ms, not the action's
    [cooldown_seconds].  Action [a60] is configured with 60 s, and a
    second completion 6 s after the first is accepted; action [a0] is
    configured with no cooldown, and a second completion 1 s after the
    first is answered 409 with [nextAvailableAt] 5 s after the first. *)
Theorem cooldown_ignores_configuration :
  let submit a t n s :=
    completeAction never_suspicious (env_at t n None) (request a n) s in
  (cooldown_seconds <$> actions db0 !! "a60" = Some 60 /\
   let '(o1, s1) := submit "a60" 0 "1" sys0 in
   let '(o2, s2) := submit "a60" 6000 "2" s1 in
   o1 = Returned (R200 50 50 false) /\
   o2 = Returned (R200 100 50 false)) /\
  (cooldown_seconds <$> actions db0 !! "a0" = Some 0 /\
   let '(o1, s1) := submit "a0" 0 "1" sys0 in
   let '(o2, s2) := submit "a0" 1000 "2" s1 in
   o1 = Returned (R200 50 50 false) /\
   o2 = Returned (R409_on_cooldown 5000) /\
   s2 = s1).
Proof. vm_compute. repeat split. Qed.

(** C2, as stated, fails: the cache is updated after the commit, inside
    the same [try] block.  When [redis.del] fails, the score, the
    completion row and the audit row are committed and stay; and the
    submission does not end in a rejection with an internal error either:
    in the [catch] block [rollbackTransaction()] finds no transaction and
    throws, so that the promise of the handler rejects and no response is
    sent. *)
Lemma cache_failure_after_commit :
  let '(o, s') :=
    completeAction never_suspicious (env_at 0 "1" (Some RedisDel))
      (request "a1" "r1") sys0 in
  o = Thrown /\
  total_score <$> users (committed sys0) !! "u1" = Some 0 /\
  total_score <$> users (committed s') !! "u1" = Some 50 /\
  map uac_id (user_action_completions (committed s')) = ["completion-1"] /\
  map log_id (score_audit_logs (committed s')) = ["audit-1"] /\
  committed s' <> committed sys0.
Proof.
  vm_compute. repeat split. intros [=].
Qed.

Lemma completeAction_transaction_atomic_witness :
  completeAction never_suspicious (env_at 0 "1" (Some InsertAudit))
    (request "a1" "r1") sys0
  = (Returned R500_failed_to_update, sys0) /\
  completeAction never_suspicious (env_at 0 "1" None)
    (request "a1" "r1") sys_near_max
  = (Returned R500_failed_to_update, sys_near_max).
Proof.
  split.
  - apply (completeAction_transaction_atomic never_suspicious
             (env_at 0 "1" (Some InsertAudit)) (request "a1" "r1") sys0 "a1"
             {| scoreReward := 50; cooldown_seconds := 5; is_active := true |});
      try reflexivity.
    left. reflexivity.
  - apply (completeAction_transaction_atomic never_suspicious
             (env_at 0 "1" None) (request "a1" "r1") sys_near_max "a1"
             {| scoreReward := 50; cooldown_seconds := 5; is_active := true |});
      try reflexivity.
    right. split; [reflexivity|].
    exists {| total_score := 2147483627; created_at := 0; updated_at := 10 |}.
    split; reflexivity.
Defined.



End ScoreboardFacts.

(** ** completeAction under concurrent requests *)

Module ConcurrentFacts.
Import Scoreboard Concurrent.

#[local] Open Scope string_scope.
#[local] Open Scope Z_scope.

(** *** Sums over the invocations *)

Lemma sumZ_insert {A} (g : A -> Z) (l : list A) (i : nat) (x y : A) :
  l !! i = Some x ->
  sumZ (g <$> <[i := y]> l) = sumZ (g <$> l) - g x + g y.
Proof.
  unfold sumZ.
  revert i. induction l as [|a l IH]; intros [|i] H; try discriminate.
  - injection H as ->. cbn. lia.
  - csimpl in *. rewrite (IH i H). lia.
Qed.

Lemma abstract_goto (ths : list Thread) (i : nat) (th : Thread) (pc : Pc) :
  abstract (goto i th pc ths) = <[i := (th_sub th, phase pc)]> (abstract ths).
Proof. unfold abstract, goto. rewrite list_fmap_insert. reflexivity. Qed.

Lemma abstract_lookup (ths : list Thread) (i : nat) (th : Thread) :
  ths !! i = Some th ->
  abstract ths !! i = Some (th_sub th, phase (th_pc th)).
Proof. intros H. unfold abstract. rewrite list_lookup_fmap, H. reflexivity. Qed.

Lemma abstract_goto_same (ths : list Thread) (i : nat) (th : Thread) (pc : Pc) :
  ths !! i = Some th -> phase pc = phase (th_pc th) ->
  abstract (goto i th pc ths) = abstract ths.
Proof.
  intros Hi Hp. rewrite abstract_goto, Hp.
  apply list_insert_id, abstract_lookup, Hi.
Qed.

Lemma remaining_goto (c : Shared) (i : nat) (th : Thread) (pc : Pc) d l r em :
  threads c !! i = Some th ->
  remaining {| c_db := d; row_locks := l; c_redis := r; c_emitted := em;
               threads := goto i th pc (threads c) |}
  = remaining c - steps_left (th_pc th) + steps_left pc.
Proof.
  intros Hi. unfold remaining, goto. cbn [threads].
  rewrite (sumZ_insert _ _ _ th) by exact Hi. reflexivity.
Qed.

Lemma steps_left_nonneg (pc : Pc) : 0 <= steps_left pc.
Proof. destruct pc; cbn; lia. Qed.

Lemma remaining_nonneg (c : Shared) : 0 <= remaining c.
Proof.
  unfold remaining, sumZ. induction (threads c) as [|th l IH]; csimpl; [lia|].
  pose proof (steps_left_nonneg (th_pc th)). lia.
Qed.

Lemma abstract_start (l : list Submission) :
  abstract (map (fun sub => {| th_sub := sub; th_pc := AtSelect |}) l)
  = (fun sub => (sub, Waiting)) <$> l.
Proof.
  unfold abstract. change (map ?f l) with (f <$> l).
  rewrite <- list_fmap_compose. reflexivity.
Qed.

Lemma credited_waiting (u : string) (l : list Submission) :
  credited u ((fun sub => (sub, Waiting)) <$> l) = 0.
Proof.
  unfold credited, sumZ. induction l as [|sub l IH]; [reflexivity|].
  csimpl. rewrite IH. unfold credit. cbn. case_bool_decide; reflexivity.
Qed.

(** The rewards credited are those of the committed submissions. *)
Lemma credited_committed (u : string) (ths : list Thread) :
  credited u (abstract ths)
  = rewards_of u (th_sub <$> List.filter has_committed ths).
Proof.
  unfold credited, rewards_of, sumZ, abstract.
  induction ths as [|th ths IH]; [reflexivity|].
  csimpl. rewrite IH. unfold has_committed, credit. cbn [fst snd].
  destruct (phase (th_pc th)); csimpl; case_bool_decide; lia.
Qed.

(** Whichever invocations are committed, their rewards stay within the
    spread of the rewards. *)
Lemma credited_bound (u : string) (v : list (Submission * Phase)) :
  Z.abs (credited u v) <= spread u (v.*1).
Proof.
  unfold credited, spread, sumZ.
  induction v as [|[sub ph] v IH]; [cbn; lia|].
  csimpl. unfold credit at 1. cbn [fst snd].
  case_bool_decide; [destruct ph|]; lia.
Qed.

Lemma spread_nonneg (u : string) (l : list Submission) : 0 <= spread u l.
Proof.
  unfold spread. induction l as [|sub l IH]; cbn; [lia|].
  case_bool_decide; lia.
Qed.

Lemma INT_between (lo hi z : Z) :
  INT lo = true -> INT hi = true -> lo <= z <= hi -> INT z = true.
Proof. unfold INT. lia. Qed.

(** *** The last completion of a user *)

Lemma last_of_snoc (u : string) (cs : list Completion) (x : Completion) :
  last_of u (cs ++ [x])
  = if bool_decide (uac_user_id x = u) then Some x else last_of u cs.
Proof.
  unfold last_of. rewrite List.filter_app. cbn [List.filter].
  case_bool_decide.
  - apply last_snoc.
  - rewrite app_nil_r. reflexivity.
Qed.

Section Interleavings.

Variable isSuspiciousJump : string -> Z -> Z -> Action -> bool.
Variable subs : list Submission.
Variable d0 : Db.
Hypothesis subs_valid : forall sub, sub ∈ subs -> valid d0 sub.
Hypothesis subs_distinct : distinct subs.

Lemma inv_start (r : gmap string RedisValue) (em : list Event) :
  Inv subs d0 (start subs d0 r em).
Proof.
  unfold Inv, start. cbn [c_db row_locks threads]. rewrite abstract_start.
  assert (Hv : forall j sub ph,
             ((fun sub => (sub, Waiting)) <$> subs) !! j = Some (sub, ph) ->
             ph = Waiting).
  { intros j sub ph. rewrite list_lookup_fmap.
    destruct (subs !! j); cbn; [|discriminate]. intros [= _ <-]. reflexivity. }
  split.
  - rewrite <- list_fmap_compose. apply list_fmap_id.
  - intros u i H. rewrite lookup_empty in H. discriminate.
  - intros i sub user0 H. apply Hv in H. discriminate.
  - intros u. rewrite credited_waiting. lia.
  - reflexivity.
  - reflexivity.
  - auto.
  - exists []. split; [rewrite app_nil_r; reflexivity|]. intros u. reflexivity.
Qed.

Lemma inv_sub_lookup d locks v i sub ph :
  InvOn subs d0 d locks v -> v !! i = Some (sub, ph) -> subs !! i = Some sub.
Proof.
  intros HI Hi. rewrite <- (inv_static _ _ _ _ _ HI).
  rewrite list_lookup_fmap, Hi. reflexivity.
Qed.

Lemma inv_sub_valid d locks v i sub ph :
  InvOn subs d0 d locks v -> v !! i = Some (sub, ph) -> valid d0 sub.
Proof.
  intros HI Hi. apply subs_valid, list_elem_of_lookup.
  exists i. exact (inv_sub_lookup _ _ _ _ _ _ HI Hi).
Qed.

Lemma static_insert (v : list (Submission * Phase)) i sub ph ph' :
  v !! i = Some (sub, ph) -> (<[i := (sub, ph')]> v).*1 = v.*1.
Proof.
  intros Hi. rewrite list_fmap_insert. apply list_insert_id.
  rewrite list_lookup_fmap, Hi. reflexivity.
Qed.

Lemma credited_insert (u : string) (v : list (Submission * Phase)) i sub ph ph' :
  v !! i = Some (sub, ph) ->
  credited u (<[i := (sub, ph')]> v)
  = credited u v - credit u (sub, ph) + credit u (sub, ph').
Proof. intros Hi. unfold credited. apply sumZ_insert. exact Hi. Qed.

(** A committed invocation stays where it is when another one moves. *)
Lemma credited_stays (v : list (Submission * Phase)) i sub ph ph' j sub' :
  v !! i = Some (sub, ph) -> ph <> Credited ->
  v !! j = Some (sub', Credited) ->
  <[i := (sub, ph')]> v !! j = Some (sub', Credited).
Proof.
  intros Hi Hph Hj. rewrite list_lookup_insert_ne; [exact Hj|].
  intros ->. congruence.
Qed.

(** An invocation that has not committed changes its phase, the database
    staying as it is: what the invariant says of the completions holds
    on. *)
Lemma log_stays (d : Db) (v : list (Submission * Phase)) (i : nat)
    (sub : Submission) (ph ph' : Phase) :
  v !! i = Some (sub, ph) -> ph <> Credited ->
  (exists news,
     user_action_completions d
     = (user_action_completions d0 ++ news)%list /\
     forall u,
       match last_of u news with
       | Some x =>
           (exists j sub, v !! j = Some (sub, Credited) /\
                          sub_user sub = u /\ x = completion_of sub) /\
           updated_at <$> users d !! u = Some (completed_at x)
       | None => users d !! u = users d0 !! u
       end) ->
  exists news,
    user_action_completions d
    = (user_action_completions d0 ++ news)%list /\
    forall u,
      match last_of u news with
      | Some x =>
          (exists j sub0, <[i := (sub, ph')]> v !! j = Some (sub0, Credited) /\
                          sub_user sub0 = u /\ x = completion_of sub0) /\
          updated_at <$> users d !! u = Some (completed_at x)
      | None => users d !! u = users d0 !! u
      end.
Proof.
  intros Hi Hph (news & Hnews & Hlast). exists news. split; [exact Hnews|].
  intros u. specialize (Hlast u). destruct (last_of u news) as [x|]; [|exact Hlast].
  destruct Hlast as [(j & sub' & Hj & Hu & Hx) Hup]. split; [|exact Hup].
  exists j, sub'. split; [|auto].
  exact (credited_stays _ _ _ _ _ _ _ Hi Hph Hj).
Qed.

(** The locking read: a waiting invocation takes the free lock of its
    user's row. *)
Lemma inv_acquire d locks v i sub user0 :
  InvOn subs d0 d locks v ->
  v !! i = Some (sub, Waiting) ->
  locks !! sub_user sub = None ->
  users d !! sub_user sub = Some user0 ->
  InvOn subs d0 d (<[sub_user sub := i]> locks)
    (<[i := (sub, Holding user0)]> v).
Proof.
  intros HI Hi Hfree Hrow. pose proof (lookup_lt_Some _ _ _ Hi) as Hlen.
  destruct HI as [Hst Hlh Hhl Hsc Hac Hus Hco Hlog]. split.
  - rewrite (static_insert _ _ _ _ _ Hi). exact Hst.
  - intros u j Hl. destruct (decide (sub_user sub = u)) as [<-|Hne].
    + rewrite lookup_insert_eq in Hl. injection Hl as <-.
      exists sub, user0. split; [|reflexivity].
      apply list_lookup_insert_eq. exact Hlen.
    + rewrite lookup_insert_ne in Hl by exact Hne.
      destruct (Hlh u j Hl) as (sub' & u0' & Hj & Hu).
      exists sub', u0'. split; [|exact Hu].
      rewrite list_lookup_insert_ne; [exact Hj|]. intros ->. congruence.
  - intros j sub' u0' Hj.
    apply list_lookup_insert_Some in Hj as [(<- & [= <- <-] & _)|(Hne & Hj)].
    + rewrite lookup_insert_eq. auto.
    + destruct (Hhl j sub' u0' Hj) as [Hl Hr]. split; [|exact Hr].
      rewrite lookup_insert_ne; [exact Hl|]. intros Heq. congruence.
  - intros u. rewrite (credited_insert u _ _ _ _ _ Hi), Hsc.
    unfold credit. cbn. case_bool_decide; lia.
  - exact Hac.
  - exact Hus.
  - intros x Hx. destruct (Hco x Hx) as [?|(j & sub' & Hj & ->)]; [auto|].
    right. exists j, sub'. split; [|reflexivity].
    exact (credited_stays _ _ _ _ _ _ _ Hi ltac:(discriminate) Hj).
  - exact (log_stays _ _ _ _ _ _ Hi ltac:(discriminate) Hlog).
Qed.

(** An invocation fails while it waits for the lock: nothing else
    changes. *)
Lemma inv_fail_waiting d locks v i sub :
  InvOn subs d0 d locks v ->
  v !! i = Some (sub, Waiting) ->
  InvOn subs d0 d locks (<[i := (sub, Failed)]> v).
Proof.
  intros HI Hi. pose proof (lookup_lt_Some _ _ _ Hi) as Hlen.
  destruct HI as [Hst Hlh Hhl Hsc Hac Hus Hco Hlog]. split.
  - rewrite (static_insert _ _ _ _ _ Hi). exact Hst.
  - intros u j Hl. destruct (Hlh u j Hl) as (sub' & u0' & Hj & Hu).
    exists sub', u0'. split; [|exact Hu].
    rewrite list_lookup_insert_ne; [exact Hj|]. intros ->. congruence.
  - intros j sub' u0' Hj.
    apply list_lookup_insert_Some in Hj as [(_ & [=] & _)|(Hne & Hj)].
    exact (Hhl j sub' u0' Hj).
  - intros u. rewrite (credited_insert u _ _ _ _ _ Hi), Hsc.
    unfold credit. cbn. case_bool_decide; lia.
  - exact Hac.
  - exact Hus.
  - intros x Hx. destruct (Hco x Hx) as [?|(j & sub' & Hj & ->)]; [auto|].
    right. exists j, sub'. split; [|reflexivity].
    exact (credited_stays _ _ _ _ _ _ _ Hi ltac:(discriminate) Hj).
  - exact (log_stays _ _ _ _ _ _ Hi ltac:(discriminate) Hlog).
Qed.

(** The rollback: the holder gives up its writes and the lock is free
    again. *)
Lemma inv_abort d locks v i sub user0 :
  InvOn subs d0 d locks v ->
  v !! i = Some (sub, Holding user0) ->
  InvOn subs d0 d (delete (sub_user sub) locks) (<[i := (sub, Failed)]> v).
Proof.
  intros HI Hi. pose proof (lookup_lt_Some _ _ _ Hi) as Hlen.
  destruct HI as [Hst Hlh Hhl Hsc Hac Hus Hco Hlog].
  destruct (Hhl i sub user0 Hi) as [Hlock Hrow]. split.
  - rewrite (static_insert _ _ _ _ _ Hi). exact Hst.
  - intros u j Hl. apply lookup_delete_Some in Hl as [Hne Hl].
    destruct (Hlh u j Hl) as (sub' & u0' & Hj & Hu).
    exists sub', u0'. split; [|exact Hu].
    rewrite list_lookup_insert_ne; [exact Hj|]. intros ->. congruence.
  - intros j sub' u0' Hj.
    apply list_lookup_insert_Some in Hj as [(_ & [=] & _)|(Hne & Hj)].
    destruct (Hhl j sub' u0' Hj) as [Hl Hr].
    assert (sub_user sub <> sub_user sub') as Hu by (intros Heq; congruence).
    split; [|exact Hr].
    rewrite lookup_delete_ne; [exact Hl|exact Hu].
  - intros u. rewrite (credited_insert u _ _ _ _ _ Hi), Hsc.
    unfold credit. cbn. case_bool_decide; lia.
  - exact Hac.
  - exact Hus.
  - intros x Hx. destruct (Hco x Hx) as [?|(j & sub' & Hj & ->)]; [auto|].
    right. exists j, sub'. split; [|reflexivity].
    exact (credited_stays _ _ _ _ _ _ _ Hi ltac:(discriminate) Hj).
  - exact (log_stays _ _ _ _ _ _ Hi ltac:(discriminate) Hlog).
Qed.

(** The commit: the holder's writes reach the database, its reward is
    credited, its completion row is the last one, and the lock is free
    again. *)
Lemma inv_commit d locks v i sub user0 :
  InvOn subs d0 d locks v ->
  v !! i = Some (sub, Holding user0) ->
  InvOn subs d0
    (db_after isSuspiciousJump (sub_env sub) (sub_req sub) (sub_actionId sub)
       (sub_action sub) user0 d)
    (delete (sub_user sub) locks)
    (<[i := (sub, Credited)]> v).
Proof.
  intros HI Hi. pose proof (lookup_lt_Some _ _ _ Hi) as Hlen.
  destruct HI as [Hst Hlh Hhl Hsc Hac Hus Hco Hlog].
  destruct (Hhl i sub user0 Hi) as [Hlock Hrow]. split.
  - rewrite (static_insert _ _ _ _ _ Hi). exact Hst.
  - intros u j Hl. apply lookup_delete_Some in Hl as [Hne Hl].
    destruct (Hlh u j Hl) as (sub' & u0' & Hj & Hu).
    exists sub', u0'. split; [|exact Hu].
    rewrite list_lookup_insert_ne; [exact Hj|]. intros ->. congruence.
  - intros j sub' u0' Hj.
    apply list_lookup_insert_Some in Hj as [(_ & [=] & _)|(Hne & Hj)].
    destruct (Hhl j sub' u0' Hj) as [Hl Hr].
    assert (sub_user sub <> sub_user sub') as Hu by (intros Heq; congruence).
    split.
    + rewrite lookup_delete_ne; [exact Hl|exact Hu].
    + cbn [db_after users]. unfold sub_user in *.
      rewrite lookup_alter_ne; [exact Hr|exact Hu].
  - intros u. rewrite (credited_insert u _ _ _ _ _ Hi).
    specialize (Hsc u). unfold score_of in *. cbn [db_after users].
    unfold credit; cbn [fst snd]. unfold sub_user in *.
    case_bool_decide as Hu.
    + subst u. rewrite lookup_alter_eq, Hrow in *. cbn in *. lia.
    + rewrite lookup_alter_ne by exact Hu. lia.
  - exact Hac.
  - intros u. cbn [db_after users]. rewrite lookup_alter_is_Some. apply Hus.
  - intros x Hx. cbn [db_after user_action_completions] in Hx.
    apply elem_of_app in Hx as [Hx|Hx].
    + destruct (Hco x Hx) as [?|(j & sub' & Hj & ->)]; [auto|].
      right. exists j, sub'. split; [|reflexivity].
      exact (credited_stays _ _ _ _ _ _ _ Hi ltac:(discriminate) Hj).
    + apply list_elem_of_singleton in Hx as ->.
      right. exists i, sub. split; [|reflexivity].
      apply list_lookup_insert_eq. exact Hlen.
  - destruct Hlog as (news & Hnews & Hlast).
    exists (news ++ [completion_of sub])%list. split.
    + cbn [db_after user_action_completions]. rewrite Hnews, <- app_assoc.
      reflexivity.
    + intros u. rewrite last_of_snoc. cbn [db_after users].
      unfold completion_of at 1. cbn [new_completion uac_user_id].
      fold (sub_user sub). case_bool_decide as Hu.
      * subst u. split.
        -- exists i, sub. split; [apply list_lookup_insert_eq; exact Hlen|auto].
        -- unfold sub_user in *. rewrite lookup_alter_eq, Hrow. reflexivity.
      * specialize (Hlast u). unfold sub_user in *.
        rewrite lookup_alter_ne by exact Hu.
        destruct (last_of u news) as [x|]; [|exact Hlast].
        destruct Hlast as [(j & sub' & Hj & Hu' & Hx) Hup]. split; [|exact Hup].
        exists j, sub'. split; [|auto].
        exact (credited_stays _ _ _ _ _ _ _ Hi ltac:(discriminate) Hj).
Qed.

(** The checks of the two inserts on the keys pass for every invocation:
    its user and its action exist, and no committed row repeats its
    [(user_id, action_id, completed_at)]. *)
Lemma inv_inserts_pass d locks v i sub ph :
  InvOn subs d0 d locks v ->
  v !! i = Some (sub, ph) ->
  ph <> Credited ->
  is_Some (users d !! sub_user sub) /\
  actions d !! sub_actionId sub = Some (sub_action sub) /\
  duplicates (completion_of sub) (user_action_completions d) = false.
Proof.
  intros HI Hi Hph.
  destruct (inv_sub_valid _ _ _ _ _ _ HI Hi)
    as (_ & Hact & Huser & Hcool & Hclock & _).
  pose proof (inv_sub_lookup _ _ _ _ _ _ HI Hi) as Hsi.
  split; [apply (inv_users _ _ _ _ _ HI); exact Huser|].
  split; [rewrite (inv_actions _ _ _ _ _ HI); exact Hact|].
  unfold duplicates. destruct (existsb _ _) eqn:Hex; [|reflexivity]. exfalso.
  apply existsb_exists in Hex as (x & Hx & Hm).
  apply list_elem_of_In in Hx.
  destruct (inv_completions _ _ _ _ _ HI x Hx) as [Hold|(j & sub' & Hj & ->)].
  - pose proof (ScoreboardFacts.gate_excludes_duplicates (sub_env sub)
                  (sub_req sub) (sub_actionId sub) (sub_action sub) d0
                  Hcool Hclock) as Hd.
    unfold duplicates in Hd.
    assert (existsb
              (fun c' => bool_decide (uac_user_id c' = uac_user_id (completion_of sub))
                 && bool_decide (uac_action_id c' = uac_action_id (completion_of sub))
                 && (completed_at c' =? completed_at (completion_of sub)))
              (user_action_completions d0) = true) as Hd'.
    { apply existsb_exists. exists x. split; [|exact Hm].
      apply list_elem_of_In. exact Hold. }
    unfold completion_of in Hd'. congruence.
  - apply andb_true_iff in Hm as [Hm _]. apply andb_true_iff in Hm as [Hu Ha].
    apply bool_decide_eq_true in Hu, Ha. cbn in Hu, Ha.
    pose proof (inv_sub_lookup _ _ _ _ _ _ HI Hj) as Hsj.
    assert (j <> i) as Hne by (intros ->; congruence).
    exact (subs_distinct j i sub' sub Hsj Hsi Hne Hu Ha).
Qed.

(** Every operation of every invocation keeps the invariant and uses up
    at least one of the operations that remain. *)
Lemma inv_step (c c' : Shared) (i : nat) :
  Inv subs d0 c ->
  step isSuspiciousJump i c = Some c' ->
  Inv subs d0 c' /\ remaining c' < remaining c.
Proof.
  unfold Inv, step. intros HI.
  destruct (threads c !! i) as [th|] eqn:Hi; [|discriminate].
  pose proof (abstract_lookup _ _ _ Hi) as Hv.
  destruct th as [sub pc]. cbn [th_sub th_pc] in *.
  assert (Hstay : forall pc' d l r em,
            phase pc' = phase pc -> d = c_db c -> l = row_locks c ->
            steps_left pc' < steps_left pc ->
            InvOn subs d0 d l
              (abstract (goto i {| th_sub := sub; th_pc := pc |} pc' (threads c)))
            /\ remaining {| c_db := d; row_locks := l; c_redis := r;
                            c_emitted := em;
                            threads := goto i {| th_sub := sub; th_pc := pc |}
                                         pc' (threads c) |}
               < remaining c).
  { intros pc' d l r em Hp -> -> Hlt. split.
    - rewrite (abstract_goto_same _ _ _ _ Hi) by exact Hp. exact HI.
    - rewrite (remaining_goto c i _ _ _ _ _ _ Hi). cbn [th_pc]. lia. }
  assert (Habort : forall user0,
            phase pc = Holding user0 -> 0 < steps_left pc ->
            let c1 := abort i {| th_sub := sub; th_pc := pc |} c in
            InvOn subs d0 (c_db c1) (row_locks c1) (abstract (threads c1))
            /\ remaining c1 < remaining c).
  { intros user0 Hp Hpos c1. subst c1. unfold abort.
    cbn [c_db row_locks threads th_sub]. split.
    - rewrite abstract_goto. cbn [th_sub phase].
      apply (inv_abort _ _ _ _ _ user0); [exact HI|].
      rewrite Hv, Hp. reflexivity.
    - rewrite (remaining_goto c i _ _ _ _ _ _ Hi). cbn [th_pc steps_left]. lia. }
  assert (Hfail : phase pc = Waiting -> 0 < steps_left pc ->
            let c1 := proceed i {| th_sub := sub; th_pc := pc |}
                        (Finished R500_failed_to_update) c in
            InvOn subs d0 (c_db c1) (row_locks c1) (abstract (threads c1))
            /\ remaining c1 < remaining c).
  { intros Hp Hpos c1. subst c1. unfold proceed.
    cbn [c_db row_locks threads th_sub]. split.
    - rewrite abstract_goto. cbn [th_sub phase].
      apply inv_fail_waiting; [exact HI|]. rewrite Hv, Hp. reflexivity.
    - rewrite (remaining_goto c i _ _ _ _ _ _ Hi). cbn [th_pc steps_left]. lia. }
  destruct pc as [|u0|u0|u0|u0|u0|u0|u0|r|]; cbn [phase] in Hv.
  - (* SELECT ... FOR UPDATE *)
    case_bool_decide.
    { intros [= <-]. apply Hfail; [reflexivity|cbn; lia]. }
    destruct (row_locks c !! sub_user sub) as [holder|] eqn:Hl; [discriminate|].
    destruct (users (c_db c) !! sub_user sub) as [user0|] eqn:Hu.
    + intros [= <-]. cbn [c_db row_locks threads]. split.
      * rewrite abstract_goto. cbn [th_sub phase].
        apply inv_acquire; assumption.
      * rewrite (remaining_goto c i _ _ _ _ _ _ Hi). cbn. lia.
    + intros [= <-]. apply Hfail; [reflexivity|cbn; lia].
  - (* UPDATE *)
    destruct (_ || _).
    + intros [= <-]. apply (Habort u0); [reflexivity|cbn; lia].
    + intros [= <-]. apply Hstay; reflexivity.
  - (* INSERT INTO user_action_completions *)
    destruct (_ || _).
    { intros [= <-]. apply (Habort u0); [reflexivity|cbn; lia]. }
    repeat case_match; intros [= <-];
      first [ apply (Habort u0); [reflexivity|cbn; lia]
            | apply Hstay; reflexivity ].
  - (* INSERT INTO score_audit_logs *)
    destruct (_ || _).
    { intros [= <-]. apply (Habort u0); [reflexivity|cbn; lia]. }
    repeat case_match; intros [= <-];
      first [ apply (Habort u0); [reflexivity|cbn; lia]
            | apply Hstay; reflexivity ].
  - (* commitTransaction *)
    case_bool_decide.
    { intros [= <-]. apply (Habort u0); [reflexivity|cbn; lia]. }
    intros [= <-]. cbn [c_db row_locks threads]. split.
    + rewrite abstract_goto. cbn [th_sub phase].
      apply inv_commit; assumption.
    + rewrite (remaining_goto c i _ _ _ _ _ _ Hi). cbn. lia.
  - (* redis.del *)
    case_bool_decide; intros [= <-]; unfold proceed;
      apply Hstay; reflexivity.
  - (* redis.set *)
    case_bool_decide; intros [= <-]; unfold proceed;
      apply Hstay; reflexivity.
  - (* io.emit and the response *)
    case_bool_decide; intros [= <-]; unfold proceed;
      apply Hstay; reflexivity.
  - discriminate.
  - discriminate.
Qed.

Lemma inv_pick (c : Shared) (i : nat) :
  Inv subs d0 c -> Inv subs d0 (default c (step isSuspiciousJump i c)).
Proof.
  intros HI. destruct (step isSuspiciousJump i c) as [c'|] eqn:Hs; [|exact HI].
  exact (proj1 (inv_step c c' i HI Hs)).
Qed.

Lemma inv_run (schedule : list nat) (c : Shared) :
  Inv subs d0 c -> Inv subs d0 (run isSuspiciousJump schedule c).
Proof.
  revert c. induction schedule as [|i schedule IH]; intros c HI; [exact HI|].
  cbn. apply IH, inv_pick, HI.
Qed.

(** *** Progress: no interleaving gets stuck *)

(** While some invocation has not come to its end, some invocation can
    move: that one, or, when it waits for a row lock, the holder of that
    lock. *)
Lemma progress (c : Shared) (i : nat) (th : Thread) :
  Inv subs d0 c ->
  threads c !! i = Some th -> finished (th_pc th) = false ->
  exists j c', step isSuspiciousJump j c = Some c'.
Proof.
  intros HI Hi Hnf.
  destruct (step isSuspiciousJump i c) as [c'|] eqn:Hs; [eauto|].
  unfold step in Hs. rewrite Hi in Hs.
  destruct th as [sub pc]. cbn [th_sub th_pc] in *.
  destruct pc; try discriminate;
    try (repeat case_match; discriminate).
  case_bool_decide; [discriminate|].
  destruct (row_locks c !! sub_user sub) as [holder|] eqn:Hl;
    [|repeat case_match; discriminate].
  destruct (inv_lock_holder _ _ _ _ _ HI _ _ Hl) as (sub' & u0 & Hh & _).
  unfold abstract in Hh. rewrite list_lookup_fmap in Hh.
  destruct (threads c !! holder) as [th'|] eqn:Hth'; [|discriminate].
  injection Hh as Hsub Hph.
  exists holder. unfold step. rewrite Hth'.
  destruct (th_pc th'); try discriminate Hph; repeat case_match; eauto.
  destruct response; discriminate.
Qed.

Lemma find_unfinished (ths : list Thread) :
  forallb (fun th => finished (th_pc th)) ths = false ->
  exists i th, ths !! i = Some th /\ finished (th_pc th) = false.
Proof.
  induction ths as [|th ths IH]; [discriminate|]. cbn.
  destruct (finished (th_pc th)) eqn:Hf; cbn.
  - intros H. destruct (IH H) as (i & th' & Hi & Hnf).
    exists (S i), th'. auto.
  - intros _. exists 0%nat, th. auto.
Qed.

(** Every interleaving can be continued until all invocations have
    come to their end. *)
Lemma completes (c : Shared) :
  Inv subs d0 c ->
  exists schedule, all_finished (run isSuspiciousJump schedule c) = true.
Proof.
  remember (Z.to_nat (remaining c)) as n eqn:Hn.
  revert c Hn. induction n as [n IH] using lt_wf_ind. intros c Hn HI.
  destruct (all_finished c) eqn:Hall.
  - exists []. exact Hall.
  - apply find_unfinished in Hall as (i & th & Hi & Hnf).
    destruct (progress c i th HI Hi Hnf) as (j & c' & Hs).
    destruct (inv_step c c' j HI Hs) as [HI' Hlt].
    pose proof (remaining_nonneg c').
    destruct (IH (Z.to_nat (remaining c')) ltac:(lia) c' eq_refl HI')
      as [schedule Hdone].
    exists (j :: schedule). cbn. rewrite Hs. exact Hdone.
Qed.

(** *** Runs in which nothing fails *)

Lemma spread_elem (u : string) (l : list Submission) (i : nat)
    (sub : Submission) :
  l !! i = Some sub -> sub_user sub = u ->
  Z.abs (scoreReward (sub_action sub)) <= spread u l.
Proof.
  revert i. induction l as [|x l IH]; intros [|i] Hi Hu; try discriminate.
  - injection Hi as ->. unfold spread. cbn [map fold_right].
    rewrite bool_decide_eq_true_2 by exact Hu.
    pose proof (spread_nonneg u l) as Hn. unfold spread in Hn. lia.
  - cbn in Hi. specialize (IH i Hi Hu). unfold spread in *.
    cbn [map fold_right]. case_bool_decide; lia.
Qed.

(** With room for the rewards, the scores that the holder of a lock
    writes are in the range of their columns. *)
Lemma holder_in_range d locks v i sub user0 :
  InvOn subs d0 d locks v ->
  roomy d0 subs ->
  v !! i = Some (sub, Holding user0) ->
  INT (total_score user0) = true /\
  INT (scoreReward (sub_action sub)) = true /\
  INT (total_score user0 + scoreReward (sub_action sub)) = true.
Proof.
  intros HI Hroom Hi.
  destruct (inv_holder_lock _ _ _ _ _ HI i sub user0 Hi) as [_ Hrow].
  destruct (proj1 (inv_users _ _ _ _ _ HI (sub_user sub)) ltac:(eauto))
    as [row0 Hrow0].
  destruct (Hroom _ _ Hrow0) as [Hlo Hhi].
  pose proof (inv_score _ _ _ _ _ HI (sub_user sub)) as Hsc.
  unfold score_of in Hsc. rewrite Hrow, Hrow0 in Hsc. cbn in Hsc.
  pose proof (credited_bound (sub_user sub) v) as Hb.
  rewrite (inv_static _ _ _ _ _ HI) in Hb.
  pose proof (credited_bound (sub_user sub) (<[i := (sub, Credited)]> v)) as Hb'.
  rewrite (static_insert _ _ _ _ _ Hi), (inv_static _ _ _ _ _ HI) in Hb'.
  rewrite (credited_insert _ _ _ _ _ _ Hi) in Hb'.
  unfold credit in Hb'. cbn [fst snd] in Hb'.
  rewrite bool_decide_eq_true_2 in Hb' by reflexivity.
  pose proof (spread_elem (sub_user sub) subs i sub
                (inv_sub_lookup _ _ _ _ _ _ HI Hi) eq_refl) as Hr.
  unfold INT in *. lia.
Qed.

Lemma unharmed_goto (ths : list Thread) (i : nat) (th : Thread) (pc : Pc) :
  pc <> Rejected -> phase pc <> Failed ->
  (forall x, x ∈ ths -> unharmed x) ->
  forall x, x ∈ goto i th pc ths -> unharmed x.
Proof.
  intros H1 H2 Hall x Hx. unfold goto in Hx.
  apply list_elem_of_lookup in Hx as [j Hj].
  destruct (decide (i = j)) as [<-|Hne].
  - destruct (decide (i < length ths)%nat) as [Hlt|Hge].
    + rewrite list_lookup_insert_eq in Hj by exact Hlt.
      injection Hj as <-. split; assumption.
    + rewrite list_insert_ge in Hj by lia.
      apply Hall, list_elem_of_lookup. eauto.
  - rewrite list_lookup_insert_ne in Hj by exact Hne.
    apply Hall, list_elem_of_lookup. eauto.
Qed.

(** When no operation fails and there is room for the rewards, no
    invocation fails and none is rejected. *)
Lemma unharmed_step (c c' : Shared) (i : nat) :
  (forall sub, sub ∈ subs -> fault (sub_env sub) = None) ->
  roomy d0 subs ->
  Inv subs d0 c ->
  (forall th, th ∈ threads c -> unharmed th) ->
  step isSuspiciousJump i c = Some c' ->
  forall th, th ∈ threads c' -> unharmed th.
Proof.
  unfold Inv, step. intros Hnofault Hroom HI Hall.
  destruct (threads c !! i) as [th|] eqn:Hi; [|discriminate].
  pose proof (abstract_lookup _ _ _ Hi) as Hv.
  destruct th as [sub pc]. cbn [th_sub th_pc] in *.
  assert (Hf : fault (sub_env sub) = None).
  { apply Hnofault. rewrite <- (inv_static _ _ _ _ _ HI).
    apply list_elem_of_fmap. exists (sub, phase pc). split; [reflexivity|].
    apply list_elem_of_lookup. eauto. }
  rewrite Hf.
  assert (Hgo : forall pc', pc' <> Rejected -> phase pc' <> Failed ->
            forall x, x ∈ goto i {| th_sub := sub; th_pc := pc |} pc'
                            (threads c) -> unharmed x).
  { intros pc' H1 H2. apply unharmed_goto; assumption. }
  destruct pc as [|u0|u0|u0|u0|u0|u0|u0|r|]; cbn [phase] in Hv;
    rewrite ?bool_decide_eq_false_2 by discriminate; cbn [orb].
  - destruct (inv_inserts_pass _ _ _ _ _ _ HI Hv ltac:(discriminate))
      as ([user0 Hu] & _).
    destruct (row_locks c !! sub_user sub); [discriminate|].
    rewrite Hu. intros [= <-]. cbn [threads]. apply Hgo; discriminate.
  - destruct (holder_in_range _ _ _ _ _ _ HI Hroom Hv) as (H1 & H2 & H3).
    rewrite H3. cbn [negb].
    intros [= <-]. cbn [proceed threads]. apply Hgo; discriminate.
  - destruct (holder_in_range _ _ _ _ _ _ HI Hroom Hv) as (H1 & H2 & H3).
    destruct (inv_inserts_pass _ _ _ _ _ _ HI Hv ltac:(discriminate))
      as ([user0 Hu] & Ha & Hd).
    unfold completion_of in Hd. rewrite H2, Hu, Ha, Hd. cbn [negb].
    intros [= <-]. cbn [proceed threads]. apply Hgo; discriminate.
  - destruct (holder_in_range _ _ _ _ _ _ HI Hroom Hv) as (H1 & H2 & H3).
    destruct (inv_inserts_pass _ _ _ _ _ _ HI Hv ltac:(discriminate))
      as ([user0 Hu] & Ha & _).
    rewrite H1, H2, H3, Hu, Ha. cbn [negb andb].
    intros [= <-]. cbn [proceed threads]. apply Hgo; discriminate.
  - intros [= <-]. cbn [threads]. apply Hgo; discriminate.
  - intros [= <-]. cbn [threads]. apply Hgo; discriminate.
  - intros [= <-]. cbn [threads]. apply Hgo; discriminate.
  - intros [= <-]. cbn [threads]. apply Hgo; discriminate.
  - discriminate.
  - discriminate.
Qed.

Lemma unharmed_run (schedule : list nat) (c : Shared) :
  (forall sub, sub ∈ subs -> fault (sub_env sub) = None) ->
  roomy d0 subs ->
  Inv subs d0 c ->
  (forall th, th ∈ threads c -> unharmed th) ->
  forall th, th ∈ threads (run isSuspiciousJump schedule c) -> unharmed th.
Proof.
  intros Hnofault Hroom.
  revert c. induction schedule as [|i schedule IH]; intros c HI Hall;
    [exact Hall|].
  cbn. destruct (step isSuspiciousJump i c) as [c'|] eqn:Hs; cbn.
  - apply IH.
    + exact (proj1 (inv_step c c' i HI Hs)).
    + exact (unharmed_step c c' i Hnofault Hroom HI Hall Hs).
  - apply IH; assumption.
Qed.

(** *** The final state *)

Lemma committed_elem (c : Shared) (j : nat) (sub : Submission) :
  abstract (threads c) !! j = Some (sub, Credited) ->
  sub ∈ committed_subs c.
Proof.
  unfold abstract, committed_subs. rewrite list_lookup_fmap.
  destruct (threads c !! j) as [th|] eqn:Hth; [|discriminate].
  cbn. intros [= <- Hph].
  apply list_elem_of_fmap_2, list_elem_of_In, filter_In. split.
  - apply list_elem_of_In, list_elem_of_lookup. eauto.
  - unfold has_committed. rewrite Hph. reflexivity.
Qed.

Lemma filter_all {A} (f : A -> bool) (l : list A) :
  (forall x, x ∈ l -> f x = true) -> List.filter f l = l.
Proof.
  induction l as [|x l IH]; intros H; [reflexivity|]. cbn.
  rewrite (H x) by (apply elem_of_cons; auto).
  f_equal. apply IH. intros y Hy. apply H, elem_of_cons. auto.
Qed.

(** C7, amended.  Any number of valid submissions, of which no two of
    the same user are for the same action, are processed concurrently
    under the row lock of their locking reads, each with the operation
    that fails in it, if one does (an operation of its transaction, or
    one after its commit).  Whatever the interleaving of their
    operations: it can be continued until every invocation has come to
    its end; at every point of it, the score of a user is the initial
    score plus the sum of the rewards of that user's submissions whose
    transaction is committed, no more and no less, and [updated_at] is
    the [NOW()] of the one among them that committed last (the row is the
    initial one when there is none); and when no operation fails and the
    rewards leave every score within the range of its column, every
    invocation is answered 200 in the end, and the score is the initial
    score plus the sum of all the rewards. *)
Theorem no_lost_updates (r : gmap string RedisValue) (em : list Event)
    (schedule : list nat) (u : string) (row0 : UserRow) :
  users d0 !! u = Some row0 ->
  let c := run isSuspiciousJump schedule (start subs d0 r em) in
  (exists more, all_finished (run isSuspiciousJump more c) = true) /\
  (exists row news,
     users (c_db c) !! u = Some row /\
     total_score row = total_score row0 + rewards_of u (committed_subs c) /\
     user_action_completions (c_db c)
     = (user_action_completions d0 ++ news)%list /\
     match last_of u news with
     | Some x =>
         updated_at row = completed_at x /\
         exists sub, sub ∈ committed_subs c /\ sub_user sub = u /\
                     x = completion_of sub
     | None => row = row0
     end) /\
  (all_finished c = true ->
   (forall sub, sub ∈ subs -> fault (sub_env sub) = None) ->
   roomy d0 subs ->
   (forall th, th ∈ threads c ->
      exists n a b, th_pc th = Finished (R200 n a b)) /\
   committed_subs c = subs /\
   exists row,
     users (c_db c) !! u = Some row /\
     total_score row = total_score row0 + rewards_of u subs).
Proof.
  intros Hu c.
  assert (HI : Inv subs d0 c) by apply inv_run, inv_start.
  destruct (proj2 (inv_users _ _ _ _ _ HI u) ltac:(eauto)) as [row Hrow].
  assert (Hscore : total_score row
                   = total_score row0 + rewards_of u (committed_subs c)).
  { pose proof (inv_score _ _ _ _ _ HI u) as Hsc.
    unfold score_of in Hsc. rewrite Hrow, Hu in Hsc. cbn in Hsc.
    rewrite Hsc, credited_committed. reflexivity. }
  split; [apply completes; exact HI|]. split.
  - destruct (inv_log _ _ _ _ _ HI) as (news & Hnews & Hlast).
    exists row, news. split; [exact Hrow|]. split; [exact Hscore|].
    split; [exact Hnews|].
    specialize (Hlast u). destruct (last_of u news) as [x|].
    + destruct Hlast as [(j & sub & Hj & Hsu & Hx) Hup].
      rewrite Hrow in Hup. injection Hup as Hup. split; [exact Hup|].
      exists sub. split; [exact (committed_elem c j sub Hj)|auto].
    + rewrite Hrow, Hu in Hlast. congruence.
  - intros Hall Hnofault Hroom.
    assert (Hclean : forall th, th ∈ threads c -> unharmed th).
    { apply unharmed_run; try assumption; [apply inv_start|].
      intros th Hth. cbn in Hth. change (map ?f subs) with (f <$> subs) in Hth.
      apply list_elem_of_fmap in Hth as (sub & -> & _).
      split; discriminate. }
    assert (H200 : forall th, th ∈ threads c ->
                     exists n a b, th_pc th = Finished (R200 n a b)).
    { intros th Hth. destruct (Hclean th Hth) as [Hnr Hnf].
      unfold all_finished in Hall. rewrite forallb_forall in Hall.
      specialize (Hall th (proj1 (list_elem_of_In _ _) Hth)).
      destruct (th_pc th) as [| | | | | | | |[]|]; try discriminate Hall;
        try contradiction; eauto; exfalso; apply Hnf; reflexivity. }
    assert (Hsubs : committed_subs c = subs).
    { unfold committed_subs. rewrite filter_all.
      - rewrite <- (inv_static _ _ _ _ _ HI). unfold abstract.
        rewrite <- list_fmap_compose. reflexivity.
      - intros th Hth. destruct (H200 th Hth) as (n & a & b & Hpc).
        unfold has_committed. rewrite Hpc. reflexivity. }
    split; [exact H200|]. split; [exact Hsubs|].
    exists row. split; [exact Hrow|]. rewrite Hsubs in Hscore. exact Hscore.
Qed.

End Interleavings.

(** *** Concurrent submissions of one user *)

Lemma two_submissions_valid :
  forall sub, sub ∈ two_submissions -> valid db0 sub.
Proof.
  intros sub Hin. unfold two_submissions in Hin.
  apply elem_of_cons in Hin as [->|Hin];
    [|apply elem_of_cons in Hin as [->|Hin];
      [|apply elem_of_nil in Hin as []]];
    (split; [reflexivity|]); (split; [reflexivity|]);
    (split; [eexists; reflexivity|]); (split; [reflexivity|]);
    (split; [cbn; lia|reflexivity]).
Qed.

Lemma two_submissions_distinct : distinct two_submissions.
Proof.
  intros i j si sj Hi Hj Hne _.
  destruct i as [|[|i]], j as [|[|j]]; try discriminate Hi; try discriminate Hj;
    try contradiction;
    injection Hi as <-; injection Hj as <-; cbn; discriminate.
Qed.

Lemma three_submissions_valid :
  forall sub, sub ∈ three_submissions -> valid db0 sub.
Proof.
  intros sub Hin. unfold three_submissions in Hin.
  repeat (apply elem_of_cons in Hin as [->|Hin]);
    [| | |apply elem_of_nil in Hin as []];
    (split; [reflexivity|]); (split; [reflexivity|]);
    (split; [eexists; reflexivity|]); (split; [reflexivity|]);
    (split; [cbn; lia|reflexivity]).
Qed.

Lemma three_submissions_distinct : distinct three_submissions.
Proof.
  intros i j si sj Hi Hj Hne _.
  destruct i as [|[|[|i]]], j as [|[|[|j]]];
    try discriminate Hi; try discriminate Hj; try contradiction;
    injection Hi as <-; injection Hj as <-; cbn; discriminate.
Qed.

(** C7, as stated, fails on the version: after the two submissions have
    both been answered the score is the initial 0 plus both rewards, but
    [updated_at], which was 10, is the time of the last commit, 1001, and
    not 10 + 2. *)
Lemma two_commits_leave_a_time :
  let c := run never_suspicious interleaved (start two_submissions db0 ∅ []) in
  all_finished c = true /\
  total_score <$> users (c_db c) !! "u1" = Some (0 + 50 + 50) /\
  updated_at <$> users db0 !! "u1" = Some 10 /\
  updated_at <$> users (c_db c) !! "u1" = Some 1001 /\
  updated_at <$> users (c_db c) !! "u1" <> Some (10 + 2).
Proof.
  vm_compute. repeat split. intros [=].
Qed.

(** The sum of the rewards is not reached either when it does not fit
    into the column: of two submissions worth [2^30] points each, the one
    that commits first is answered 200, and the update of the other,
    which would store [2^31], is refused and answered 500. *)
Example second_big_reward_refused :
  let c := run never_suspicious interleaved (start big_submissions db_big ∅ []) in
  th_pc <$> threads c
    = [Finished (R200 1073741824 1073741824 false);
       Finished R500_failed_to_update] /\
  total_score <$> users (c_db c) !! "u1" = Some 1073741824.
Proof. vm_compute. repeat split. Qed.

Lemma two_submissions_roomy : roomy db0 two_submissions.
Proof.
  intros u row0 Hu. unfold db0 in Hu. cbn [users] in Hu.
  destruct (decide (u = "u1")) as [->|Hne].
  - rewrite lookup_insert_eq in Hu. injection Hu as <-.
    split; reflexivity.
  - rewrite lookup_insert_ne in Hu by congruence.
    rewrite lookup_empty in Hu. discriminate.
Qed.

Lemma no_lost_updates_witness :
  (let c := run never_suspicious one_by_one
              (start three_submissions db0 ∅ []) in
   th_pc <$> threads c
     = [Finished (R200 50 50 false); Finished (R200 100 50 false);
        Finished R500_failed_to_update] /\
   exists row news,
     users (c_db c) !! "u1" = Some row /\
     total_score row = 0 + rewards_of "u1" (committed_subs c) /\
     user_action_completions (c_db c)
     = (user_action_completions db0 ++ news)%list /\
     total_score row = 100 /\ updated_at row = 1001) /\
  (let c := run never_suspicious interleaved
              (start two_submissions db0 ∅ []) in
   committed_subs c = two_submissions /\
   exists row,
     users (c_db c) !! "u1" = Some row /\
     total_score row = 0 + rewards_of "u1" two_submissions).
Proof.
  split.
  - intros c. split; [vm_compute; reflexivity|].
    destruct (no_lost_updates never_suspicious three_submissions db0
                three_submissions_valid three_submissions_distinct ∅ []
                one_by_one "u1"
                {| total_score := 0; created_at := 0; updated_at := 10 |}
                eq_refl)
      as (_ & (row & news & Hrow & Hscore & Hnews & Hlast) & _).
    exists row, news. fold c in Hrow, Hscore, Hnews.
    split; [exact Hrow|]. split; [exact Hscore|]. split; [exact Hnews|].
    assert (Hrow' : users (c_db c) !! "u1"
                    = Some {| total_score := 100; created_at := 0;
                              updated_at := 1001 |})
      by (vm_compute; reflexivity).
    rewrite Hrow in Hrow'. injection Hrow' as ->. split; reflexivity.
  - intros c.
    destruct (no_lost_updates never_suspicious two_submissions db0
                two_submissions_valid two_submissions_distinct ∅ []
                interleaved "u1"
                {| total_score := 0; created_at := 0; updated_at := 10 |}
                eq_refl) as (_ & _ & Hall).
    destruct Hall as (_ & Hsubs & Hrow).
    + vm_compute. reflexivity.
    + intros sub Hin. unfold two_submissions in Hin.
      apply elem_of_cons in Hin as [->|Hin];
        [|apply elem_of_cons in Hin as [->|Hin];
          [|apply elem_of_nil in Hin as []]]; reflexivity.
    + exact two_submissions_roomy.
    + split; [exact Hsubs|exact Hrow].
Defined.

End ConcurrentFacts.

(** ** updateResource *)

Module ResourcesFacts.
Import Resources.

Lemma primary_key_unique (table : list Resource) (r1 r2 : Resource) :
  NoDup (map id table) -> r1 ∈ table -> r2 ∈ table -> id r1 = id r2 ->
  r1 = r2.
Proof.
  induction table as [|r table IH]; intros Hnd H1 H2 Hid.
  - apply elem_of_nil in H1 as [].
  - cbn in Hnd. apply NoDup_cons in Hnd as [Hnotin Hnd].
    apply elem_of_cons in H1 as [->|H1]; apply elem_of_cons in H2 as [->|H2].
    + reflexivity.
    + exfalso. apply Hnotin. rewrite Hid.
      apply (list_elem_of_fmap_2 id). exact H2.
    + exfalso. apply Hnotin. rewrite <- Hid.
      apply (list_elem_of_fmap_2 id). exact H1.
    + apply IH; assumption.
Qed.

Lemma findOneBy_Row (key : Key) (table : list Resource) (r : Resource) :
  findOneBy key table = Row r -> r ∈ table /\ key = Integer (id r).
Proof.
  unfold findOneBy. destruct key as [k| |]; [|discriminate..].
  destruct (find (fun r => id r =? k) table) as [found|] eqn:H;
    [|discriminate].
  intros [= ->]. apply find_some in H as [Hin Hid].
  apply Z.eqb_eq in Hid. subst k. split; [|reflexivity].
  apply list_elem_of_In. exact Hin.
Qed.

Example update_name_only :
  updateResource None (Integer 1) (Str "gamma") Undefined two_resources =
    ([ {| id := 1; name := "gamma"; description := Some "first" |};
       {| id := 2; name := "beta"; description := None |} ],
     R200 {| id := 1; name := "gamma"; description := Some "first" |})%string.
Proof. reflexivity. Qed.

(** An id that is not a number: the query fails, and the answer is 500. *)
Example update_not_a_number :
  updateResource None NotFinite (Str "gamma") Undefined two_resources
  = (two_resources, R500_update_failed) /\
  updateResource None Fraction (Str "gamma") Undefined two_resources
  = (two_resources, R404_not_found).
Proof. split; reflexivity. Qed.

(** C10.  An update changes no row's id and only the fields that the body
    gives: whatever the outcome (200, 404 or 500), the table keeps its
    rows in place, every row keeps its id, a row other than the requested
    one is untouched, and the requested row keeps its name when the body's
    [name] is undefined or null and its description when the body's
    [description] is undefined or null. *)
Theorem updateResource_frame (failing : option Step) (key : Key)
    (n d : Field) (table table' : list Resource) (resp : Response) :
  NoDup (map id table) ->
  updateResource failing key n d table = (table', resp) ->
  length table' = length table /\
  forall (i : nat) (r : Resource),
    table !! i = Some r ->
    exists r',
      table' !! i = Some r' /\
      id r' = id r /\
      (nullish n = true -> name r' = name r) /\
      (nullish d = true -> description r' = description r) /\
      (key <> Integer (id r) -> r' = r).
Proof.
  intros Hpk. unfold updateResource.
  assert (Hsame : length table = length table /\
            forall (i : nat) (r : Resource), table !! i = Some r ->
              exists r', table !! i = Some r' /\ id r' = id r /\
                (nullish n = true -> name r' = name r) /\
                (nullish d = true -> description r' = description r) /\
                (key <> Integer (id r) -> r' = r)).
  { split; [reflexivity|]. intros i r Hi. exists r. auto. }
  case_bool_decide; [intros [= <- <-]; exact Hsame|].
  destruct (findOneBy key table) as [found| |] eqn:Hfind;
    [|intros [= <- <-]; exact Hsame..].
  case_bool_decide; [intros [= <- <-]; exact Hsame|].
  intros [= <- <-]. apply findOneBy_Row in Hfind as [Hfound Hkey].
  unfold save. split; [apply length_map|].
  intros i r Hi.
  change (map ?f table) with (f <$> table).
  rewrite list_lookup_fmap, Hi. cbn [fmap option_fmap option_map id].
  eexists; split; [reflexivity|].
  destruct (Z.eqb_spec (id r) (id found)) as [Heq|Hne].
  - assert (r = found) as ->.
    { apply (primary_key_unique table); auto.
      apply list_elem_of_lookup. eauto. }
    cbn. repeat split.
    + destruct n; [reflexivity| reflexivity | discriminate].
    + destruct d; [reflexivity| reflexivity | discriminate].
    + intros Hk. contradiction.
  - repeat split; auto.
Qed.

Lemma updateResource_frame_witness :
  exists r',
    fst (updateResource None (Integer 1) Null (Str "changed") two_resources) !! 0%nat
      = Some r' /\
    id r' = 1 /\ name r' = "alpha"%string.
Proof.
  assert (Hpk : NoDup (map id two_resources)).
  { cbn. repeat (apply NoDup_cons; split); try apply NoDup_nil_2;
      rewrite ?elem_of_cons, ?elem_of_nil; intuition discriminate. }
  destruct (updateResource_frame None (Integer 1) Null (Str "changed")
              two_resources
              (fst (updateResource None (Integer 1) Null (Str "changed") two_resources))
              (snd (updateResource None (Integer 1) Null (Str "changed") two_resources))
              Hpk eq_refl) as [_ H].
  destruct (H 0%nat {| id := 1; name := "alpha"; description := Some "first" |}
              eq_refl) as (r' & Hr' & Hid & Hname & _).
  exists r'. repeat split; [exact Hr'|exact Hid|exact (Hname eq_refl)].
Defined.

End ResourcesFacts.

(** ** sum_to_n.ts: inputs that are not positive integers *)

Module SumToNMore.
Import SumToN SumToNFacts.

(** [Math.trunc] returns the integer between zero and its argument that
    is closest to the argument. *)
Lemma Math_trunc_towards_zero (x : Q) (t : Z) :
  (0 <= x -> inject_Z t <= x /\ x < inject_Z (t + 1))%Q ->
  (x <= 0 -> inject_Z (t - 1) < x /\ x <= inject_Z t)%Q ->
  Math_trunc x = t.
Proof.
  destruct x as [p q]. unfold Math_trunc, Qle, Qlt. cbn.
  intros Hpos Hneg. rewrite !Z.mul_1_r in *.
  destruct (Z_le_gt_dec 0 p) as [Hp|Hp].
  - destruct (Hpos Hp) as [H1 H2].
    rewrite Z.quot_div_nonneg by lia.
    symmetry. apply (Z.div_unique p (Z.pos q) t (p - t * Z.pos q)); lia.
  - destruct (Hneg ltac:(lia)) as [H1 H2].
    replace p with (- - p) by lia. rewrite Z.quot_opp_l by lia.
    rewrite Z.quot_div_nonneg by lia.
    assert (- p / Z.pos q = - t) as ->; [|lia].
    symmetry. apply (Z.div_unique (- p) (Z.pos q) (- t) (- p + t * Z.pos q)); lia.
Qed.

(** X1.  An argument that is not an integer is rounded towards zero
    first.  For every rational [x], with [t] the integer next to [x] on
    the side of zero ([t <= x < t + 1] for [x >= 0], [t - 1 < x <= t] for
    [x <= 0]), and the sum for [t] within [Number.MAX_SAFE_INTEGER], the
    three functions return at [x] the sum of the integers from
    [min t 1] to [max t 1], given enough loop tests and room on the
    stack: so [sum_to_n(2.9)] is 3 and [sum_to_n(-1.5)] is 0. *)
Theorem sum_to_n_truncates (x : Q) (t : Z) (fuel depth : nat) :
  (0 <= x -> inject_Z t <= x /\ x < inject_Z (t + 1))%Q ->
  (x <= 0 -> inject_Z (t - 1) < x /\ x <= inject_Z t)%Q ->
  Z.abs (sum_from_to (Z.min t 1) (Z.max t 1)) <= MAX_SAFE_INTEGER ->
  loop_tests t <= Z.of_nat fuel ->
  call_depth t <= Z.of_nat depth ->
  sum_to_n_a fuel x = Some (Int (sum_from_to (Z.min t 1) (Z.max t 1))) /\
  sum_to_n_b depth x = Some (Int (sum_from_to (Z.min t 1) (Z.max t 1))) /\
  sum_to_n_c x = Int (sum_from_to (Z.min t 1) (Z.max t 1)).
Proof.
  intros Hpos Hneg Hs Hf Hd.
  pose proof (Math_trunc_towards_zero x t Hpos Hneg) as Ht.
  pose proof (sum_to_n_a_spec t fuel Hs Hf) as Ha.
  pose proof (sum_to_n_b_spec t depth Hs Hd) as Hb.
  pose proof (sum_to_n_c_spec t Hs) as Hc.
  unfold sum_to_n_a, sum_to_n_b, sum_to_n_c in *.
  rewrite Math_trunc_inject_Z in Ha, Hb, Hc. rewrite Ht. auto.
Qed.

Lemma sum_to_n_truncates_witness :
  sum_to_n_a 10 (29 # 10) = Some (Int 3) /\
  sum_to_n_b 10 (29 # 10) = Some (Int 3) /\
  sum_to_n_c (29 # 10) = Int 3 /\
  sum_to_n_c (-3 # 2) = Int 0.
Proof.
  assert (H1 : (0 <= 29 # 10 ->
                inject_Z 2 <= 29 # 10 /\ 29 # 10 < inject_Z (2 + 1))%Q).
  { intros _. split; [discriminate|reflexivity]. }
  assert (H2 : (29 # 10 <= 0 ->
                inject_Z (2 - 1) < 29 # 10 /\ 29 # 10 <= inject_Z 2)%Q).
  { intros H. exfalso. apply H. reflexivity. }
  assert (H3 : (0 <= -3 # 2 ->
                inject_Z (-1) <= -3 # 2 /\ -3 # 2 < inject_Z (-1 + 1))%Q).
  { intros H. exfalso. apply H. reflexivity. }
  assert (H4 : (-3 # 2 <= 0 ->
                inject_Z (-1 - 1) < -3 # 2 /\ -3 # 2 <= inject_Z (-1))%Q).
  { intros _. split; [reflexivity|discriminate]. }
  destruct (sum_to_n_truncates (29 # 10) 2 10 10 H1 H2
              ltac:(vm_compute; discriminate) ltac:(vm_compute; discriminate)
              ltac:(vm_compute; discriminate)) as (Ha & Hb & Hc).
  destruct (sum_to_n_truncates (-3 # 2) (-1) 10 10 H3 H4
              ltac:(vm_compute; discriminate) ltac:(vm_compute; discriminate)
              ltac:(vm_compute; discriminate)) as (_ & _ & Hc').
  repeat split; assumption.
Defined.

(** X2.  At zero and below the sum runs upwards to 1: on [-k], for a
    natural number [k] with [k (k + 1) / 2] up to [2^53], each function
    returns [1 - k (k + 1) / 2], given enough loop tests and room on the
    stack; so [sum_to_n(0)] is 1, not 0, and [sum_to_n(-1)] is 0. *)
Theorem sum_to_n_nonpositive (k : nat) (fuel depth : nat) :
  let n := - Z.of_nat k in
  Z.of_nat k * (Z.of_nat k + 1) / 2 <= 2 ^ 53 ->
  loop_tests n <= Z.of_nat fuel ->
  call_depth n <= Z.of_nat depth ->
  sum_to_n_a fuel (inject_Z n)
    = Some (Int (1 - Z.of_nat k * (Z.of_nat k + 1) / 2)) /\
  sum_to_n_b depth (inject_Z n)
    = Some (Int (1 - Z.of_nat k * (Z.of_nat k + 1) / 2)) /\
  sum_to_n_c (inject_Z n) = Int (1 - Z.of_nat k * (Z.of_nat k + 1) / 2).
Proof.
  intros n Hk Hf Hd.
  assert (H : sum_from_to (Z.min n 1) (Z.max n 1)
              = 1 - Z.of_nat k * (Z.of_nat k + 1) / 2).
  { rewrite sum_at. destruct (Z.leb_spec 1 n); [lia|].
    subst n. rewrite Z.opp_involutive. reflexivity. }
  assert (Hs : Z.abs (sum_from_to (Z.min n 1) (Z.max n 1)) <= MAX_SAFE_INTEGER).
  { rewrite H. unfold MAX_SAFE_INTEGER.
    assert (0 <= Z.of_nat k * (Z.of_nat k + 1) / 2)
      by (apply Z.div_pos; nia).
    lia. }
  rewrite <- H.
  split; [apply sum_to_n_a_spec; assumption|].
  split; [apply sum_to_n_b_spec; assumption|].
  apply sum_to_n_c_spec; assumption.
Qed.

Lemma sum_to_n_nonpositive_witness :
  sum_to_n_a 3 (inject_Z 0) = Some (Int 1) /\
  sum_to_n_b 2 (inject_Z 0) = Some (Int 1) /\
  sum_to_n_c (inject_Z 0) = Int 1 /\
  sum_to_n_c (inject_Z (-1)) = Int 0.
Proof.
  destruct (sum_to_n_nonpositive 0 3 2 ltac:(vm_compute; discriminate)
              ltac:(vm_compute; discriminate) ltac:(vm_compute; discriminate))
    as (Ha & Hb & Hc).
  destruct (sum_to_n_nonpositive 1 4 3 ltac:(vm_compute; discriminate)
              ltac:(vm_compute; discriminate) ltac:(vm_compute; discriminate))
    as (_ & _ & Hc').
  repeat split; assumption.
Defined.

End SumToNMore.

(** ** detectAnomalies: which submissions are flagged *)

Module AnomalyMore.
Import Anomaly AnomalyWorlds.

#[local] Open Scope string_scope.
#[local] Open Scope Z_scope.

(** X3.  A submission is flagged exactly when at least three of the four
    checks fire: no two weights exceed 70 together (the largest pair,
    40 + 30, is exactly 70) and every three do.  For an existing user
    there is always such a verdict, unless one of the reads that the run
    awaits fails, which rejects the promise. *)
Theorem suspicious_iff_three_checks (w : World) (userId : string)
    (newScore r : Z) (user : User) :
  User_findById w userId = Some user ->
  match detectAnomalies w userId newScore r with
  | Some v =>
      isSuspicious v =
        (3 <=? Z.b2z (check1 w userId r) + Z.b2z (check2 w user)
               + Z.b2z (check3 w userId) + Z.b2z (check4 w userId))
  | None => exists rd, failing w = Some rd /\ performed w userId rd = true
  end.
Proof.
  intros Hu. unfold detectAnomalies, rejects, performed. rewrite Hu.
  unfold check1, check2, check3, check4.
  destruct (failing w) as [[]|];
    rewrite ?bool_decide_eq_false_2 by discriminate;
    rewrite ?bool_decide_eq_true_2 by reflexivity;
    try (eexists; split; reflexivity);
    destruct (exceeds_5x r _);
    try (eexists; split; reflexivity);
    destruct (Date_now w - createdAt user <? _);
    try (eexists; split; reflexivity);
    destruct (getActionCount w userId 300 >? 20);
    try (eexists; split; reflexivity);
    destruct (getLastClientIP w userId) as [ip|];
    repeat case_bool_decide;
    try reflexivity;
    try (eexists; split; reflexivity).
Qed.

Lemma suspicious_iff_three_checks_witness :
  exists v,
    detectAnomalies world_two_days_later "u1" 1050 1000 = Some v /\
    isSuspicious v = true.
Proof.
  pose proof (suspicious_iff_three_checks world_two_days_later "u1" 1050 1000
                {| createdAt := 0 |} eq_refl) as H.
  destruct (detectAnomalies world_two_days_later "u1" 1050 1000) as [v|] eqn:Hv.
  - exists v. split; [reflexivity|]. rewrite H. reflexivity.
  - discriminate Hv.
Defined.

(** X4.  A user with no completed action and no recorded address cannot
    be flagged, however large the reward: on an empty history the average
    is [NaN] and the first check is skipped, without a last address the
    fourth is skipped, and the two that are left add up to 60 at most.
    For an existing user there is always such a verdict, unless one of
    the reads that the run awaits fails, which rejects the promise. *)
Theorem first_submission_never_flagged (w : World) (userId : string)
    (newScore r : Z) (user : User) :
  User_findById w userId = Some user ->
  getUserScoreHistory w userId 10 = [] ->
  getLastClientIP w userId = None ->
  match detectAnomalies w userId newScore r with
  | Some v =>
      isSuspicious v = false /\
      anomalyScore v <= 60 /\
      ~ In (ExceptionalReward r None) (reasons v)
  | None => exists rd, failing w = Some rd /\ performed w userId rd = true
  end.
Proof.
  intros Hu Hh Hip. unfold detectAnomalies, rejects, performed.
  rewrite Hu, Hh, Hip.
  destruct (failing w) as [[]|];
    rewrite ?bool_decide_eq_false_2 by discriminate;
    rewrite ?bool_decide_eq_true_2 by reflexivity;
    cbn;
    try (eexists; split; reflexivity);
    destruct (Date_now w - createdAt user <? _);
    try (eexists; split; reflexivity);
    destruct (getActionCount w userId 300 >? 20);
    try (eexists; split; reflexivity);
    cbn; repeat split; try lia; intuition discriminate.
Qed.

Lemma first_submission_never_flagged_witness :
  exists v,
    detectAnomalies world_first_submission "u9" 1000000 1000000 = Some v /\
    isSuspicious v = false /\ anomalyScore v <= 60.
Proof.
  pose proof (first_submission_never_flagged world_first_submission "u9"
                1000000 1000000 {| createdAt := 0 |} eq_refl eq_refl eq_refl)
    as H.
  destruct (detectAnomalies world_first_submission "u9" 1000000 1000000)
    as [v|] eqn:Hv.
  - exists v. destruct H as (Hs & Hle & _). auto.
  - discriminate Hv.
Defined.

End AnomalyMore.

(** ** validateJWT *)

Module AuthFacts.
Import Auth.

#[local] Open Scope string_scope.

Lemma split_nonempty (sep : Ascii.ascii) (s : string) : split sep s <> [].
Proof.
  destruct s as [|c s]; cbn; [discriminate|].
  destruct (Ascii.eqb c sep); [discriminate|].
  destruct (split sep s); discriminate.
Qed.

Lemma split_without_sep (sep : Ascii.ascii) (s : string) :
  occurs sep s = false -> split sep s = [s].
Proof.
  induction s as [|c s IH]; cbn; [reflexivity|].
  intros H. apply orb_false_iff in H as [Hc Hs].
  rewrite Hc, (IH Hs). reflexivity.
Qed.

Lemma split_at_sep (sep : Ascii.ascii) (a b : string) :
  occurs sep a = false ->
  split sep (a ++ String sep b) = a :: split sep b.
Proof.
  induction a as [|c a IH].
  - intros _. change ("" ++ String sep b) with (String sep b). cbn.
    rewrite Ascii.eqb_refl. reflexivity.
  - intros H. cbn in H. apply orb_false_iff in H as [Hc Ha].
    change (String c a ++ String sep b) with (String c (a ++ String sep b)).
    cbn. rewrite Hc, (IH Ha). reflexivity.
Qed.

Section Verifier.

Variable jwt_verify : string -> option Decoded.

(** X5.  The middleware hands the second space-separated piece of the
    header to the verifier, whatever the first piece is and whatever
    follows the second: the scheme is not required to be [Bearer], and
    the outcome is the verifier's. *)
Theorem validateJWT_second_piece (scheme token rest : string) :
  occurs Ascii.Space scheme = false ->
  occurs Ascii.Space token = false ->
  token <> "" ->
  let outcome :=
    match jwt_verify token with
    | Some decoded => Next (userId decoded)
    | None => R401_invalid_token
    end in
  validateJWT jwt_verify (Some (scheme ++ " " ++ token)) = outcome /\
  validateJWT jwt_verify (Some (scheme ++ " " ++ token ++ " " ++ rest))
    = outcome.
Proof.
  intros Hs Ht Hne outcome. unfold validateJWT. split.
  - change (scheme ++ " " ++ token)
      with (scheme ++ String Ascii.Space token).
    rewrite (split_at_sep _ _ _ Hs), (split_without_sep _ _ Ht). cbn.
    destruct token; [contradiction|reflexivity].
  - change (scheme ++ " " ++ token ++ " " ++ rest)
      with (scheme ++ String Ascii.Space (token ++ String Ascii.Space rest)).
    rewrite (split_at_sep _ _ _ Hs), (split_at_sep _ _ _ Ht). cbn.
    destruct token; [contradiction|reflexivity].
Qed.

(** X6.  Without a second piece there is no token: a request with no
    [Authorization] header, with a header of one word, with a header that
    ends in its first space, or with two spaces after the scheme is
    answered 401 "Missing token", and the verifier is not consulted. *)
Theorem validateJWT_missing_token (word scheme rest : string) :
  occurs Ascii.Space word = false ->
  occurs Ascii.Space scheme = false ->
  validateJWT jwt_verify None = R401_missing_token /\
  validateJWT jwt_verify (Some word) = R401_missing_token /\
  validateJWT jwt_verify (Some (scheme ++ " ")) = R401_missing_token /\
  validateJWT jwt_verify (Some (scheme ++ " " ++ " " ++ rest))
    = R401_missing_token.
Proof.
  intros Hw Hs. unfold validateJWT. repeat split.
  - rewrite (split_without_sep _ _ Hw). reflexivity.
  - change (scheme ++ " ") with (scheme ++ String Ascii.Space "").
    rewrite (split_at_sep _ _ _ Hs). reflexivity.
  - change (scheme ++ " " ++ " " ++ rest)
      with (scheme ++ String Ascii.Space ("" ++ String Ascii.Space rest)).
    rewrite (split_at_sep _ _ _ Hs), (split_at_sep _ "" rest eq_refl).
    reflexivity.
Qed.

End Verifier.

Lemma validateJWT_second_piece_witness :
  validateJWT verify_one (Some "Basic t0k3n") = Next (Some "user-123") /\
  validateJWT verify_one (Some "Bearer t0k3n ignored words")
    = Next (Some "user-123").
Proof.
  split.
  - exact (proj1 (validateJWT_second_piece verify_one "Basic" "t0k3n" ""
                    eq_refl eq_refl ltac:(discriminate))).
  - exact (proj2 (validateJWT_second_piece verify_one "Bearer" "t0k3n"
                    "ignored words" eq_refl eq_refl ltac:(discriminate))).
Defined.

Lemma validateJWT_missing_token_witness :
  validateJWT verify_one (Some "t0k3n") = R401_missing_token /\
  validateJWT verify_one (Some "Bearer  t0k3n") = R401_missing_token.
Proof.
  destruct (validateJWT_missing_token verify_one "t0k3n" "Bearer" "t0k3n"
              eq_refl eq_refl) as (_ & H1 & _ & H2).
  split; [exact H1|exact H2].
Defined.

End AuthFacts.

(** ** rateLimitMiddleware *)

Module RateLimitFacts.
Import RateLimit.

#[local] Open Scope string_scope.
#[local] Open Scope Z_scope.

(** The first request of a window creates the counter and gives it its
    TTL of 60 seconds. *)
Lemma first_in_window (t : Z) (userId : string) (r : gmap string Counter) :
  lookup_alive t r ("ratelimit:" ++ userId) = None ->
  rateLimitMiddleware {| now := t; fault := None |} userId r =
    (<["ratelimit:" ++ userId :=
         {| count := 1; expires_at := Some (t + 60000) |}]> r,
     Next (Some 9)).
Proof.
  intros H. unfold rateLimitMiddleware, redis_incr, redis_expire.
  cbn [fault now]. rewrite H. cbn.
  unfold lookup_alive. rewrite lookup_insert_eq. cbn.
  rewrite insert_insert_eq. reflexivity.
Qed.

(** A later request counts up and leaves the TTL alone. *)
Lemma later_in_window (t : Z) (userId : string) (r : gmap string Counter)
    (k : nat) (x : option Z) :
  r !! ("ratelimit:" ++ userId)
    = Some {| count := Z.of_nat k; expires_at := x |} ->
  alive t {| count := Z.of_nat k; expires_at := x |} = true ->
  (1 <= k)%nat ->
  rateLimitMiddleware {| now := t; fault := None |} userId r =
    (<["ratelimit:" ++ userId :=
         {| count := Z.of_nat (S k); expires_at := x |}]> r,
     kth_in_window k).
Proof.
  intros Hr Ha Hk. unfold rateLimitMiddleware, redis_incr, lookup_alive.
  cbn [fault now]. rewrite Hr, Ha. cbn [bool_decide decide_rel count expires_at].
  case_bool_decide; [discriminate|].
  replace (Z.of_nat k + 1) with (Z.of_nat (S k)) by lia.
  destruct (Z.eqb_spec (Z.of_nat (S k)) 1) as [|_]; [lia|].
  unfold kth_in_window.
  destruct (Z.gtb_spec (Z.of_nat (S k)) 10), (Nat.ltb_spec k 10);
    try lia; [reflexivity|].
  do 3 f_equal. lia.
Qed.

Lemma serve_alive (ts : list Z) (userId : string) (r : gmap string Counter)
    (k : nat) (x : option Z) :
  r !! ("ratelimit:" ++ userId)
    = Some {| count := Z.of_nat k; expires_at := x |} ->
  (forall t, In t ts ->
     alive t {| count := Z.of_nat k; expires_at := x |} = true) ->
  (1 <= k)%nat ->
  serve ts userId r = map kth_in_window (seq k (length ts)).
Proof.
  revert r k. induction ts as [|t ts IH]; intros r k Hr Ha Hk; [reflexivity|].
  cbn [serve].
  rewrite (later_in_window t userId r k x Hr (Ha t (or_introl eq_refl)) Hk).
  cbn [length seq map]. f_equal.
  apply IH; [apply lookup_insert_eq| |lia].
  intros t' Ht'. specialize (Ha t' (or_intror Ht')).
  unfold alive in *. cbn in *. exact Ha.
Qed.

(** X7.  From the first request of a user whose counter is missing or
    has expired, the requests that arrive less than 60 seconds after it
    are counted in one window: the first ten pass, the [k]-th with
    [X-RateLimit-Remaining] set to [10 - k], and every further one is
    answered 429. *)
Theorem window_of_ten (userId : string) (r : gmap string Counter) (t0 : Z)
    (ts : list Z) :
  lookup_alive t0 r ("ratelimit:" ++ userId) = None ->
  (forall t, In t ts -> t < t0 + 60000) ->
  serve (t0 :: ts) userId r = map kth_in_window (seq 0 (S (length ts))).
Proof.
  intros Hnew Hts. cbn [serve]. rewrite (first_in_window t0 userId r Hnew).
  cbn [length seq map]. f_equal.
  apply (serve_alive ts userId _ 1 (Some (t0 + 60000)));
    [apply lookup_insert_eq| |lia].
  intros t Ht. cbn. apply Z.ltb_lt, Hts, Ht.
Qed.

Lemma window_of_ten_witness :
  serve [0; 100; 200; 300; 400; 500; 600; 700; 800; 900; 1000; 59999]
    "u1" ∅ =
  [Next (Some 9); Next (Some 8); Next (Some 7); Next (Some 6); Next (Some 5);
   Next (Some 4); Next (Some 3); Next (Some 2); Next (Some 1); Next (Some 0);
   R429 60; R429 60].
Proof.
  apply (window_of_ten "u1" ∅ 0
           [100; 200; 300; 400; 500; 600; 700; 800; 900; 1000; 59999]).
  - reflexivity.
  - intros t Ht. cbn in Ht.
    repeat (destruct Ht as [<-|Ht]; [lia|]). destruct Ht.
Defined.

(** X8.  When [EXPIRE] fails on the first request of a window, the
    request passes (the [catch] block calls [next()]) but the counter
    stays without a TTL; it then never resets: at whatever later times
    the next requests arrive, nine of them pass and all the others are
    answered 429. *)
Theorem failed_expire_never_resets (userId : string)
    (r : gmap string Counter) (t0 : Z) (ts : list Z) :
  lookup_alive t0 r ("ratelimit:" ++ userId) = None ->
  let '(r1, o) :=
    rateLimitMiddleware {| now := t0; fault := Some Expire |} userId r in
  o = Next None /\
  r1 !! ("ratelimit:" ++ userId) = Some {| count := 1; expires_at := None |} /\
  serve ts userId r1 = map kth_in_window (seq 1 (length ts)).
Proof.
  intros Hnew. unfold rateLimitMiddleware, redis_incr. cbn [fault now].
  rewrite Hnew. cbn. split; [reflexivity|].
  split; [apply lookup_insert_eq|].
  apply (serve_alive ts userId _ 1 None); [apply lookup_insert_eq| |lia].
  intros t _. reflexivity.
Qed.

Lemma failed_expire_never_resets_witness :
  let '(r1, o) :=
    rateLimitMiddleware {| now := 0; fault := Some Expire |} "u1" ∅ in
  o = Next None /\
  r1 !! "ratelimit:u1" = Some {| count := 1; expires_at := None |} /\
  serve [1; 2; 3; 4; 5; 6; 7; 8; 9; 86400000; 172800000] "u1" r1 =
  [Next (Some 8); Next (Some 7); Next (Some 6); Next (Some 5); Next (Some 4);
   Next (Some 3); Next (Some 2); Next (Some 1); Next (Some 0);
   R429 60; R429 60].
Proof.
  exact (failed_expire_never_resets "u1" ∅ 0
           [1; 2; 3; 4; 5; 6; 7; 8; 9; 86400000; 172800000] eq_refl).
Defined.

End RateLimitFacts.

(** ** checkReplay *)

Module ReplayFacts.
Import Replay.

#[local] Open Scope Z_scope.

Lemma occurrences_snoc (id : string) (a : LatestAction)
    (recent : list LatestAction) :
  occurrences id (recent ++ [a])
  = occurrences id recent + (if bool_decide (la_id a = id) then 1 else 0).
Proof.
  unfold occurrences. rewrite filter_app, length_app, filter_cons, filter_nil.
  case_bool_decide as H; destruct (decide (la_id a = id)); try contradiction;
    cbn [length]; lia.
Qed.

Lemma occurrences_nonneg (id : string) (recent : list LatestAction) :
  0 <= occurrences id recent.
Proof. unfold occurrences. lia. Qed.

Lemma count_ids_lookup (recent : list LatestAction) (id : string) :
  count_ids recent !! id = counted id (occurrences id recent).
Proof.
  induction recent as [|a recent IH] using rev_ind; [reflexivity|].
  unfold count_ids in *. rewrite fold_left_app. cbn [fold_left].
  rewrite occurrences_snoc.
  pose proof (occurrences_nonneg id recent) as Hn.
  set (counts := fold_left tally recent ∅) in *.
  destruct (decide (la_id a = id)) as [Ha|Ha];
    [rewrite (bool_decide_eq_true_2 _ Ha)|rewrite (bool_decide_eq_false_2 _ Ha)];
    unfold tally.
  - subst id. set (k := la_id a) in *. set (occ := occurrences k recent) in *.
    assert (Hz : (occ + 1 =? 0) = false) by (apply Z.eqb_neq; lia).
    rewrite IH. unfold counted. rewrite Hz.
    destruct (Z.eqb_spec occ 0) as [H0|H0];
      destruct (inherited k) eqn:Hi;
      try destruct (bool_decide (k = "__proto__"%string)) eqn:Hp;
      rewrite ?lookup_insert_eq, ?IH; unfold counted;
      rewrite ?Hi, ?Hp, ?H0; cbn; try reflexivity.
    destruct (occ =? 0); reflexivity.
  - replace (occurrences id recent + 0) with (occurrences id recent) by lia.
    rewrite <- IH.
    destruct (counts !! la_id a) as [[n|]|];
      [| |destruct (inherited (la_id a)); [case_bool_decide|]];
      rewrite ?lookup_insert_ne by exact Ha; reflexivity.
Qed.

Section CheckReplay.

Variable getUserLatestActions : string -> Z -> option (list LatestAction).

(** X9.  [checkReplay], taken with [async] added to its declaration (as
    the README writes it, the function awaits without being [async] and
    is a syntax error), resolves exactly when the read of the latest
    hundred actions of the user resolves, and rejects when that read
    rejects.  It resolves to true exactly when some action id that is
    not the name of a property that [{}] inherits occurs more than ten
    times among those actions.  An id such as [constructor] is never
    counted. *)
Theorem checkReplay_iff (userId actionId : string) :
  (checkReplay getUserLatestActions userId actionId = None <->
   getUserLatestActions userId 100 = None) /\
  (checkReplay getUserLatestActions userId actionId = Some true <->
   exists recent id,
     getUserLatestActions userId 100 = Some recent /\
     inherited id = false /\
     10 < occurrences id recent).
Proof.
  unfold checkReplay.
  destruct (getUserLatestActions userId 100) as [recent|].
  2:{ split; [tauto|]. split; [discriminate|].
      intros (recent & id & H & _). discriminate. }
  split; [split; discriminate|].
  transitivity
    (existsb more_than_10 (snd <$> map_to_list (count_ids recent)) = true).
  { split; congruence. }
  rewrite existsb_exists. split.
  - intros (c & Hc & Hgt). apply list_elem_of_In in Hc.
    apply list_elem_of_fmap in Hc as ([id c'] & -> & Hin).
    apply elem_of_map_to_list in Hin. rewrite count_ids_lookup in Hin.
    exists recent, id. split; [reflexivity|].
    cbn in Hgt. unfold counted in Hin.
    destruct (occurrences id _ =? 0); [discriminate|].
    destruct (inherited id).
    + case_bool_decide; [discriminate|]. injection Hin as <-. discriminate.
    + injection Hin as <-. cbn in Hgt. split; [reflexivity|lia].
  - intros (recent' & id & [= <-] & Hown & Hgt).
    exists (Num (occurrences id recent)). split.
    + apply list_elem_of_In, list_elem_of_fmap.
      exists (id, Num (occurrences id recent)).
      split; [reflexivity|]. apply elem_of_map_to_list.
      rewrite count_ids_lookup. unfold counted. rewrite Hown.
      destruct (Z.eqb_spec (occurrences id recent) 0);
        [lia|reflexivity].
    + cbn. apply Z.gtb_lt. lia.
Qed.

End CheckReplay.

Lemma occurrences_ids (id : string) (l1 l2 : list LatestAction) :
  map la_id l1 = map la_id l2 -> occurrences id l1 = occurrences id l2.
Proof.
  unfold occurrences. revert l2.
  induction l1 as [|a l1 IH]; intros [|b l2] H; try discriminate.
  - reflexivity.
  - injection H as Hab H. rewrite !filter_cons, Hab.
    destruct (decide (la_id b = id)); cbn [length]; specialize (IH l2 H); lia.
Qed.

(** X10.  Neither the completion times nor the [actionId] argument enter
    the answer of [checkReplay], taken with [async] added to its
    declaration (as written it is a syntax error): two reads that both
    reject, or that resolve to histories with the same action ids in the
    same order, get the same answer, so eleven completions of one action
    are flagged also when they lie days apart (the "in 60 seconds" of
    the comment is not checked). *)
Theorem checkReplay_ignores_time
    (g1 g2 : string -> Z -> option (list LatestAction))
    (userId actionId1 actionId2 : string) :
  map la_id <$> g1 userId 100 = map la_id <$> g2 userId 100 ->
  checkReplay g1 userId actionId1 = checkReplay g2 userId actionId2.
Proof.
  unfold checkReplay.
  destruct (g1 userId 100) as [l1|], (g2 userId 100) as [l2|];
    try discriminate; [|reflexivity].
  intros [= Hids].
  assert (H : count_ids l1 = count_ids l2).
  { apply map_eq. intros id. rewrite !count_ids_lookup.
    rewrite (occurrences_ids id _ _ Hids). reflexivity. }
  rewrite H. reflexivity.
Qed.

Lemma checkReplay_iff_witness :
  checkReplay (fun _ _ => Some eleven_spread_out) "u1" "a1" = Some true /\
  checkReplay (fun _ _ => Some eleven_inherited) "u1" "constructor"
  = Some false /\
  checkReplay (fun _ _ => None) "u1" "a1" = None.
Proof.
  split; [|split].
  - apply (proj2 (checkReplay_iff (fun _ _ => Some eleven_spread_out)
                    "u1" "a1")).
    exists eleven_spread_out, "a1"%string.
    split; [reflexivity|]. split; vm_compute; reflexivity.
  - vm_compute. reflexivity.
  - apply (proj1 (checkReplay_iff (fun _ _ => None) "u1" "a1")).
    reflexivity.
Defined.

Lemma checkReplay_ignores_time_witness :
  checkReplay (fun _ _ => Some eleven_spread_out) "u1" "a1" =
  checkReplay
    (fun _ _ =>
       Some (map (fun a => {| la_id := la_id a; la_completedAt := 0 |})
               eleven_spread_out)) "u1" "another".
Proof.
  apply (checkReplay_ignores_time (fun _ _ => Some eleven_spread_out));
    reflexivity.
Defined.

End ReplayFacts.

(** ** completeAction: edges, frame and sequences *)

Module ScoreboardMore.
Import Scoreboard ScoreboardFacts Ledger.

#[local] Open Scope string_scope.
#[local] Open Scope Z_scope.

Section Runs.

Variable isSuspiciousJump : string -> Z -> Z -> Action -> bool.

(** One run, in the three shapes that matter for the tables: nothing
    changed, or the transaction of the request was committed. *)
Lemma run_cases (e : Env) (req : Request) (s s' : Sys)
    (o : Outcome Response) :
  tx s = None ->
  completeAction isSuspiciousJump e req s = (o, s') ->
  s' = s \/
  exists a action u,
    req_body req !! "actionId" = Some a /\
    actions (committed s) !! a = Some action /\
    users (committed s) !! req_userId req = Some u /\
    committed s' = db_after isSuspiciousJump e req a action u (committed s) /\
    tx s' = None.
Proof.
  intros Htx Hrun.
  apply completeAction_inv in Hrun
    as [(_ & -> & _)|[(_ & -> & _)|(a & action & Hb & Ha & _ & _ & Hrun)]];
    [auto|auto|].
  destruct Hrun as [(t & _ & _ & ->)|[_ Hrun]]; [auto|].
  apply apply_completion_inv in Hrun
    as [(_ & -> & _)|[(_ & -> & _)|(u & Hu & _ & _ & _ & _ & Hdb & Htx' & _)]];
    [auto|auto| |exact Htx].
  right. exists a, action, u. auto.
Qed.

(** X11.  A request whose body has no [actionId], or one that no row of
    [actions] carries, is answered 400 and nothing is touched: not the
    tables, not the cache, and no transaction is started. *)
Theorem unknown_action_rejected (e : Env) (req : Request) (s : Sys) :
  fault e <> Some FindAction ->
  (forall a, req_body req !! "actionId" = Some a ->
             actions (committed s) !! a = None) ->
  completeAction isSuspiciousJump e req s = (Returned R400_invalid_action, s).
Proof.
  intros Hf Hno. unfold completeAction, Action_findById, attempt.
  cbv [bind ret throw get].
  case_bool_decide; [contradiction|].
  destruct (req_body req !! "actionId") as [a|] eqn:Hb; [|reflexivity].
  rewrite (Hno a eq_refl). reflexivity.
Qed.

(** X12.  What no run touches, whatever its outcome and whatever fails
    in it: the [actions] table, the rows of the other users, and the set
    of users; and no run leaves a transaction open. *)
Theorem completeAction_frame (e : Env) (req : Request) (s s' : Sys)
    (o : Outcome Response) :
  tx s = None ->
  completeAction isSuspiciousJump e req s = (o, s') ->
  tx s' = None /\
  actions (committed s') = actions (committed s) /\
  (forall other, other <> req_userId req ->
     users (committed s') !! other = users (committed s) !! other) /\
  (forall u, is_Some (users (committed s') !! u)
             <-> is_Some (users (committed s) !! u)).
Proof.
  intros Htx Hrun.
  destruct (run_cases e req s s' o Htx Hrun)
    as [->|(a & action & u & _ & _ & _ & Hdb & Htx')].
  - repeat split; auto.
  - rewrite Hdb. cbn [db_after actions users]. repeat split; auto.
    + intros other Hne. apply lookup_alter_ne. congruence.
    + rewrite lookup_alter_is_Some. auto.
    + rewrite lookup_alter_is_Some. auto.
Qed.

(** X13.  The completion table and the audit table only grow, by at most
    one row each and always together: the rows that were there stay as
    they were and in place. *)
Theorem tables_append_only (e : Env) (req : Request) (s s' : Sys)
    (o : Outcome Response) :
  tx s = None ->
  completeAction isSuspiciousJump e req s = (o, s') ->
  exists cs ls,
    user_action_completions (committed s')
      = (user_action_completions (committed s) ++ cs)%list /\
    score_audit_logs (committed s')
      = (score_audit_logs (committed s) ++ ls)%list /\
    length cs = length ls /\ (length cs <= 1)%nat /\
    (forall c, In c cs ->
       uac_user_id c = req_userId req /\ completed_at c = NOW e) /\
    (forall l, In l ls ->
       log_user_id l = req_userId req /\
       score_after l = score_before l + score_delta l).
Proof.
  intros Htx Hrun.
  destruct (run_cases e req s s' o Htx Hrun)
    as [->|(a & action & u & _ & _ & _ & Hdb & _)].
  - exists [], []. rewrite !app_nil_r.
    repeat split; auto; try (cbn; lia);
      match goal with H : In _ [] |- _ => destruct H end.
  - exists [new_completion e req a action],
           [new_audit isSuspiciousJump e req a action u].
    rewrite Hdb. cbn [db_after user_action_completions score_audit_logs].
    repeat split; auto;
      match goal with H : In _ _ |- _ => destruct H as [<-|[]] end;
      reflexivity.
Qed.

Lemma earned_app (u : string) (cs cs' : list Completion) :
  earned u (cs ++ cs') = earned u cs + earned u cs'.
Proof.
  unfold earned. rewrite map_app, fold_right_app.
  induction (map _ cs) as [|x l IH]; cbn; lia.
Qed.

Lemma ledger_step (e : Env) (req : Request) (s s' : Sys)
    (o : Outcome Response) (u : string) :
  tx s = None ->
  completeAction isSuspiciousJump e req s = (o, s') ->
  stored_score (committed s') u
    - earned u (user_action_completions (committed s'))
  = stored_score (committed s) u
    - earned u (user_action_completions (committed s)).
Proof.
  intros Htx Hrun.
  destruct (run_cases e req s s' o Htx Hrun)
    as [->|(a & action & u0 & _ & _ & Hu & Hdb & _)]; [reflexivity|].
  rewrite Hdb. unfold stored_score.
  cbn [db_after users user_action_completions].
  rewrite earned_app. unfold earned at 2.
  cbn [map fold_right new_completion uac_user_id score_earned].
  case_bool_decide as Hsame.
  - subst u. rewrite lookup_alter_eq, Hu. cbn. lia.
  - rewrite lookup_alter_ne by exact Hsame. lia.
Qed.

Lemma run_keeps_tx (e : Env) (req : Request) (s s' : Sys)
    (o : Outcome Response) :
  tx s = None ->
  completeAction isSuspiciousJump e req s = (o, s') -> tx s' = None.
Proof.
  intros Htx Hrun.
  destruct (run_cases e req s s' o Htx Hrun)
    as [->|(a & action & u & _ & _ & _ & _ & Htx')]; assumption.
Qed.

(** X14.  Over any sequence of requests, of any users, valid or not, and
    with any failures, the stored score of a user moves by exactly the
    points that the completion rows appended for that user record: the
    score never changes without a completion row, nor a row without the
    score. *)
Theorem ledger_balanced (requests : list (Env * Request)) (s : Sys)
    (u : string) :
  tx s = None ->
  let s' := submit_all isSuspiciousJump requests s in
  stored_score (committed s') u
    - earned u (user_action_completions (committed s'))
  = stored_score (committed s) u
    - earned u (user_action_completions (committed s)).
Proof.
  revert s. induction requests as [|[e req] requests IH]; intros s Htx;
    [reflexivity|].
  cbn. destruct (completeAction isSuspiciousJump e req s) as [o s1] eqn:Hrun.
  cbn [snd].
  rewrite <- (ledger_step e req s s1 o u Htx Hrun).
  apply IH. exact (run_keeps_tx e req s s1 o Htx Hrun).
Qed.

(** X15.  A valid request (a registered action, an existing user, no
    completion of that action by that user in the last 5000 ms, a clock
    that does not run backwards) in a run without failure (no operation
    fails, and the scores to be written are in the range of their
    columns) is answered 200 with the new score, and all of its effects
    are there: the score and [updated_at] of the user, one completion
    row, one audit row, the user's cache entry with a TTL of 60 s and no
    cached leaderboard, and one broadcast. *)
Theorem valid_request_applied (e : Env) (req : Request) (s : Sys)
    (a : string) (action : Action) (u : UserRow) :
  tx s = None ->
  req_body req !! "actionId" = Some a ->
  actions (committed s) !! a = Some action ->
  users (committed s) !! req_userId req = Some u ->
  cooling e (committed s) (req_userId req) a = None ->
  Date_now e <= NOW e ->
  fits u action = true ->
  fault e = None ->
  let newScore := total_score u + scoreReward action in
  exists s' flagged,
    completeAction isSuspiciousJump e req s
      = (Returned (R200 newScore (scoreReward action) flagged), s') /\
    users (committed s') !! req_userId req
      = Some {| total_score := newScore;
                created_at := created_at u;
                updated_at := NOW e |} /\
    user_action_completions (committed s')
      = (user_action_completions (committed s)
         ++ [{| uac_id := uuid_completion e;
                uac_user_id := req_userId req;
                uac_action_id := a;
                score_earned := scoreReward action;
                completed_at := NOW e;
                client_ip := req_ip req |}])%list /\
    length (score_audit_logs (committed s'))
      = S (length (score_audit_logs (committed s))) /\
    redis s' !! ("user:" ++ req_userId req ++ ":score")
      = Some (RNumber newScore 60) /\
    redis s' !! "leaderboard:top10" = None /\
    emitted s'
      = (emitted s ++ [{| ev_userId := req_userId req;
                          ev_newScore := newScore;
                          ev_scoreAdded := scoreReward action;
                          ev_timestamp := new_Date e |}])%list.
Proof.
  intros Htx Hb Ha Hu Hc Hclock Hfit Hf newScore.
  eexists _, _. split.
  - apply (completeAction_accepts isSuspiciousJump e req s a action u);
      assumption.
  - cbn [committed redis emitted db_after users user_action_completions
         score_audit_logs].
    repeat split.
    + rewrite lookup_alter_eq, Hu. reflexivity.
    + rewrite length_app. cbn. lia.
    + unfold redis_after. apply lookup_insert_eq.
    + unfold redis_after. rewrite lookup_insert_ne.
      * apply lookup_delete_eq.
      * intros H.
        apply (f_equal (fun k => match k with
                                 | String c _ => c
                                 | EmptyString => Ascii.zero
                                 end)) in H.
        cbv in H. discriminate H.
Qed.

(** X16.  When the cache or the broadcast fails after the commit of a
    valid request, the score, the completion row and the audit row are
    committed and stay, and nothing is answered: in the [catch] block
    [rollbackTransaction()] finds no open transaction and throws, so
    that [res.status(500)] is not reached and the promise of the handler
    rejects.  No broadcast is sent. *)
Theorem late_failure_keeps_commit (e : Env) (req : Request) (s : Sys)
    (a : string) (action : Action) (u : UserRow) :
  tx s = None ->
  req_body req !! "actionId" = Some a ->
  actions (committed s) !! a = Some action ->
  users (committed s) !! req_userId req = Some u ->
  cooling e (committed s) (req_userId req) a = None ->
  Date_now e <= NOW e ->
  fits u action = true ->
  after_commit (fault e) = true ->
  exists s',
    completeAction isSuspiciousJump e req s = (Thrown, s') /\
    committed s' = db_after isSuspiciousJump e req a action u (committed s) /\
    tx s' = None /\
    emitted s' = emitted s.
Proof.
  intros Htx Hb Ha Hu Hc Hclock Hfit Hf.
  pose proof (gate_excludes_duplicates e req a action (committed s) Hc Hclock)
    as Hd.
  destruct (completeAction isSuspiciousJump e req s) as [o s'] eqn:Hrun.
  exists s'.
  apply completeAction_inv in Hrun
    as [(_ & _ & [Hf'|Hf'])|[(_ & _ & Hno)|(a' & action' & Hb' & Ha' & _ & _ & Hrun)]].
  - rewrite Hf' in Hf. discriminate.
  - rewrite Hf' in Hf. discriminate.
  - rewrite (Hno a Hb) in Ha. discriminate.
  - assert (a' = a) as -> by congruence.
    assert (action' = action) as -> by congruence.
    destruct Hrun as [(t' & Hc' & _)|[_ Hrun]]; [congruence|].
    apply apply_completion_inv in Hrun
      as [(_ & _ & [Hf'|Hf'])|[(_ & _ & [Hin|[?|[?|[?|(u' & Hu' & Hnf)]]]])|
          (u' & Hu' & _ & _ & _ & _ & Hdb & Htx' & Hpost)]];
      try congruence; try exact Htx.
    + rewrite Hf' in Hf. discriminate.
    + rewrite Hf' in Hf. discriminate.
    + destruct (fault e) as [[]|]; discriminate.
    + assert (u' = u) as -> by congruence.
      destruct Hpost as [(_ & -> & _ & Hem)|[(_ & -> & _ & Hem)|
                         [(_ & -> & _ & Hem)|(Hac & _)]]];
        try (repeat split; assumption).
      congruence.
Qed.

Lemma latest_after_append (cs : list Completion) (new : Completion)
    (userId actionId : string) :
  matches userId actionId new = true ->
  (forall c, In c cs -> matches userId actionId c = true ->
             completed_at c < completed_at new) ->
  latest (cs ++ [new]) userId actionId = Some new.
Proof.
  intros Hm Hlt. unfold latest. rewrite fold_left_app. cbn [fold_left].
  unfold newer at 1. rewrite Hm.
  destruct (fold_left (newer userId actionId) cs None) as [b|] eqn:Hl;
    [|reflexivity].
  apply fold_newer_Some in Hl as ([[=]|[Hin Hmb]] & _).
  specialize (Hlt b Hin Hmb).
  destruct (Z.ltb_spec (completed_at b) (completed_at new)); [reflexivity|lia].
Qed.

(** X17.  Once a request has been applied (a valid request, in a run in
    which no operation fails and no write is refused), every further
    request of the same user for the same action whose cooldown check
    runs less than 5000 ms after the [NOW()] of that transaction is
    answered 409, with [nextAvailableAt] 5000 ms after that [NOW()], and
    changes nothing; this holds for a resend of the same body as for a
    new request. *)
Theorem applied_then_on_cooldown (e1 e2 : Env) (req1 req2 : Request)
    (s : Sys) (a : string) (action : Action) (u : UserRow) :
  tx s = None ->
  req_body req1 !! "actionId" = Some a ->
  actions (committed s) !! a = Some action ->
  users (committed s) !! req_userId req1 = Some u ->
  cooling e1 (committed s) (req_userId req1) a = None ->
  Date_now e1 <= NOW e1 ->
  fits u action = true ->
  fault e1 = None ->
  req_userId req2 = req_userId req1 ->
  req_body req2 !! "actionId" = Some a ->
  fault e2 <> Some FindAction -> fault e2 <> Some FindLastCompletion ->
  Date_now e2 - NOW e1 < 5000 ->
  let s1 := snd (completeAction isSuspiciousJump e1 req1 s) in
  completeAction isSuspiciousJump e2 req2 s1
    = (Returned (R409_on_cooldown (NOW e1 + 5000)), s1).
Proof.
  intros Htx Hb1 Ha Hu Hc Hclock Hfit Hf1 Hsame Hb2 Hf2 Hf2' Hsoon s1.
  subst s1.
  rewrite (completeAction_accepts isSuspiciousJump e1 req1 s a action u)
    by assumption.
  cbn [snd].
  apply (completeAction_on_cooldown isSuspiciousJump e2 req2 _ a action);
    try assumption; cbn [committed db_after actions user_action_completions].
  unfold cooling. cbn [db_after user_action_completions].
  rewrite Hsame, latest_after_append.
  - cbn [new_completion completed_at].
    destruct (Z.ltb_spec (Date_now e2 - NOW e1) 5000); [reflexivity|lia].
  - unfold matches. cbn [new_completion uac_user_id uac_action_id].
    rewrite !bool_decide_eq_true_2 by reflexivity. reflexivity.
  - intros c Hin Hm. cbn [new_completion completed_at].
    unfold matches in Hm. apply andb_true_iff in Hm as [Hcu Hca].
    apply bool_decide_eq_true in Hcu, Hca.
    unfold cooling in Hc.
    destruct (latest _ _ _) as [lc|] eqn:Hl.
    + apply latest_Some in Hl as (_ & _ & _ & Hmax).
      specialize (Hmax c Hin Hcu Hca).
      destruct (Z.ltb_spec (Date_now e1 - completed_at lc) 5000);
        [discriminate|lia].
    + exfalso. exact (latest_None _ _ _ Hl c Hin (conj Hcu Hca)).
Qed.

End Runs.

(** *** The verdict of the scorer *)

Lemma unflag_apply (f g : string -> Z -> Z -> Action -> bool) (e : Env)
    (req : Request) (a : string) (action : Action) (s : Sys) :
  tx s = None ->
  unflag (apply_completion f e req a action s)
  = unflag (apply_completion g e req a action s).
Proof.
  intros Htx. destruct s as [d t r em]. cbn in Htx. subst t.
  unfold_handler. simpl_sys.
  step_fault e Connect H1; [reflexivity|].
  step_fault e StartTransaction H2; [reflexivity|].
  step_fault e SelectUser H3; [reflexivity|].
  destruct (users d !! req_userId req) as [u|] eqn:Hu; simpl_sys;
    [|reflexivity].
  step_fault e UpdateUser H4; [reflexivity|].
  destruct (INT (total_score u + scoreReward action)) eqn:Hi1;
    cbn [negb andb]; simpl_sys; [|reflexivity].
  step_fault e InsertCompletion H5; [reflexivity|].
  cbn [score_earned].
  destruct (INT (scoreReward action)) eqn:Hi2; cbn [negb andb]; simpl_sys;
    [|reflexivity].
  run_tx Hu Hu.
  destruct (actions d !! a) as [ac|] eqn:Ha; simpl_sys; [|reflexivity].
  destruct (duplicates _ (user_action_completions d)) eqn:Hd; simpl_sys;
    [reflexivity|].
  step_fault e InsertAudit H6; [reflexivity|].
  cbn [score_delta score_before score_after]. rewrite Hi1, Hi2.
  destruct (INT (total_score u)) eqn:Hi3; cbn [negb andb]; simpl_sys;
    [|reflexivity].
  run_tx Hu Ha.
  step_fault e CommitTransaction H7; [reflexivity|].
  step_fault e RedisDel H8;
    [unfold unflag, unflag_db;
     cbn [fst snd committed tx redis emitted actions users
          user_action_completions score_audit_logs fmap option_fmap
          option_map];
     rewrite ?map_app; reflexivity|].
  step_fault e RedisSet H9;
    [unfold unflag, unflag_db;
     cbn [fst snd committed tx redis emitted actions users
          user_action_completions score_audit_logs fmap option_fmap
          option_map];
     rewrite ?map_app; reflexivity|].
  step_fault e IoEmit H10;
    [unfold unflag, unflag_db;
     cbn [fst snd committed tx redis emitted actions users
          user_action_completions score_audit_logs fmap option_fmap
          option_map];
     rewrite ?map_app; reflexivity|].
  unfold unflag, unflag_db;
    cbn [fst snd committed tx redis emitted actions users
         user_action_completions score_audit_logs fmap option_fmap option_map];
    rewrite ?map_app; reflexivity.
Qed.

(** X18.  The verdict of [isSuspiciousJump] is recorded and nothing else:
    with any two scorers a request gets the same answer up to the
    [flaggedForReview] field and leaves the same state up to the [details]
    of the audit row.  A flagged submission is applied like any other. *)
Theorem scorer_only_annotates (f g : string -> Z -> Z -> Action -> bool)
    (e : Env) (req : Request) (s : Sys) :
  tx s = None ->
  unflag (completeAction f e req s) = unflag (completeAction g e req s).
Proof.
  intros Htx.
  unfold completeAction, Action_findById, UserActionCompletion_findOne,
    attempt.
  cbv [bind ret throw get].
  case_bool_decide; [reflexivity|].
  destruct (req_body req !! "actionId") as [a|]; [|reflexivity].
  destruct (actions (committed s) !! a) as [action|]; [|reflexivity].
  case_bool_decide; [reflexivity|].
  destruct (latest _ _ _) as [lc|]; [|apply unflag_apply; exact Htx].
  destruct (Date_now e - completed_at lc <? 5000);
    [reflexivity|apply unflag_apply; exact Htx].
Qed.

(** *** Instances *)

Lemma unknown_action_rejected_witness :
  completeAction never_suspicious (env_at 0 "1" (Some SelectUser))
    (request "no-such-action" "r1") sys0
  = (Returned R400_invalid_action, sys0).
Proof.
  apply (unknown_action_rejected never_suspicious).
  - discriminate.
  - intros a [= <-]. reflexivity.
Defined.

Lemma completeAction_frame_witness :
  let s' := snd (completeAction never_suspicious (env_at 0 "1" None)
                   (request "a1" "r1") sys0) in
  tx s' = None /\ actions (committed s') = actions (committed sys0).
Proof.
  destruct (completeAction_frame never_suspicious (env_at 0 "1" None)
              (request "a1" "r1") sys0
              (snd (completeAction never_suspicious (env_at 0 "1" None)
                      (request "a1" "r1") sys0))
              (Returned (R200 50 50 false)) eq_refl eq_refl)
    as (Htx & Hact & _).
  split; assumption.
Defined.

Lemma tables_append_only_witness :
  exists cs ls,
    user_action_completions
      (committed (snd (completeAction never_suspicious (env_at 0 "1" None)
                         (request "a1" "r1") sys0)))
      = (user_action_completions (committed sys0) ++ cs)%list /\
    score_audit_logs
      (committed (snd (completeAction never_suspicious (env_at 0 "1" None)
                         (request "a1" "r1") sys0)))
      = (score_audit_logs (committed sys0) ++ ls)%list /\
    length cs = length ls.
Proof.
  destruct (tables_append_only never_suspicious (env_at 0 "1" None)
              (request "a1" "r1") sys0
              (snd (completeAction never_suspicious (env_at 0 "1" None)
                      (request "a1" "r1") sys0))
              (Returned (R200 50 50 false)) eq_refl eq_refl)
    as (cs & ls & Hc & Hl & Hlen & _).
  exists cs, ls. auto.
Defined.

Lemma ledger_balanced_witness :
  let s' :=
    submit_all never_suspicious
      [(env_at 0 "1" None, request "a1" "r1");
       (env_at 1000 "2" None, request "a1" "r1");
       (env_at 2000 "3" (Some RedisSet), request "a60" "r2");
       (env_at 3000 "4" (Some InsertAudit), request "a0" "r3")] sys0 in
  stored_score (committed s') "u1"
    - earned "u1" (user_action_completions (committed s'))
  = stored_score (committed sys0) "u1"
    - earned "u1" (user_action_completions (committed sys0)).
Proof.
  exact (ledger_balanced never_suspicious
           [(env_at 0 "1" None, request "a1" "r1");
            (env_at 1000 "2" None, request "a1" "r1");
            (env_at 2000 "3" (Some RedisSet), request "a60" "r2");
            (env_at 3000 "4" (Some InsertAudit), request "a0" "r3")]
           sys0 "u1" eq_refl).
Defined.

Lemma valid_request_applied_witness :
  exists s' flagged,
    completeAction never_suspicious (env_at 0 "1" None) (request "a1" "r1")
      sys0 = (Returned (R200 (0 + 50) 50 flagged), s') /\
    redis s' !! "user:u1:score" = Some (RNumber (0 + 50) 60).
Proof.
  destruct (valid_request_applied never_suspicious (env_at 0 "1" None)
              (request "a1" "r1") sys0 "a1"
              {| scoreReward := 50; cooldown_seconds := 5; is_active := true |}
              {| total_score := 0; created_at := 0; updated_at := 10 |}
              eq_refl eq_refl eq_refl eq_refl eq_refl ltac:(cbn; lia) eq_refl
              eq_refl)
    as (s' & flagged & Hrun & _ & _ & _ & Hredis & _).
  exists s', flagged. split; [exact Hrun|exact Hredis].
Defined.

Lemma late_failure_keeps_commit_witness :
  exists s',
    completeAction never_suspicious (env_at 0 "1" (Some IoEmit))
      (request "a1" "r1") sys0 = (Thrown, s') /\
    emitted s' = emitted sys0.
Proof.
  destruct (late_failure_keeps_commit never_suspicious
              (env_at 0 "1" (Some IoEmit)) (request "a1" "r1") sys0 "a1"
              {| scoreReward := 50; cooldown_seconds := 5; is_active := true |}
              {| total_score := 0; created_at := 0; updated_at := 10 |}
              eq_refl eq_refl eq_refl eq_refl eq_refl ltac:(cbn; lia) eq_refl
              eq_refl)
    as (s' & Hrun & _ & _ & Hem).
  exists s'. split; assumption.
Defined.

Lemma applied_then_on_cooldown_witness :
  completeAction never_suspicious (env_at 4999 "2" None) (request "a1" "r2")
    (snd (completeAction never_suspicious (env_at 0 "1" None)
            (request "a1" "r1") sys0))
  = (Returned (R409_on_cooldown (0 + 5000)),
     snd (completeAction never_suspicious (env_at 0 "1" None)
            (request "a1" "r1") sys0)).
Proof.
  apply (applied_then_on_cooldown never_suspicious (env_at 0 "1" None)
           (env_at 4999 "2" None) (request "a1" "r1") (request "a1" "r2")
           sys0 "a1"
           {| scoreReward := 50; cooldown_seconds := 5; is_active := true |}
           {| total_score := 0; created_at := 0; updated_at := 10 |});
    try reflexivity; try discriminate; cbn; lia.
Defined.

Lemma scorer_only_annotates_witness :
  unflag (completeAction never_suspicious (env_at 0 "1" None)
            (request "a1" "r1") sys0)
  = unflag (completeAction always_suspicious (env_at 0 "1" None)
              (request "a1" "r1") sys0) /\
  fst (completeAction always_suspicious (env_at 0 "1" None)
         (request "a1" "r1") sys0) = Returned (R200 50 50 true).
Proof.
  split; [|reflexivity].
  exact (scorer_only_annotates never_suspicious always_suspicious
           (env_at 0 "1" None) (request "a1" "r1") sys0 eq_refl).
Defined.

End ScoreboardMore.

(** ** Concurrent requests: the row lock *)

Module ConcurrentMore.
Import Scoreboard Concurrent ConcurrentFacts.

#[local] Open Scope string_scope.
#[local] Open Scope Z_scope.

(** X19.  In every state that an interleaving of valid, distinct
    submissions reaches, two different invocations of the same user are
    never both between their locking read and the end of their
    transaction; and the row that an invocation read under the lock is
    still the committed row of the user, so that the score it writes is
    computed from the current one. *)
Theorem row_lock_excludes
    (isSuspiciousJump : string -> Z -> Z -> Action -> bool)
    (subs : list Submission) (d0 : Db)
    (r : gmap string RedisValue) (em : list Event) (schedule : list nat)
    (i j : nat) (thi thj : Thread) (rowi rowj : UserRow) :
  (forall sub, sub ∈ subs -> valid d0 sub) ->
  distinct subs ->
  let c := run isSuspiciousJump schedule (start subs d0 r em) in
  threads c !! i = Some thi ->
  threads c !! j = Some thj ->
  phase (th_pc thi) = Holding rowi ->
  phase (th_pc thj) = Holding rowj ->
  sub_user (th_sub thi) = sub_user (th_sub thj) ->
  i = j /\ users (c_db c) !! sub_user (th_sub thi) = Some rowi.
Proof.
  intros Hvalid Hdistinct c Hi Hj Hpi Hpj Hsame.
  assert (HI : Inv subs d0 c).
  { apply inv_run; try assumption. apply inv_start; assumption. }
  pose proof (abstract_lookup _ _ _ Hi) as Hvi.
  pose proof (abstract_lookup _ _ _ Hj) as Hvj.
  rewrite Hpi in Hvi. rewrite Hpj in Hvj.
  destruct (inv_holder_lock _ _ _ _ _ HI _ _ _ Hvi) as [Hli Hrow].
  destruct (inv_holder_lock _ _ _ _ _ HI _ _ _ Hvj) as [Hlj _].
  split; [congruence|exact Hrow].
Qed.

Lemma row_lock_excludes_witness :
  let c := run never_suspicious [0; 1; 0; 1]%nat
             (start two_submissions db0 ∅ []) in
  users (c_db c) !! "u1"
  = Some {| total_score := 0; created_at := 0; updated_at := 10 |}.
Proof.
  intros c.
  exact (proj2 (row_lock_excludes never_suspicious two_submissions db0 ∅ []
                  [0; 1; 0; 1]%nat 0%nat 0%nat
                  {| th_sub := submission "a1" "1" 1000;
                     th_pc := AtInsertCompletion
                                {| total_score := 0; created_at := 0;
                                   updated_at := 10 |} |}
                  {| th_sub := submission "a1" "1" 1000;
                     th_pc := AtInsertCompletion
                                {| total_score := 0; created_at := 0;
                                   updated_at := 10 |} |}
                  _ _
                  two_submissions_valid two_submissions_distinct
                  eq_refl eq_refl eq_refl eq_refl eq_refl)).
Defined.

End ConcurrentMore.

(** ** The resource controller *)

Module CrudFacts.
Import Resources ResourcesFacts Crud.

#[local] Open Scope Z_scope.

Lemma find_id_none (k : Z) (table : list Resource) :
  find (fun r => id r =? k) table = None <->
  forall r, r ∈ table -> id r <> k.
Proof.
  induction table as [|x table IH]; cbn.
  - split; [|reflexivity]. intros _ r Hr. apply elem_of_nil in Hr as [].
  - destruct (Z.eqb_spec (id x) k) as [Heq|Hne].
    + split; [discriminate|]. intros H. exfalso.
      apply (H x); [apply elem_of_cons; auto|exact Heq].
    + rewrite IH. split.
      * intros H r Hr. apply elem_of_cons in Hr as [->|Hr]; auto.
      * intros H r Hr. apply H, elem_of_cons. auto.
Qed.

Lemma find_id_app (k : Z) (t1 t2 : list Resource) :
  find (fun r => id r =? k) (t1 ++ t2) =
    match find (fun r => id r =? k) t1 with
    | Some r => Some r
    | None => find (fun r => id r =? k) t2
    end.
Proof.
  induction t1 as [|x t1 IH]; cbn; [reflexivity|].
  destruct (id x =? k); [reflexivity|exact IH].
Qed.

Lemma fresh_id (g : Z) (table : list Resource) :
  existsb (fun r => id r =? g) table = false ->
  forall r, r ∈ table -> id r <> g.
Proof.
  intros H r Hr Heq.
  assert (existsb (fun r => id r =? g) table = true) as H'.
  { apply existsb_exists. exists r. split; [apply list_elem_of_In, Hr|].
    apply Z.eqb_eq, Heq. }
  congruence.
Qed.

Lemma primary_key_snoc (table : list Resource) (r : Resource) :
  primary_key table -> (forall x, x ∈ table -> id x <> id r) ->
  primary_key (table ++ [r]).
Proof.
  unfold primary_key. intros Hpk Hfresh.
  rewrite map_app. apply NoDup_app. split; [exact Hpk|]. split.
  - intros k Hk Hk'. cbn in Hk'. apply list_elem_of_singleton in Hk'.
    subst k. change (map id table) with (id <$> table) in Hk.
    apply list_elem_of_fmap in Hk as (x & Hx & Hin).
    exact (Hfresh x Hin (eq_sym Hx)).
  - cbn. apply NoDup_singleton.
Qed.

(** X20.  A created resource gets the generated id and the name and
    description of the body, is appended to the table, and is what a GET
    of that id returns from then on; the GETs of the other ids answer as
    before, and the ids stay a primary key. *)
Theorem create_then_get (generated : Z) (n : string) (d : Field)
    (table : list Resource) :
  primary_key table ->
  existsb (fun r => id r =? generated) table = false ->
  let resource :=
    {| id := generated; name := n; description := description_of d |} in
  createResource false generated (Str n) d table
    = (table ++ [resource], Created resource) /\
  primary_key (table ++ [resource]) /\
  getResource false (Integer generated) (table ++ [resource]) = Found resource /\
  (forall k, k <> generated ->
     getResource false (Integer k) (table ++ [resource])
     = getResource false (Integer k) table).
Proof.
  intros Hpk Hfresh resource. pose proof (fresh_id _ _ Hfresh) as Hne.
  repeat split.
  - unfold createResource. rewrite Hfresh. reflexivity.
  - apply primary_key_snoc; [exact Hpk|exact Hne].
  - unfold getResource, findOneBy. rewrite find_id_app.
    rewrite (proj2 (find_id_none generated table) Hne). cbn.
    rewrite Z.eqb_refl. reflexivity.
  - intros k Hk. unfold getResource, findOneBy. rewrite find_id_app.
    destruct (find (fun r => id r =? k) table); [reflexivity|]. cbn.
    destruct (Z.eqb_spec generated k); [congruence|reflexivity].
Qed.

Lemma remove_spec (target : Resource) (table : list Resource) (r : Resource) :
  r ∈ remove target table <-> r ∈ table /\ id r <> id target.
Proof.
  unfold remove. rewrite !list_elem_of_In, filter_In.
  destruct (Z.eqb_spec (id r) (id target)); cbn; intuition congruence.
Qed.

Lemma find_remove_other (target : Resource) (k : Z) (table : list Resource) :
  k <> id target ->
  find (fun r => id r =? k) (remove target table)
  = find (fun r => id r =? k) table.
Proof.
  intros Hk. unfold remove. induction table as [|x table IH]; [reflexivity|].
  cbn. destruct (Z.eqb_spec (id x) (id target)) as [Heq|Hne]; cbn.
  - destruct (Z.eqb_spec (id x) k); [congruence|exact IH].
  - destruct (id x =? k); [reflexivity|exact IH].
Qed.

Lemma primary_key_remove (target : Resource) (table : list Resource) :
  primary_key table -> primary_key (remove target table).
Proof.
  unfold primary_key, remove. induction table as [|x table IH]; cbn;
    [auto|].
  intros Hpk. apply NoDup_cons in Hpk as [Hx Hpk].
  destruct (negb (id x =? id target)); [|auto]. cbn.
  apply NoDup_cons. split; [|auto].
  intros Hin. apply Hx.
  change (map id ?l) with (id <$> l) in *.
  apply list_elem_of_fmap in Hin as (y & Hy & Hin).
  apply list_elem_of_In, filter_In in Hin as [Hin _].
  rewrite Hy. apply list_elem_of_fmap_2, list_elem_of_In, Hin.
Qed.

(** X21.  Deleting an existing resource removes its row and no other:
    a GET of the id then answers 404, a second DELETE answers 404 and
    changes nothing, every other id is found as before, and the ids stay
    a primary key. *)
Theorem delete_then_gone (k : Z) (r : Resource) (table : list Resource) :
  primary_key table ->
  findOneBy (Integer k) table = Row r ->
  exists table',
    deleteResource None (Integer k) table = (table', Deleted) /\
    getResource false (Integer k) table' = NotFound /\
    deleteResource None (Integer k) table' = (table', NotFound) /\
    (forall k', k' <> k ->
       getResource false (Integer k') table' = getResource false (Integer k') table) /\
    length table' = pred (length table) /\
    primary_key table'.
Proof.
  intros Hpk Hfind. exists (remove r table).
  pose proof (findOneBy_Row _ _ _ Hfind) as [Hin [= Hk]].
  assert (Hgone : find (fun x => id x =? k) (remove r table) = None).
  { apply find_id_none. intros x Hx. apply remove_spec in Hx as [_ Hx].
    congruence. }
  repeat split.
  - unfold deleteResource. cbn [bool_decide decide_rel]. rewrite Hfind.
    reflexivity.
  - unfold getResource, findOneBy. rewrite Hgone. reflexivity.
  - unfold deleteResource, findOneBy. cbn. rewrite Hgone. reflexivity.
  - intros k' Hk'. unfold getResource, findOneBy.
    rewrite find_remove_other by congruence. reflexivity.
  - clear Hgone Hfind. unfold remove.
    induction table as [|x table IH]; [apply elem_of_nil in Hin as []|].
    cbn in Hpk. apply NoDup_cons in Hpk as [Hx Hpk]. cbn.
    apply elem_of_cons in Hin as [->|Hin].
    + rewrite Z.eqb_refl. cbn. f_equal.
      clear IH. induction table as [|y table IH]; [reflexivity|]. cbn.
      destruct (Z.eqb_spec (id y) (id x)) as [Heq|Hne]; cbn.
      * exfalso. apply Hx. rewrite <- Heq. cbn. apply elem_of_cons. auto.
      * f_equal. apply IH.
        -- intros H. apply Hx. cbn. apply elem_of_cons. auto.
        -- cbn in Hpk. apply NoDup_cons in Hpk as [_ Hpk]. exact Hpk.
    + destruct (Z.eqb_spec (id x) (id r)) as [Heq|Hne]; cbn.
      * exfalso. apply Hx. rewrite Heq.
        apply (list_elem_of_fmap_2 id). exact Hin.
      * rewrite (IH Hpk Hin). destruct table; [apply elem_of_nil in Hin as []|].
        reflexivity.
  - apply primary_key_remove, Hpk.
Qed.


Lemma find_save (r' : Resource) (k : Z) (table : list Resource) :
  find (fun r => id r =? k) (save r' table)
  = if k =? id r'
    then match find (fun r => id r =? k) table with
         | Some _ => Some r'
         | None => None
         end
    else find (fun r => id r =? k) table.
Proof.
  unfold save. destruct (Z.eqb_spec k (id r')) as [Hk|Hk];
    induction table as [|x table IH]; cbn; try reflexivity;
    rewrite IH;
    destruct (Z.eqb_spec (id x) (id r')); cbn [id];
    repeat match goal with
           | |- context [?a =? ?b] => destruct (Z.eqb_spec a b)
           end; congruence.
Qed.

Lemma save_twice (r' : Resource) (table : list Resource) :
  save r' (save r' table) = save r' table.
Proof.
  unfold save. rewrite map_map. apply map_ext. intros x.
  destruct (Z.eqb_spec (id x) (id r')) as [Heq|Hne].
  - rewrite Z.eqb_refl. reflexivity.
  - destruct (Z.eqb_spec (id x) (id r')); [contradiction|reflexivity].
Qed.

Lemma coalesce_name_twice (n : Field) (s : string) :
  coalesce_name n (coalesce_name n s) = coalesce_name n s.
Proof. destruct n; reflexivity. Qed.

Lemma coalesce_description_twice (d : Field) (s : option string) :
  coalesce_description d (coalesce_description d s)
  = coalesce_description d s.
Proof. destruct d; reflexivity. Qed.

(** X22.  An update of an existing resource answers 200 with the row as
    it is stored: a GET of the id returns that very resource, the GETs
    of the other ids answer as before, and sending the same update again
    gives the same answer and changes nothing more. *)
Theorem update_then_get (k : Z) (n d : Field) (r : Resource)
    (table : list Resource) :
  findOneBy (Integer k) table = Row r ->
  let r' := {| id := k; name := coalesce_name n (name r);
               description := coalesce_description d (description r) |} in
  exists table',
    updateResource None (Integer k) n d table = (table', R200 r') /\
    getResource false (Integer k) table' = Found r' /\
    (forall k', k' <> k ->
       getResource false (Integer k') table' = getResource false (Integer k') table) /\
    updateResource None (Integer k) n d table' = (table', R200 r').
Proof.
  intros Hfind r'.
  pose proof (findOneBy_Row _ _ _ Hfind) as [Hin [= Hk]].
  assert (Hid : id r' = id r) by (cbn; exact Hk).
  exists (save r' table).
  assert (Hget : findOneBy (Integer k) (save r' table) = Row r').
  { cbn [findOneBy] in *. rewrite (find_save r' k table).
    destruct (find (fun x => id x =? k) table); [|discriminate].
    cbn. rewrite Z.eqb_refl. reflexivity. }
  repeat split.
  - unfold updateResource. cbn [bool_decide decide_rel]. rewrite Hfind.
    cbn. rewrite <- Hk. reflexivity.
  - unfold getResource. rewrite Hget. reflexivity.
  - intros k' Hk'. unfold getResource. cbn [findOneBy].
    rewrite (find_save r' k' table). cbn.
    destruct (Z.eqb_spec k' k); [congruence|reflexivity].
  - unfold updateResource. cbn [bool_decide decide_rel]. rewrite Hget.
    cbn. rewrite coalesce_name_twice, coalesce_description_twice.
    fold r'. rewrite save_twice. reflexivity.
Qed.


Lemma dispatch_cases (o : Outside) (rq : HttpRequest)
    (table : list Resource) :
  dispatch o rq table = (table, (dispatch o rq table).2) \/
  (exists r, method rq = POST /\ id r = generated_id o /\
     (forall x, x ∈ table -> id x <> id r) /\
     dispatch o rq table = (table ++ [r], FromController (Created r))) \/
  (exists found r, found ∈ table /\ id r = id found /\
     dispatch o rq table = (save r table, FromUpdate (R200 r))) \/
  (exists r, dispatch o rq table = (remove r table, FromController Deleted)).
Proof.
  unfold dispatch.
  destruct (method rq) eqn:Hm, (path_id rq) as [key|]; auto.
  - (* POST / *)
    unfold createResource. destruct (write_fails o); auto.
    destruct (body_name rq); auto.
    destruct (existsb _ table) eqn:Hfresh; auto.
    right. left. eexists. repeat split; try reflexivity.
    cbn. apply fresh_id, Hfresh.
  - (* PUT /:id *)
    unfold updateResource.
    destruct (find_fails o); [left; reflexivity|].
    destruct (findOneBy key table) as [found| |] eqn:Hfind.
    2,3: destruct (write_fails o); left; reflexivity.
    destruct (write_fails o); [left; reflexivity|].
    right. right. left. apply findOneBy_Row in Hfind as [Hin _].
    exists found. eexists. split; [exact Hin|].
    cbn. split; [|reflexivity]. reflexivity.
  - (* DELETE /:id *)
    unfold deleteResource.
    destruct (find_fails o); [left; reflexivity|].
    destruct (findOneBy key table) as [found| |] eqn:Hfind.
    2,3: destruct (write_fails o); left; reflexivity.
    destruct (write_fails o); [left; reflexivity|].
    right. right. right. exists found. reflexivity.
Qed.


(** X24.  Only a write that went through changes the table: when no
    response of a run is the 201 of a create, the 200 of an update or
    the 200 of a delete, the table at the end is the table at the
    start.  A GET, a 404, a 500 and an unrouted request store nothing. *)
Theorem unwritten_requests_change_nothing
    (requests : list (Outside * HttpRequest)) (table : list Resource) :
  forallb (fun response => negb (written response))
    (handle requests table).2 = true ->
  (handle requests table).1 = table.
Proof.
  revert table. induction requests as [|[o rq] rest IH]; intros table;
    [reflexivity|].
  cbn [handle]. destruct (dispatch o rq table) as [t resp] eqn:Hd.
  specialize (IH t). destruct (handle rest t) as [t' resps].
  cbn [fst snd forallb] in *. intros H.
  apply andb_prop in H as [Hresp Hrest].
  rewrite (IH Hrest).
  destruct (dispatch_cases o rq table)
    as [H|[(r & _ & _ & _ & H)|[(found & r & _ & _ & H)|(r & H)]]];
    rewrite Hd in H; inversion H; subst; try reflexivity;
    discriminate Hresp.
Qed.

Lemma create_then_get_witness :
  createResource false 3 (Str "gamma") Undefined two_resources
    = ((two_resources ++
          [ {| id := 3; name := "gamma"; description := None |} ])%list,
       Created {| id := 3; name := "gamma"; description := None |}) /\
  getResource false (Integer 3)
    (two_resources ++
       [ {| id := 3; name := "gamma"; description := None |} ])%list
  = Found {| id := 3; name := "gamma"; description := None |}.
Proof.
  assert (Hpk : primary_key two_resources).
  { unfold primary_key. cbn. repeat (apply NoDup_cons; split);
      [| |apply NoDup_nil_2]; rewrite ?elem_of_cons, ?elem_of_nil;
      intuition discriminate. }
  destruct (create_then_get 3 "gamma" Undefined two_resources Hpk eq_refl)
    as (H1 & _ & H2 & _).
  split; [exact H1|exact H2].
Defined.

Lemma delete_then_gone_witness :
  exists table',
    deleteResource None (Integer 1) two_resources = (table', Deleted) /\
    getResource false (Integer 1) table' = NotFound.
Proof.
  assert (Hpk : primary_key two_resources).
  { unfold primary_key. cbn. repeat (apply NoDup_cons; split);
      [| |apply NoDup_nil_2]; rewrite ?elem_of_cons, ?elem_of_nil;
      intuition discriminate. }
  destruct (delete_then_gone 1 _ two_resources Hpk eq_refl)
    as (table' & H1 & H2 & _).
  exists table'. split; [exact H1|exact H2].
Defined.

Lemma update_then_get_witness :
  exists table',
    updateResource None (Integer 2) Null (Str "second") two_resources
      = (table', R200 {| id := 2; name := "beta";
                         description := Some "second" |}) /\
    getResource false (Integer 2) table'
      = Found {| id := 2; name := "beta"; description := Some "second" |}.
Proof.
  destruct (update_then_get 2 Null (Str "second") _ two_resources eq_refl)
    as (table' & H1 & H2 & _).
  exists table'. split; [exact H1|exact H2].
Defined.


Lemma unwritten_requests_change_nothing_witness :
  (handle five_unwritten two_resources).2
    = [ FromController Failed; FromController NotFound;
        FromUpdate R500_update_failed;
        FromController
          (Listed [ {| id := 2; name := "beta"; description := None |} ]);
        NoRoute ] /\
  (handle five_unwritten two_resources).1 = two_resources.
Proof.
  split; [reflexivity|].
  apply (unwritten_requests_change_nothing five_unwritten two_resources).
  reflexivity.
Defined.

End CrudFacts.
